(** * Unit strings and plot rendering of TopoBank's [project.js]

    A shallow embedding of [split_unit], [unicode_superscript],
    [unicode_unit] and [render_plot] from
    [src/topobank/static/js/project.js], with the properties that the
    specification states about them. *)

From Stdlib Require Import String Ascii.
From Stdlib Require Import List ZArith NArith Bool Lia.
From Stdlib Require QArith.
Import ListNotations.

Set Implicit Arguments.

(** ** JavaScript values *)

(** A JavaScript string is a sequence of UTF-16 code units. *)
Definition jsstring := list N.

(** ASCII literals of the source. *)
Definition js (s : string) : jsstring :=
  map N_of_ascii (list_ascii_of_string s).

Fixpoint jsstring_eqb (a b : jsstring) : bool :=
  match a, b with
  | [], [] => true
  | c :: a', d :: b' => (c =? d)%N && jsstring_eqb a' b'
  | _, _ => false
  end.

(** A value that is a string or [undefined]. *)
Definition jsvalue := option jsstring.

(** ToBoolean: [undefined] and the empty string are falsy. *)
Definition truthy (v : jsvalue) : bool :=
  match v with
  | Some (_ :: _) => true
  | _ => false
  end.

(** Loose equality [==] of two values that are strings or [undefined]. *)
Definition loose_eqb (a b : jsvalue) : bool :=
  match a, b with
  | None, None => true
  | Some s, Some t => jsstring_eqb s t
  | _, _ => false
  end.

(** The Numbers that [parseInt] produces: [NaN], an infinity, or a finite
    double whose value is the integer [z] ([-0] is identified with [0]:
    [String], [==] and [**] do not tell them apart). *)
Inductive number :=
  | NaN
  | Infinity (negative : bool)
  | Int (z : Z).

Definition number_eqb (a b : number) : bool :=
  match a, b with
  | Int x, Int y => Z.eqb x y
  | Infinity s, Infinity t => Bool.eqb s t
  | _, _ => false
  end.

(** [Number.isSafeInteger]: the integers on which double arithmetic and
    [String] are exact. *)
Definition max_safe_integer : Z := 2 ^ 53 - 1.
Definition safe_integer (z : Z) : Prop := (Z.abs z <= max_safe_integer)%Z.

(** Round an integer to the nearest double, ties to even. *)
Definition round_double (z : Z) : number :=
  let a := Z.abs z in
  if (a <? 2 ^ 53)%Z then Int z
  else
    let k := (Z.log2 a - 52)%Z in
    let q := (a / 2 ^ k)%Z in
    let r := (a mod 2 ^ k)%Z in
    let half := (2 ^ (k - 1))%Z in
    let q' := if (r <? half)%Z then q
              else if (half <? r)%Z then (q + 1)%Z
              else if Z.even q then q else (q + 1)%Z in
    let v := (q' * 2 ^ k)%Z in
    if (2 ^ 1024 <=? v)%Z then Infinity (z <? 0)%Z
    else Int (Z.sgn z * v).

(** *** Iterating a string *)

Definition is_high_surrogate (c : N) : bool :=
  ((0xD800 <=? c) && (c <=? 0xDBFF))%N.
Definition is_low_surrogate (c : N) : bool :=
  ((0xDC00 <=? c) && (c <=? 0xDFFF))%N.

(** [for (var c of s)]: one string per code point, a surrogate pair staying
    together. *)
Fixpoint code_points (s : jsstring) : list jsstring :=
  match s with
  | [] => []
  | h :: t =>
      match t with
      | l :: t' =>
          if is_high_surrogate h && is_low_surrogate l
          then [h; l] :: code_points t'
          else [h] :: code_points t
      | [] => [[h]]
      end
  end.

(** [s.split('')]: one string per code unit. *)
Definition split_chars (s : jsstring) : list jsstring :=
  map (fun c => [c]) s.

(** *** Object literals used as dictionaries *)

(** The keys of an object literal with their values.  [c in d] is asked of
    a [c] that is one code point or one code unit; no property that [d]
    inherits from [Object.prototype] has such a name, so [c in d] holds
    exactly when [lookup c d] finds a key. *)
Definition dict (V : Type) := list (jsstring * V).

Fixpoint lookup {V} (k : jsstring) (d : dict V) : option V :=
  match d with
  | [] => None
  | (k', v) :: d' => if jsstring_eqb k k' then Some v else lookup k d'
  end.

Arguments lookup : simpl never.

(** *** Number to string *)

Definition digit_char (d : N) : N := (48 + d)%N.

Fixpoint digits_of (fuel : nat) (n : N) (acc : jsstring) : jsstring :=
  match fuel with
  | O => acc
  | S fuel' =>
      let acc' := digit_char (n mod 10) :: acc in
      if (n / 10 =? 0)%N then acc' else digits_of fuel' (n / 10) acc'
  end.

Definition decimal (n : N) : jsstring :=
  digits_of (S (N.to_nat (N.log2 n))) n [].

(** [String(n)], as string concatenation applies it.  For [Int z] this is
    the decimal numeral of [z], which is what JavaScript prints for a safe
    integer. *)
Definition number_to_string (n : number) : jsstring :=
  match n with
  | NaN => js "NaN"
  | Infinity false => js "Infinity"
  | Infinity true => js "-Infinity"
  | Int z =>
      if (z <? 0)%Z then js "-" ++ decimal (Z.abs_N z) else decimal (Z.abs_N z)
  end.

(** *** parseInt *)

Definition is_white_space (c : N) : bool :=
  existsb (N.eqb c)
    [0x09; 0x0A; 0x0B; 0x0C; 0x0D; 0x20; 0xA0; 0x1680; 0x2000; 0x2001;
     0x2002; 0x2003; 0x2004; 0x2005; 0x2006; 0x2007; 0x2008; 0x2009;
     0x200A; 0x2028; 0x2029; 0x202F; 0x205F; 0x3000; 0xFEFF]%N.

Fixpoint trim_start (s : jsstring) : jsstring :=
  match s with
  | c :: s' => if is_white_space c then trim_start s' else s
  | [] => []
  end.

(** The value of a character as a digit of the given radix. *)
Definition digit_value (radix c : N) : option N :=
  let v :=
    if ((48 <=? c) && (c <=? 57))%N then Some (c - 48)%N
    else if ((97 <=? c) && (c <=? 122))%N then Some (c - 87)%N
    else if ((65 <=? c) && (c <=? 90))%N then Some (c - 55)%N
    else None in
  match v with
  | Some d => if (d <? radix)%N then Some d else None
  | None => None
  end.

(** Scan the longest prefix of digits; [None] when there is no digit. *)
Fixpoint scan_digits (radix : N) (s : jsstring) (acc : option N) : option N :=
  match s with
  | c :: s' =>
      match digit_value radix c with
      | Some d =>
          scan_digits radix s'
            (Some (match acc with Some a => a * radix + d | None => d end)%N)
      | None => acc
      end
  | [] => acc
  end.

(** [parseInt(s)] with no radix argument: white space is skipped, a sign
    is read, a [0x] or [0X] prefix selects radix 16, and the longest run of
    digits is the value. *)
Definition parseInt (s : jsstring) : number :=
  let s1 := trim_start s in
  let '(neg, s2) :=
    match s1 with
    | c :: r =>
        if (c =? 45)%N then (true, r)
        else if (c =? 43)%N then (false, r)
        else (false, s1)
    | [] => (false, s1)
    end in
  let '(radix, s3) :=
    match s2 with
    | c0 :: c1 :: r =>
        if ((c0 =? 48) && ((c1 =? 120) || (c1 =? 88)))%N then (16%N, r)
        else (10%N, s2)
    | _ => (10%N, s2)
    end in
  match scan_digits radix s3 None with
  | None => NaN
  | Some v => round_double (if neg then - Z.of_N v else Z.of_N v)
  end.

(** ** The unit parser *)

Module Unit.

(** The object [split_unit] returns. *)
Record parsed := {
  unit : jsvalue;
  exponent : number;
}.

(** [superscript_dict] of [split_unit]. *)
Definition superscript_dict : dict jsstring := Eval cbv in
  [ ([0x2070%N], js "0");
    ([0x00B9%N], js "1");
    ([0x00B2%N], js "2");
    ([0x00B3%N], js "3");
    ([0x2074%N], js "4");
    ([0x2075%N], js "5");
    ([0x2076%N], js "6");
    ([0x2077%N], js "7");
    ([0x2078%N], js "8");
    ([0x2079%N], js "9");
    ([0x207A%N], js "+");
    ([0x207B%N], js "-");
    ([0x22C5%N], js ".") ].

(** The loop of [split_unit] over the code points, with its two
    accumulators. *)
Fixpoint split_loop (cs : list jsstring) (unit exponent : jsstring)
  : jsstring * jsstring :=
  match cs with
  | [] => (unit, exponent)
  | c :: cs' =>
      match lookup c superscript_dict with
      | Some d => split_loop cs' unit (exponent ++ d)
      | None => split_loop cs' (unit ++ c) exponent
      end
  end.

Definition split_unit (unit_str : jsvalue) : parsed :=
  match unit_str with
  | Some ((_ :: _) as s) =>
      let '(unit, exponent) := split_loop (code_points s) [] [] in
      {| unit := Some unit;
         exponent := if (0 <? length exponent)%nat
                     then parseInt exponent else Int 1 |}
  | _ => {| unit := None; exponent := Int 1 |}
  end.

(** [superscript_dict] of [unicode_superscript]. *)
Definition unicode_dict : dict jsstring := Eval cbv in
  [ (js "0", [0x2070%N]);
    (js "1", [0x00B9%N]);
    (js "2", [0x00B2%N]);
    (js "3", [0x00B3%N]);
    (js "4", [0x2074%N]);
    (js "5", [0x2075%N]);
    (js "6", [0x2076%N]);
    (js "7", [0x2077%N]);
    (js "8", [0x2078%N]);
    (js "9", [0x2079%N]);
    (js "+", [0x207A%N]);
    (js "-", [0x207B%N]);
    (js ".", [0x22C5%N]) ].

Definition unicode_superscript (s : jsstring) : jsstring :=
  concat (map (fun c => match lookup c unicode_dict with
                        | Some g => g
                        | None => c
                        end) (split_chars s)).

Definition unicode_unit (unit : jsstring) (exponent : number) : jsstring :=
  if number_eqb exponent (Int 1) then unit
  else unicode_superscript (unit ++ number_to_string exponent).

End Unit.

(** ** Exceptions *)

Inductive exn :=
  | TypeError (message : jsstring)
  | Error (message : jsstring).

Inductive result (A : Type) :=
  | Ok (a : A)
  | Throw (e : exn).

Arguments Ok {A} a.
Arguments Throw {A} e.

Definition bind {A B} (r : result A) (k : A -> result B) : result B :=
  match r with
  | Ok a => k a
  | Throw e => Throw e
  end.

Notation "x <- r ;; k" := (bind r (fun x => k))
  (at level 61, r at next level, right associativity).
Notation "' p <- r ;; k" := (bind r (fun x => let 'p := x in k))
  (at level 61, p pattern, r at next level, right associativity).

(** ** The data [render_plot] reads and builds *)

(** One entry of [plot_descr.series]. *)
Module Series.
Record t (num : Type) := {
  name : jsstring;
  x : list num;
  y : list num;
  style : jsvalue;
}.
End Series.

(** One plot descriptor of [plot_descr_array]. *)
Module Descr.
Record t (num : Type) := {
  xlabel : jsstring;
  ylabel : jsstring;
  xunit : jsvalue;
  yunit : jsvalue;
  xscale : jsvalue;
  yscale : jsvalue;
  series : list (Series.t num);
}.
End Descr.

(** One datum [{x: ..., y: ...}] of a [Plottable.Dataset]. *)
Module Point.
Record t (num : Type) := { x : num; y : num }.
End Point.

(** [Plottable.SymbolFactories]. *)
Inductive symbol_factory := circle | cross | diamond | square | triangle | wye.

(** [Plottable.Scales.Log] and [Plottable.Scales.Linear]. *)
Inductive scale := Log | Linear.

(** An attribute is set to a constant, [attr('stroke', color)], or taken
    from the colour scale, [attr('stroke', item.name, color_scale)]. *)
Inductive attr :=
  | Constant (color : jsstring)
  | Scaled (name : jsstring).

(** [Plottable.Plots.Line] and [Plottable.Plots.Scatter], with the dataset
    and the attributes [render_plot] gives them. *)
Inductive plot (num : Type) :=
  | Line (dataset : list (Point.t num)) (stroke : attr)
  | Scatter (dataset : list (Point.t num)) (symbol : symbol_factory)
            (stroke fill : attr).

Definition dataset_of {num} (p : plot num) : list (Point.t num) :=
  match p with
  | Line d _ => d
  | Scatter d _ _ _ => d
  end.

(** The variables of [render_plot] that live across the descriptors. *)
Module Locals.
Record t (num : Type) := {
  unit : jsvalue;
  x_scale : option scale;
  y_scale : option scale;
  x_axis_label : option jsstring;
  y_axis_label : option jsstring;
  color_scale : option (list jsstring);
  plots : list (plot num);
  symbols : list (option symbol_factory);
}.
End Locals.

(** [array.map(function (value, index) ...)]. *)
Fixpoint map_index {A B} (f : A -> nat -> B) (index : nat) (l : list A)
  : list B :=
  match l with
  | [] => []
  | value :: l' => f value index :: map_index f (S index) l'
  end.

(** [for (... of ...)] and [forEach] with a body that may throw. *)
Fixpoint for_each {S A} (body : S -> A -> result S) (s : S) (l : list A)
  : result S :=
  match l with
  | [] => Ok s
  | a :: l' => s' <- body s a ;; for_each body s' l'
  end.

Module Plot.

(** The static dictionaries of [render_plot]. *)
Definition color_abbreviations : dict jsstring := Eval cbv in
  [ (js "k", js "black"); (js "r", js "red") ].

Definition symbol_factories : dict symbol_factory := Eval cbv in
  [ (js "o", circle); (js "+", cross); (js "d", diamond);
    (js "s", square); (js "^", triangle); (js "y", wye) ].

Definition unit_mismatch : exn :=
  TypeError (js "X- and y-axis have different (base) units. Cannot at present handle this.").

Definition style_error (style : jsstring) : exn :=
  TypeError (js "Cannot interpret style string: " ++ style).

(** What [new Plottable.Components.Legend(color_scale)] throws when
    [color_scale] is [undefined]. *)
Definition legend_error : exn := Error (js "Legend requires a colorScale").

(** [line], [color] and [symbol] of the style loop. *)
Record style_vars := {
  line : bool;
  color : option jsstring;
  symbol : option symbol_factory;
}.

(** The loop over the characters of [style]. *)
Fixpoint style_loop (style : jsstring) (cs : list jsstring) (v : style_vars)
  : result style_vars :=
  match cs with
  | [] => Ok v
  | c :: cs' =>
      if jsstring_eqb c (js "-") then
        style_loop style cs'
          {| line := true; color := color v; symbol := symbol v |}
      else
        match lookup c color_abbreviations with
        | Some col =>
            style_loop style cs'
              {| line := line v; color := Some col; symbol := symbol v |}
        | None =>
            match lookup c symbol_factories with
            | Some f =>
                style_loop style cs'
                  {| line := line v; color := color v; symbol := Some f |}
            | None => Throw (style_error style)
            end
        end
  end.

Section Renderer.

(** The Numbers of the data: the type, [1], [NaN], [*] and [**] with a
    parsed exponent.  [convert from to] is [convert(1).from(from).to(to)]
    of the convert-units library, which throws on units it cannot
    convert. *)
Variable num : Type.
Variable one nan : num.
Variable mul : num -> num -> num.
Variable pow : num -> number -> num.
Variable convert : jsvalue -> jsstring -> result num.

(** The dataset of one series: [item.y.map(..., item.x)].  A missing
    [item.x[index]] is [undefined], a NaN in the product. *)
Definition dataset (scale_factor_x scale_factor_y : num) (item : Series.t num)
  : list (Point.t num) :=
  map_index
    (fun value index =>
       {| Point.x := mul scale_factor_x (nth index (Series.x item) nan);
          Point.y := mul scale_factor_y value |})
    0 (Series.y item).

(** [item.style ? item.style : 'k-'] *)
Definition style_of (item : Series.t num) : jsstring :=
  match Series.style item with
  | Some ((_ :: _) as s) => s
  | _ => js "k-"
  end.

(** The callback of [plot_descr.series.forEach]: the plots it pushes to
    [plots] and the value it pushes to [symbols]. *)
Definition render_series (scale_factor_x scale_factor_y : num)
  (item : Series.t num) : result (list (plot num) * option symbol_factory) :=
  let style := style_of item in
  let dataset := dataset scale_factor_x scale_factor_y item in
  v <- style_loop style (code_points style)
         {| line := false; color := None; symbol := None |} ;;
  let paint := match color v with
               | Some c => Constant c
               | None => Scaled (Series.name item)
               end in
  let line_plot := if line v then [Line dataset paint] else [] in
  let symbol_plot := match symbol v with
                     | Some f => [Scatter dataset f paint paint]
                     | None => []
                     end in
  Ok (line_plot ++ symbol_plot, symbol v).

Definition push_series (scale_factor_x scale_factor_y : num)
  (acc : list (plot num) * list (option symbol_factory))
  (item : Series.t num)
  : result (list (plot num) * list (option symbol_factory)) :=
  '(pushed, symbol) <- render_series scale_factor_x scale_factor_y item ;;
  Ok (fst acc ++ pushed, snd acc ++ [symbol]).

(** [if (!unit) unit = xunit.unit;] *)
Definition default_unit (unit : jsvalue) (xunit : Unit.parsed) : jsvalue :=
  if negb (truthy unit) then Unit.unit xunit else unit.

(** The scale factors of one descriptor. *)
Definition scale_factors (unit : jsvalue) (xunit yunit : Unit.parsed)
  : result (num * num) :=
  match unit with
  | Some ((_ :: _) as u) =>
      scale_factor <- convert (Unit.unit xunit) u ;;
      Ok (pow scale_factor (Unit.exponent xunit), pow scale_factor (Unit.exponent yunit))
  | _ => Ok (one, one)
  end.

(** [unit] where a label is built: a string, since it is truthy whenever
    the base unit of the axis is. *)
Definition unit_text (unit : jsvalue) : jsstring :=
  match unit with
  | Some s => s
  | None => []
  end.

Definition axis_label (label : jsstring) (unit : jsvalue) (axis_unit : Unit.parsed)
  : jsstring :=
  if truthy (Unit.unit axis_unit)
  then label ++ js " (" ++ Unit.unicode_unit (unit_text unit) (Unit.exponent axis_unit)
             ++ js ")"
  else label.

Definition new_scale (kind : jsvalue) : scale :=
  if loose_eqb kind (Some (js "log")) then Log else Linear.

Definition or_else {A} (old : option A) (fresh : A) : option A :=
  match old with
  | Some a => Some a
  | None => Some fresh
  end.

(** The body of the loop over [plot_descr_array]. *)
Definition descr_body (v : Locals.t num) (plot_descr : Descr.t num)
  : result (Locals.t num) :=
  let xunit := Unit.split_unit (Descr.xunit plot_descr) in
  let yunit := Unit.split_unit (Descr.yunit plot_descr) in
  if negb (loose_eqb (Unit.unit xunit) (Unit.unit yunit)) then
    Throw unit_mismatch
  else
    let unit := default_unit (Locals.unit v) xunit in
    '(scale_factor_x, scale_factor_y) <- scale_factors unit xunit yunit ;;
    let x_scale := or_else (Locals.x_scale v)
                     (new_scale (Descr.xscale plot_descr)) in
    let y_scale := or_else (Locals.y_scale v)
                     (new_scale (Descr.yscale plot_descr)) in
    let x_axis_label := or_else (Locals.x_axis_label v)
                          (axis_label (Descr.xlabel plot_descr) unit xunit) in
    let y_axis_label := or_else (Locals.y_axis_label v)
                          (axis_label (Descr.ylabel plot_descr) unit yunit) in
    let color_scale := or_else (Locals.color_scale v)
                         (map (@Series.name num) (Descr.series plot_descr)) in
    '(plots, symbols) <-
       for_each (push_series scale_factor_x scale_factor_y)
         (Locals.plots v, Locals.symbols v) (Descr.series plot_descr) ;;
    Ok {| Locals.unit := unit;
          Locals.x_scale := x_scale;
          Locals.y_scale := y_scale;
          Locals.x_axis_label := x_axis_label;
          Locals.y_axis_label := y_axis_label;
          Locals.color_scale := color_scale;
          Locals.plots := plots;
          Locals.symbols := symbols |}.

Definition initial (unit : jsvalue) : Locals.t num :=
  {| Locals.unit := unit;
     Locals.x_scale := None;
     Locals.y_scale := None;
     Locals.x_axis_label := None;
     Locals.y_axis_label := None;
     Locals.color_scale := None;
     Locals.plots := [];
     Locals.symbols := [] |}.

(** [render_plot(element, plot_descr_array, unit)]: the variables from
    which the chart is assembled once the loop has ended.  After the loop
    the legend is built from [color_scale], which is still [undefined] if
    the loop had no turn: the constructor of the legend throws then.  The
    table of components and the drawing into [element] are Plottable's
    and are not modelled. *)
Definition render_plot (plot_descr_array : list (Descr.t num)) (unit : jsvalue)
  : result (Locals.t num) :=
  v <- for_each descr_body (initial unit) plot_descr_array ;;
  match Locals.color_scale v with
  | Some _ => Ok v
  | None => Throw legend_error
  end.

End Renderer.

End Plot.

(** ** A concrete arithmetic

    Rational numbers stand for the doubles of the data and [None] for NaN;
    the conversion table knows a few lengths and times. *)

Module Sample.

Import QArith.

Definition num := option Q.
Definition one : num := Some 1%Q.
Definition nan : num := None.

Definition mul (a b : num) : num :=
  match a, b with
  | Some p, Some q => Some (p * q)
  | _, _ => None
  end.

Definition pow (r : num) (e : number) : num :=
  match r, e with
  | Some q, Int z => Some (Qpower q z)
  | _, _ => None
  end.

(** The units of the table, each with its measure and its size in the
    measure's anchor unit. *)
Definition units : dict (jsstring * Q) :=
  [ (js "mm", (js "length", 1 # 1000));
    (js "m", (js "length", 1));
    (js "km", (js "length", 1000 # 1));
    (js "ms", (js "time", 1 # 1000));
    (js "s", (js "time", 1)) ]%Q.

Definition convert (from : jsvalue) (to : jsstring) : result num :=
  match from with
  | Some f =>
      match lookup f units, lookup to units with
      | Some (mf, qf), Some (mt, qt) =>
          if jsstring_eqb mf mt then Ok (Some (Qred (qf / qt)))
          else Throw (Error (js "Cannot convert incompatible measures"))
      | _, _ => Throw (Error (js "Unsupported unit"))
      end
  | None => Throw (Error (js "Unsupported unit"))
  end.

Definition render_series := Plot.render_series nan mul.
Definition descr_body := Plot.descr_body one nan mul pow convert.
Definition render_plot := Plot.render_plot one nan mul pow convert.

Definition q (n : Z) : num := Some (inject_Z n).

Definition item (name : string) (style : jsvalue) : Series.t num :=
  {| Series.name := js name;
     Series.x := [q 1; q 2; q 3];
     Series.y := [q 10; q 20; q 30];
     Series.style := style |}.

Definition descr (xunit yunit : jsvalue) (series : list (Series.t num))
  : Descr.t num :=
  {| Descr.xlabel := js "x";
     Descr.ylabel := js "y";
     Descr.xunit := xunit;
     Descr.yunit := yunit;
     Descr.xscale := Some (js "linear");
     Descr.yscale := Some (js "log");
     Descr.series := series |}.

(** [mm] on the x axis, [mm²] on the y axis. *)
Definition height_descr : Descr.t num :=
  descr (Some (js "mm")) (Some (js "mm" ++ [0xB2%N]))
    [item "profile" (Some (js "k-o"))].

Definition unitless_descr : Descr.t num :=
  descr None None [item "fit" None].

Definition metre_descr : Descr.t num :=
  descr (Some (js "m")) (Some (js "m")) [item "data" (Some (js "ko"))].

(** [m] against [s]. *)
Definition mismatched_descr : Descr.t num :=
  descr (Some (js "m")) (Some (js "s")) [item "data" (Some (js "-"))].

Definition bad_style_descr : Descr.t num :=
  descr (Some (js "m")) (Some (js "m")) [item "data" (Some (js "x"))].

End Sample.

(** ** The legend of [render_plot] *)

(** The symbol of the legend entry [index]:
    [s = symbols[index]; return s ? s : Plottable.SymbolFactories.circle()]. *)
Definition legend_symbol (symbols : list (option symbol_factory))
  (index : nat) : symbol_factory :=
  match nth_error symbols index with
  | Some (Some s) => s
  | _ => circle
  end.

(** ** Polling for the plot data: [plot] *)

Module Polling.

(** [data.result]: a plot descriptor, or an object with the key [error];
    the value of the key is a string or [undefined]. *)
Module TaskResult.
Record t (num : Type) := {
  error : option jsvalue;
  descr : Descr.t num;
}.
End TaskResult.

(** The JSON dictionary that one URL of [data-src] answers with.  A task
    that has ended carries a result object. *)
Module Response.
Record t (num : Type) := {
  task_state : jsvalue;
  result : TaskResult.t num;
}.
End Response.

(** What [done_func] or the failure callback leaves behind in the element
    it is called for: a timer that calls [plot] for the element again
    after a second, with a unit; a text in place of the plot; or the
    chart. *)
Inductive effect (num : Type) :=
  | Retry (unit : jsvalue)
  | Message (text : jsstring)
  | Chart (chart : Locals.t num).

(** String concatenation with a value that is a string or [undefined]. *)
Definition to_text (v : jsvalue) : jsstring :=
  match v with
  | Some s => s
  | None => js "undefined"
  end.

Section Plot.

Variable num : Type.
Variable one nan : num.
Variable mul : num -> num -> num.
Variable pow : num -> number -> num.
Variable convert : jsvalue -> jsstring -> result num.

(** The task is pending or has started. *)
Definition waiting (data : Response.t num) : bool :=
  loose_eqb (Response.task_state data) (Some (js "pe"))
  || loose_eqb (Response.task_state data) (Some (js "st")).

(** The loop of [done_func] over the responses: the effect with which it
    returns from inside the loop, if it does. *)
Fixpoint done_loop (unit : jsvalue) (data_array : list (Response.t num))
  : option (effect num) :=
  match data_array with
  | [] => None
  | data :: data_array' =>
      if waiting data then Some (Retry num unit)
      else
        match TaskResult.error (Response.result data) with
        | Some e =>
            Some (Message num (js "Server reported error: " ++ to_text e))
        | None => done_loop unit data_array'
        end
  end.

(** The closure that [plot(element, unit)] builds for [done_func], given
    by the [unit] it closes over; [element] is a parameter of the closure.
    Its result is the effect, and whether the spinner is still shown. *)
Definition done_func (unit : jsvalue) (data_array : list (Response.t num))
  : result (effect num * bool) :=
  match done_loop unit data_array with
  | Some effect => Ok (effect, true)
  | None =>
      chart <- Plot.render_plot one nan mul pow convert
                 (map (fun data => TaskResult.descr (Response.result data))
                    data_array) unit ;;
      Ok (Chart chart, false)
  end.

(** [done_func] is assigned without a declaration, and the script is not
    in strict mode: it is a variable of the global object, which all calls
    of [plot] share.  After a call it holds the closure of that call,
    until the next call replaces it.  The global object is given here by
    the unit that the closure in [done_func] closes over. *)
Record globals := {
  done_func_unit : jsvalue;
}.

(** [plot(element, unit)] up to the requests: the spinner of [element] is
    shown, the requests are sent, and [done_func] is assigned. *)
Definition plot (unit : jsvalue) : globals :=
  {| done_func_unit := unit |}.

(** The global object after a call of [plot] and the calls that follow
    it. *)
Definition after_calls (unit : jsvalue) (later : list jsvalue) : globals :=
  fold_left (fun _ unit' => plot unit') later (plot unit).

(** The callbacks that a call of [plot] has registered with
    [$.when(...requests)], when the requests of the call have settled:
    with the responses of all URLs, or with nothing when a request failed.
    The callback of [done] calls what [done_func] holds at that time, for
    the element of its own call. *)
Definition when_settled (g : globals)
  (fetched : option (list (Response.t num)))
  : result (effect num * bool) :=
  match fetched with
  | Some data_array => done_func (done_func_unit g) data_array
  | None =>
      Ok (Message num (js "Failed obtaining resources from server."), false)
  end.

End Plot.

(** [String.prototype.slice(start, end)]. *)
Definition slice (s : jsstring) (start finish : Z) : jsstring :=
  let len := Z.of_nat (length s) in
  let from := if (start <? 0)%Z then Z.max (len + start) 0
              else Z.min start len in
  let to := if (finish <? 0)%Z then Z.max (len + finish) 0
            else Z.min finish len in
  firstn (Z.to_nat (Z.max (to - from) 0)) (skipn (Z.to_nat from) s).

(** The unit that a click on a [.topobank-change-unit] entry passes to
    [plot]: [t.slice(t.length - 2, t.length)] of the text of the entry. *)
Definition clicked_unit (t : jsstring) : jsstring :=
  slice t (Z.of_nat (length t) - 2) (Z.of_nat (length t)).

End Polling.

(** ** The analysis cards: [submit_analyses_card_ajax] *)

Module Card.

(** What the server answers to one call: a success with its status and the
    HTML of the card, or an error. *)
Inductive reply :=
  | Success (status : N) (data : jsstring)
  | Failure (error_thrown : jsstring) (status : N).

(** The card: everything that was put into it with [.html(...)], the first
    first; the text of the wait indicator; the alert classes. *)
Record page := {
  inserted : list jsstring;
  indicator : option jsstring;
  alert : bool;
}.

(** ['.'.repeat((call_count % 9) + 1)] *)
Definition dots (call_count : N) : jsstring :=
  repeat 46%N (N.to_nat (call_count mod 9 + 1)).

Section Ajax.

(** The alert that the error handler builds from the details of the
    call, with [JSON.stringify]. *)
Variable error_message : jsstring -> N -> N -> jsstring.

(** [submit_analyses_card_ajax], with the replies of the server to this
    call and to the calls that follow it; no reply, and the call stays
    open. *)
Fixpoint submit_analyses_card_ajax (replies : list reply)
  (call_count : option N) (p : page) : page :=
  let call_count := match call_count with
                    | Some c => c
                    | None => 0%N
                    end in
  let p := {| inserted := inserted p;
              indicator := Some (js "Please wait" ++ dots call_count);
              alert := alert p |} in
  match replies with
  | [] => p
  | Success status data :: replies' =>
      let p := if (0 =? call_count)%N || (200 =? status)%N
               then {| inserted := inserted p ++ [data];
                       indicator := indicator p;
                       alert := alert p |}
               else p in
      if (202 =? status)%N
      then submit_analyses_card_ajax replies' (Some (call_count + 1)%N) p
      else p
  | Failure error_thrown status :: _ =>
      if negb (jsstring_eqb (js "abort") error_thrown)
      then {| inserted := inserted p
                          ++ [error_message error_thrown status call_count];
              indicator := indicator p;
              alert := true |}
      else p
  end.

End Ajax.

End Card.

(** ** Aborting requests on leaving the page *)

Module Pool.

(** What a [beforeunload] handler returns: nothing, [null], or something
    else, such as the text of a prompt. *)
Inductive answer :=
  | Undefined
  | Null
  | Value (v : jsstring).

(** [r == undefined] *)
Definition no_prompt (r : answer) : bool :=
  match r with
  | Undefined | Null => true
  | Value _ => false
  end.

(** Requests are told apart by identity. *)
Definition request := N.

(** The handler of [ajaxSend]: [xhrPool.push(jqXHR)]. *)
Definition ajaxSend (xhrPool : list request) (jqXHR : request)
  : list request :=
  xhrPool ++ [jqXHR].

(** The handler of [ajaxComplete]:
    [$.grep(xhrPool, function(x){return x!=jqXHR})]. *)
Definition ajaxComplete (xhrPool : list request) (jqXHR : request)
  : list request :=
  filter (fun x => negb (x =? jqXHR)%N) xhrPool.

(** The requests on which [abort_all_ajax_calls] calls [abort()]. *)
Definition abort_all_ajax_calls (xhrPool : list request) : list request :=
  xhrPool.

(** The new [window.onbeforeunload]: what it returns and the requests it
    aborts. *)
Definition onbeforeunload (oldbeforeunload : option answer)
  (xhrPool : list request) : answer * list request :=
  let r := match oldbeforeunload with
           | Some r => r
           | None => Undefined
           end in
  (r, if no_prompt r then abort_all_ajax_calls xhrPool else []).

(** The events that jQuery reports while the page lives. *)
Inductive event :=
  | Send (jqXHR : request)
  | Complete (jqXHR : request).

Definition handle (xhrPool : list request) (e : event) : list request :=
  match e with
  | Send x => ajaxSend xhrPool x
  | Complete x => ajaxComplete xhrPool x
  end.

(** The pool after the events, from the empty pool. *)
Definition pool_after (events : list event) : list request :=
  fold_left handle events [].

End Pool.

(** ** The [bokeh-plot] component *)

Module Bokeh.

Section Component.

(** The values of the properties of a data source: their type, the values
    [undefined], [null], [true] and [false], ToBoolean, ToString, and the
    comparison of [Set.prototype.has] and [Array.prototype.includes].
    [inherited k] is the property [k] of [Object.prototype], which every
    data source inherits. *)
Variable value : Type.
Variable undefined null : value.
Variable of_bool : bool -> value.
Variable to_boolean : value -> bool.
Variable to_string : value -> jsstring.
Variable same_value_zero : value -> value -> bool.
Variable inherited : jsstring -> option value.

(** [k in o] *)
Definition has (k : jsstring) (o : dict value) : bool :=
  match lookup k o with
  | Some _ => true
  | None => match inherited k with Some _ => true | None => false end
  end.

(** [o[k]] *)
Definition get (k : jsstring) (o : dict value) : value :=
  match lookup k o with
  | Some v => v
  | None => match inherited k with Some v => v | None => undefined end
  end.

(** [a && b] *)
Definition and_value (a b : value) : value :=
  if to_boolean a then b else a.

(** [titles.has(title)] and [selection.includes(v)] *)
Definition includes (l : list value) (v : value) : bool :=
  existsb (fun x => same_value_zero x v) l.

(** An entry of the property [categories]. *)
Record category := {
  name : jsstring;
  title : value;
}.

(** An entry of [elements]. *)
Record element := {
  element_title : value;
  color : value;
}.

(** An entry of [categoryElements]. *)
Record category_elements := {
  category_name : jsstring;
  category_title : value;
  elements : list element;
  selection : list value;
}.

(** [titles], [elements] and [selection] while the data sources of one
    category are scanned. *)
Record scan := {
  titles : list value;
  scan_elements : list element;
  scan_selection : list value;
}.

(** The body of the loop over the data sources in [created]. *)
Definition scan_source (index : nat) (c : category) (s : scan)
  (dataSource : dict value) : result scan :=
  if negb (has (name c) dataSource) then
    Throw (Error (js "Key '" ++ name c ++ js "' not found in data source '"
                  ++ to_string (get (js "name") dataSource) ++ js "'."))
  else
    let title := get (name c) dataSource in
    if negb (includes (titles s) title) then
      let color := if (index =? 0)%nat then get (js "color") dataSource
                   else null in
      Ok {| titles := titles s ++ [title];
            scan_elements := scan_elements s
                             ++ [{| element_title := title; color := color |}];
            scan_selection :=
              if to_boolean (get (js "visible") dataSource)
              then scan_selection s
                   ++ [get (name c ++ js "_index") dataSource]
              else scan_selection s |}
    else Ok s.

(** The loop of [created] over the categories from [index] on:
    [categoryElements] afterwards, and the error if one was thrown. *)
Fixpoint created_from (index : nat) (categories : list category)
  (dataSources : list (dict value))
  (categoryElements : list category_elements)
  : list category_elements * option exn :=
  match categories with
  | [] => (categoryElements, None)
  | c :: categories' =>
      match for_each (scan_source index c)
              {| titles := []; scan_elements := []; scan_selection := [] |}
              dataSources with
      | Throw e => (categoryElements, Some e)
      | Ok s =>
          created_from (S index) categories' dataSources
            (categoryElements
             ++ [{| category_name := name c;
                    category_title := title c;
                    elements := scan_elements s;
                    selection := scan_selection s |}])
      end
  end.

Definition created (categories : list category)
  (dataSources : list (dict value))
  : list category_elements * option exn :=
  created_from 0 categories dataSources [].

(** A data source with the line and the symbols that [mounted] gives it:
    their [visible] and [alpha]. *)
Record glyphs := {
  source : dict value;
  line_visible : value;
  line_alpha : value;
  symbols_visible : value;
  symbols_alpha : value;
}.

(** [mounted]: the data sources, reversed in place, each with its line and
    symbols. *)
Definition mounted (dataSources : list (dict value)) : list glyphs :=
  map (fun dataSource =>
         {| source := dataSource;
            line_visible := get (js "visible") dataSource;
            line_alpha := get (js "alpha") dataSource;
            symbols_visible :=
              and_value (get (js "visible") dataSource)
                (get (js "show_symbols") dataSource);
            symbols_alpha := get (js "alpha") dataSource |})
      (rev dataSources).

(** [visible] after the loop of [refreshPlot] over the categories. *)
Definition selected (categoryElements : list category_elements)
  (dataSource : dict value) : bool :=
  fold_left
    (fun visible c =>
       visible
       && includes (selection c)
            (get (category_name c ++ js "_index") dataSource))
    categoryElements true.

(** The body of the loop of [refreshPlot] over the data sources. *)
Definition refresh (categoryElements : list category_elements)
  (opacity : value) (g : glyphs) : glyphs :=
  let visible := selected categoryElements (source g) in
  let topography :=
    to_boolean (get (js "is_topography_analysis") (source g)) in
  {| source := source g;
     line_visible := of_bool visible;
     line_alpha := if topography then opacity else line_alpha g;
     symbols_visible :=
       if visible then get (js "show_symbols") (source g)
       else of_bool false;
     symbols_alpha := if topography then opacity else symbols_alpha g |}.

Definition refreshPlot (categoryElements : list category_elements)
  (opacity : value) (dataSources : list glyphs) : list glyphs :=
  map (refresh categoryElements opacity) dataSources.

End Component.

End Bokeh.

(** ** The search results: [search_url], [reload] and [load_page] *)

Module Search.

(** The pairs of a [URLSearchParams]. *)
Definition params := list (jsstring * jsstring).

(** The conversion to a string of scalar values that [set] applies: a
    surrogate without its partner becomes U+FFFD. *)
Definition to_usv (s : jsstring) : jsstring :=
  concat (map (fun c =>
                 match c with
                 | [u] => if is_high_surrogate u || is_low_surrogate u
                          then [0xFFFD%N] else c
                 | _ => c
                 end) (code_points s)).

(** [URLSearchParams.prototype.get]: the first value under the name. *)
Fixpoint params_get (name : jsstring) (l : params) : option jsstring :=
  match l with
  | [] => None
  | (n, v) :: l' => if jsstring_eqb n name then Some v else params_get name l'
  end.

Definition params_delete (name : jsstring) (l : params) : params :=
  filter (fun nv => negb (jsstring_eqb (fst nv) name)) l.

(** [URLSearchParams.prototype.set]: the first pair under the name takes
    the value and the others are removed; with no such pair, one is
    appended. *)
Fixpoint params_set (name value : jsstring) (l : params) : params :=
  match l with
  | [] => [(name, value)]
  | (n, v) :: l' =>
      if jsstring_eqb n name then (n, value) :: params_delete name l'
      else (n, v) :: params_set name value l'
  end.

(** A URL: what stands before the query, the pairs of the query, and the
    fragment. *)
Record url := {
  location : jsstring;
  query : params;
  fragment : jsstring;
}.

(** The data of the component that the three methods use. *)
Record state := {
  current_page : number;
  page_size : number;
  search_term : jsstring;
  category : jsstring;
  sharing_status : jsstring;
  tree_mode : jsstring;
  page_range : option (list number);
  page_urls : option (list jsstring);
  is_loading : bool;
  tree_source : option url;
}.

Section Methods.

(** [new URL(this.base_urls[tree_mode])] and [new URL(s)], which throw on
    what is no URL, and the message of the [TypeError] that reading a
    property of [null] throws. *)
Variable base_url : jsstring -> result url.
Variable new_url : jsvalue -> result url.
Variable null_message : jsstring -> jsstring.

Definition set_param (name value : jsstring) (u : url) : url :=
  {| location := location u;
     query := params_set (to_usv name) (to_usv value) (query u);
     fragment := fragment u |}.

(** The computed property [search_url].  Setting [url.search] to the
    serialized parameters leaves the pairs as they are. *)
Definition search_url (st : state) : result url :=
  u <- base_url (tree_mode st) ;;
  Ok (set_param (js "tree_mode") (tree_mode st)
        (set_param (js "page") (number_to_string (current_page st))
           (set_param (js "page_size") (number_to_string (page_size st))
              (set_param (js "sharing_status") (sharing_status st)
                 (set_param (js "category") (category st)
                    (set_param (js "search") (search_term st) u)))))).

Definition with_page (st : state) (page : number) : state :=
  {| current_page := page;
     page_size := page_size st;
     search_term := search_term st;
     category := category st;
     sharing_status := sharing_status st;
     tree_mode := tree_mode st;
     page_range := page_range st;
     page_urls := page_urls st;
     is_loading := is_loading st;
     tree_source := tree_source st |}.

Definition with_source (st : state) (u : url) : state :=
  {| current_page := current_page st;
     page_size := page_size st;
     search_term := search_term st;
     category := category st;
     sharing_status := sharing_status st;
     tree_mode := tree_mode st;
     page_range := page_range st;
     page_urls := page_urls st;
     is_loading := true;
     tree_source := Some u |}.

(** [reload]: the state afterwards, and the error if [search_url]
    threw. *)
Definition reload (st : state) : state * option exn :=
  let st := with_page st (Int 1) in
  match search_url st with
  | Ok u => (with_source st u, None)
  | Throw e => (st, Some e)
  end.

(** [clear_search_term] *)
Definition clear_search_term (st : state) : state * option exn :=
  reload {| current_page := current_page st;
            page_size := page_size st;
            search_term := [];
            category := category st;
            sharing_status := sharing_status st;
            tree_mode := tree_mode st;
            page_range := page_range st;
            page_urls := page_urls st;
            is_loading := is_loading st;
            tree_source := tree_source st |}.

(** [page_no >= 1] and [page_no <= length] *)
Definition at_least_one (page_no : number) : bool :=
  match page_no with
  | Int z => (1 <=? z)%Z
  | Infinity negative => negb negative
  | NaN => false
  end.

Definition at_most (page_no : number) (length : nat) : bool :=
  match page_no with
  | Int z => (z <=? Z.of_nat length)%Z
  | Infinity negative => negative
  | NaN => false
  end.

(** [load_page(page_no)]: the state afterwards, and the error thrown, if
    any: by the URL constructor, or by reading [page_range] or [page_urls]
    while they are [null], as they are until the first response.  An
    invalid page number leaves the state as it is, with a warning in the
    console. *)
Definition load_page (page_no : jsstring) (st : state)
  : state * option exn :=
  let page_no := parseInt page_no in
  if at_least_one page_no then
    match page_range st with
    | None => (st, Some (TypeError (null_message (js "length"))))
    | Some range =>
        if at_most page_no (length range) then
          match page_no, page_urls st with
          | Int z, Some urls =>
              match new_url (nth_error urls (Z.to_nat (z - 1))) with
              | Ok u => (with_source st u, None)
              | Throw e => (st, Some e)
              end
          | Int z, None =>
              (st, Some (TypeError
                           (null_message (number_to_string (Int (z - 1))))))
          | _, _ => (st, None)
          end
        else (st, None)
    end
  else (st, None).

End Methods.

End Search.

(** ** Concrete responses, data sources and URLs *)

Module PollingSample.

Import Polling.

Definition response (task_state : string) (error : option jsvalue)
  (d : Descr.t Sample.num) : Response.t Sample.num :=
  {| Response.task_state := Some (js task_state);
     Response.result := {| TaskResult.error := error;
                           TaskResult.descr := d |} |}.

Definition success := response "su" None Sample.metre_descr.
Definition pending := response "pe" None Sample.unitless_descr.
Definition failure :=
  response "fa" (Some (Some (js "division by zero"))) Sample.unitless_descr.

Definition when_settled :=
  Polling.when_settled Sample.one Sample.nan Sample.mul Sample.pow
    Sample.convert.

End PollingSample.

Module CardSample.

(** An alert that shows the error thrown and the number of the call. *)
Definition error_message (error_thrown : jsstring) (status call_count : N)
  : jsstring :=
  js "<details>" ++ error_thrown ++ js " in call "
  ++ number_to_string (Int (Z.of_N call_count)) ++ js "</details>".

Definition submit := Card.submit_analyses_card_ajax error_message.

Definition empty_page : Card.page :=
  {| Card.inserted := []; Card.indicator := None; Card.alert := false |}.

End CardSample.

Module BokehSample.

(** Strings, booleans and integers, [undefined] and [null], and what a data
    source inherits: the methods of [Object.prototype] and the prototype
    itself. *)
Inductive value :=
  | Undefined
  | Null
  | Bool (b : bool)
  | Str (s : jsstring)
  | Num (z : Z)
  | Method (name : jsstring)
  | Prototype.

Definition to_boolean (v : value) : bool :=
  match v with
  | Undefined | Null => false
  | Bool b => b
  | Str s => negb (Nat.eqb (length s) 0)
  | Num z => negb (z =? 0)%Z
  | Method _ | Prototype => true
  end.

Definition to_string (v : value) : jsstring :=
  match v with
  | Undefined => js "undefined"
  | Null => js "null"
  | Bool true => js "true"
  | Bool false => js "false"
  | Str s => s
  | Num z => number_to_string (Int z)
  | Method name => js "function " ++ name ++ js "() { [native code] }"
  | Prototype => js "[object Object]"
  end.

Definition same_value_zero (a b : value) : bool :=
  match a, b with
  | Undefined, Undefined | Null, Null | Prototype, Prototype => true
  | Bool x, Bool y => Bool.eqb x y
  | Str s, Str t | Method s, Method t => jsstring_eqb s t
  | Num x, Num y => (x =? y)%Z
  | _, _ => false
  end.

Definition methods : list jsstring :=
  [js "constructor"; js "hasOwnProperty"; js "isPrototypeOf";
   js "propertyIsEnumerable"; js "toLocaleString"; js "toString";
   js "valueOf"; js "__defineGetter__"; js "__defineSetter__";
   js "__lookupGetter__"; js "__lookupSetter__"].

Definition inherited (k : jsstring) : option value :=
  if existsb (jsstring_eqb k) methods then Some (Method k)
  else if jsstring_eqb k (js "__proto__") then Some Prototype
  else None.

Definition created :=
  Bokeh.created Undefined Null to_boolean to_string same_value_zero
    inherited.
Definition mounted := Bokeh.mounted Undefined to_boolean inherited.
Definition refreshPlot :=
  Bokeh.refreshPlot Undefined Bool to_boolean same_value_zero inherited.
Definition selected := Bokeh.selected Undefined same_value_zero inherited.
Definition get := Bokeh.get Undefined inherited.
Definition has := Bokeh.has inherited.

Definition data_source (name subject series : string)
  (subject_index series_index : Z) (color : string) (visible : bool)
  : dict value :=
  [ (js "name", Str (js name));
    (js "subject_name", Str (js subject));
    (js "subject_name_index", Num subject_index);
    (js "series_name", Str (js series));
    (js "series_name_index", Num series_index);
    (js "color", Str (js color));
    (js "visible", Bool visible);
    (js "show_symbols", Bool true);
    (js "is_topography_analysis", Bool true);
    (js "alpha", Num 1) ].

Definition height : dict value :=
  data_source "height" "surface A" "height distribution" 0 0 "#1f77b4" true.
Definition slope : dict value :=
  data_source "slope" "surface A" "slope distribution" 0 1 "#ff7f0e" false.
Definition other_height : dict value :=
  data_source "other height" "surface B" "height distribution" 1 0
    "#2ca02c" true.

(** A data source without the key [series_name]. *)
Definition nameless : dict value :=
  [ (js "name", Str (js "nameless"));
    (js "subject_name", Str (js "surface C"));
    (js "subject_name_index", Num 2) ].

Definition categories : list (Bokeh.category value) :=
  [ {| Bokeh.name := js "subject_name";
       Bokeh.title := Str (js "Subjects") |};
    {| Bokeh.name := js "series_name";
       Bokeh.title := Str (js "Data series") |} ].

Definition data_sources : list (dict value) :=
  [height; slope; other_height].

Definition category_elements : list (Bokeh.category_elements value) :=
  fst (created categories data_sources).

End BokehSample.

Module SearchSample.

Import Search.

(** The base URLs of the two tree modes, one of them with a query. *)
Definition base_url (tree_mode : jsstring) : result url :=
  if jsstring_eqb tree_mode (js "surface list") then
    Ok {| location := js "https://example.org/manager/api/search/";
          query := [(js "page", js "7"); (js "format", js "json");
                    (js "page", js "8")];
          fragment := [] |}
  else if jsstring_eqb tree_mode (js "tag tree") then
    Ok {| location := js "https://example.org/manager/api/tag-tree/";
          query := [];
          fragment := [] |}
  else Throw (TypeError (js "Invalid URL")).

(** A URL constructor that knows absolute [https] URLs without a query
    and a fragment. *)
Definition new_url (s : jsvalue) : result url :=
  match s with
  | Some s =>
      if jsstring_eqb (firstn 8 s) (js "https://") then
        Ok {| location := s; query := []; fragment := [] |}
      else Throw (TypeError (js "Invalid URL"))
  | None => Throw (TypeError (js "Invalid URL"))
  end.

Definition null_message (property : jsstring) : jsstring :=
  js "Cannot read properties of null (reading '" ++ property ++ js "')".

Definition search_url := Search.search_url base_url.
Definition reload := Search.reload base_url.
Definition clear_search_term := Search.clear_search_term base_url.
Definition load_page := Search.load_page new_url null_message.

(** The state before the first response, and after a response with three
    pages. *)
Definition initial : state :=
  {| current_page := Int 4;
     page_size := Int 10;
     search_term := js "rough";
     category := js "all";
     sharing_status := js "all";
     tree_mode := js "surface list";
     page_range := None;
     page_urls := None;
     is_loading := false;
     tree_source := None |}.

Definition loaded : state :=
  {| current_page := Int 1;
     page_size := Int 10;
     search_term := js "rough";
     category := js "all";
     sharing_status := js "all";
     tree_mode := js "surface list";
     page_range := Some [Int 1; Int 2; Int 3];
     page_urls := Some [js "https://example.org/manager/api/search/1/";
                        js "https://example.org/manager/api/search/2/";
                        js "not a URL"];
     is_loading := false;
     tree_source := None |}.

End SearchSample.

(** ** The vocabulary of the properties *)

Definition is_digit (c : N) : bool := ((48 <=? c) && (c <=? 57))%N.

(** The characters [split_unit] hands to [parseInt]: digits, signs and the
    decimal point. *)
Definition exponent_char (c : N) : bool :=
  is_digit c || (c =? 43)%N || (c =? 45)%N || (c =? 46)%N.

(** After an optional sign the string starts with a decimal digit. *)
Definition leading_digit (t : jsstring) : bool :=
  match t with
  | c :: r =>
      if ((c =? 45) || (c =? 43))%N
      then match r with d :: _ => is_digit d | [] => false end
      else is_digit c
  | [] => false
  end.

(** The value of a string of decimal digits, read from the left. *)
Definition digits_value (ds : jsstring) (a : N) : N :=
  fold_left (fun a c => a * 10 + (c - 48))%N ds a.

(** The longest run of decimal digits that a string starts with. *)
Fixpoint digit_run (t : jsstring) : jsstring :=
  match t with
  | c :: r => if is_digit c then c :: digit_run r else []
  | [] => []
  end.

(** The integer that a text denotes which starts, after an optional sign,
    with a digit: its sign and its longest run of digits. *)
Definition signed_value (t : jsstring) : Z :=
  match t with
  | c :: r =>
      if (c =? 45)%N then - Z.of_N (digits_value (digit_run r) 0)
      else if (c =? 43)%N then Z.of_N (digits_value (digit_run r) 0)
      else Z.of_N (digits_value (digit_run t) 0)
  | [] => 0
  end.

(** A code unit that is a superscript glyph of [split_unit]. *)
Definition is_glyph (c : N) : bool :=
  match lookup [c] Unit.superscript_dict with
  | Some _ => true
  | None => false
  end.

(** The code units of a string that are superscript glyphs, translated,
    and those that are not. *)
Definition exponent_text (s : jsstring) : jsstring :=
  flat_map (fun c => match lookup [c] Unit.superscript_dict with
                     | Some d => d
                     | None => []
                     end) s.

Definition base_text (s : jsstring) : jsstring :=
  filter (fun c => match lookup [c] Unit.superscript_dict with
                   | Some _ => false
                   | None => true
                   end) s.

(** The characters the style loop knows: the line, a colour, a symbol. *)
Definition recognized (c : jsstring) : bool :=
  jsstring_eqb c (js "-")
  || match lookup c Plot.color_abbreviations with
     | Some _ => true
     | None => false
     end
  || match lookup c Plot.symbol_factories with
     | Some _ => true
     | None => false
     end.

Section Vocabulary.

Variable num : Type.
Variable mul : num -> num -> num.

(** The style string of a series as given: no character when the string
    is absent. *)
Definition given_style (item : Series.t num) : jsstring :=
  match Series.style item with
  | Some s => s
  | None => []
  end.

(** The parsed units of a descriptor. *)
Definition xunit_of (d : Descr.t num) : Unit.parsed :=
  Unit.split_unit (Descr.xunit d).
Definition yunit_of (d : Descr.t num) : Unit.parsed :=
  Unit.split_unit (Descr.yunit d).

(** The descriptor whose base unit of the x axis is not empty. *)
Definition has_unit (d : Descr.t num) : bool :=
  truthy (Unit.unit (xunit_of d)).

(** Every point of the plot is the point of the series at the same index,
    its coordinates multiplied by [sx] and [sy]. *)
Definition scaled_by (sx sy : num) (item : Series.t num) (p : plot num)
  : Prop :=
  length (dataset_of p) = length (Series.y item)
  /\ forall i xi yi,
       nth_error (Series.x item) i = Some xi ->
       nth_error (Series.y item) i = Some yi ->
       nth_error (dataset_of p) i
       = Some {| Point.x := mul sx xi; Point.y := mul sy yi |}.

(** Every point of the plot is the point of the series at the same
    index. *)
Definition unscaled (item : Series.t num) (p : plot num) : Prop :=
  length (dataset_of p) = length (Series.y item)
  /\ forall i xi yi,
       nth_error (Series.x item) i = Some xi ->
       nth_error (Series.y item) i = Some yi ->
       nth_error (dataset_of p) i = Some {| Point.x := xi; Point.y := yi |}.

End Vocabulary.

Arguments has_unit {num} d.

(** The first element of a list that [f] maps to a value. *)
Fixpoint find_map {A B} (f : A -> option B) (l : list A) : option B :=
  match l with
  | [] => None
  | a :: l' =>
      match f a with
      | Some b => Some b
      | None => find_map f l'
      end
  end.

(** What a style string asks for: a line if the line character occurs, the
    colour of its last colour code, the symbol of its last symbol code. *)
Definition style_line (cs : list jsstring) : bool :=
  existsb (fun c => jsstring_eqb c (js "-")) cs.
Definition style_color (cs : list jsstring) : option jsstring :=
  find_map (fun c => lookup c Plot.color_abbreviations) (rev cs).
Definition style_symbol (cs : list jsstring) : option symbol_factory :=
  find_map (fun c => lookup c Plot.symbol_factories) (rev cs).

(** What the style of a series asks to be drawn over a dataset: a line if
    it holds the line character, and then a symbol plot if it holds a
    symbol code, the last one deciding; both in the colour of the last
    colour code, or painted by the colour scale under the name of the
    series if there is none. *)
Definition drawn {num} (item : Series.t num) (data : list (Point.t num))
  : list (plot num) :=
  let cs := code_points (Plot.style_of item) in
  let paint := match style_color cs with
               | Some c => Constant c
               | None => Scaled (Series.name item)
               end in
  (if style_line cs then [Line data paint] else [])
  ++ match style_symbol cs with
     | Some f => [Scatter data f paint paint]
     | None => []
     end.

(** The series of all descriptors, in the order they are drawn. *)
Definition all_series {num} (ds : list (Descr.t num)) : list (Series.t num) :=
  flat_map (@Descr.series num) ds.

(** The requests that were sent, in the order of the events. *)
Definition sent (events : list Pool.event) : list Pool.request :=
  flat_map (fun e => match e with
                     | Pool.Send x => [x]
                     | Pool.Complete _ => []
                     end) events.

(** The fields that the first descriptor settles are kept by the loop. *)
Definition settled {num} (v v' : Locals.t num) : Prop :=
  (forall s, Locals.x_scale v = Some s -> Locals.x_scale v' = Some s)
  /\ (forall s, Locals.y_scale v = Some s -> Locals.y_scale v' = Some s)
  /\ (forall l, Locals.x_axis_label v = Some l ->
        Locals.x_axis_label v' = Some l)
  /\ (forall l, Locals.y_axis_label v = Some l ->
        Locals.y_axis_label v' = Some l)
  /\ (forall n, Locals.color_scale v = Some n ->
        Locals.color_scale v' = Some n).


Section BokehVocabulary.

Import Bokeh.

Variable value : Type.
Variable undefined null : value.
Variable to_boolean : value -> bool.
Variable same_value_zero : value -> value -> bool.
Variable inherited : jsstring -> option value.

Local Abbreviation get := (Bokeh.get undefined inherited).
Local Abbreviation includes := (Bokeh.includes same_value_zero).

(** The invariant of the scan of one category over the data sources
    [seen]. *)
Definition scanned (index : nat) (c : Bokeh.category value)
  (seen : list (dict value)) (s : Bokeh.scan value) : Prop :=
  titles s = map (@element_title value) (scan_elements s)
  /\ ForallOrdPairs (fun a b => same_value_zero a b = false) (titles s)
  /\ (forall d, In d seen ->
        In (get (name c) d) (titles s)
        \/ includes (titles s) (get (name c) d) = true)
  /\ (forall t, In t (titles s) ->
        exists d, In d seen /\ t = get (name c) d)
  /\ (length (scan_elements s) <= length seen)%nat
  /\ (length (scan_selection s) <= length (scan_elements s))%nat
  /\ (forall el, In el (scan_elements s) ->
        (index <> 0%nat -> color el = null)
        /\ (index = 0%nat ->
            exists d, In d seen
                      /\ element_title el = get (name c) d
                      /\ color el = get (js "color") d))
  /\ (forall pre d post,
        seen = pre ++ d :: post ->
        to_boolean (get (js "visible") d) = true ->
        includes (map (get (name c)) pre) (get (name c) d) = false ->
        In (get (name c ++ js "_index") d) (scan_selection s))
  /\ (forall t, includes (titles s) t = true ->
        includes (map (get (name c)) seen) t = true).

End BokehVocabulary.

(** How many pairs of a query carry the name. *)
Definition occurrences (name : jsstring) (l : Search.params) : nat :=
  length (filter (fun nv => jsstring_eqb (fst nv) name) l).

(** The names that [search_url] sets, and the pairs of a query under other
    names. *)
Definition search_names : list jsstring :=
  [js "search"; js "category"; js "sharing_status"; js "page_size";
   js "page"; js "tree_mode"].

Definition other_pairs (l : Search.params) : Search.params :=
  filter (fun nv => negb (existsb (jsstring_eqb (fst nv)) search_names)) l.

(** The numbers that [String] prints digit by digit. *)
Definition printable (n : number) : Prop :=
  match n with
  | Int z => safe_integer z
  | _ => True
  end.

(** * Properties *)

(** ** Strings and dictionaries *)

Lemma jsstring_eqb_eq (a b : jsstring) : jsstring_eqb a b = true <-> a = b.
Proof.
  revert b; induction a as [|c a IH]; intros [|d b]; simpl;
    try (split; [discriminate | discriminate]); try tauto.
  rewrite andb_true_iff, N.eqb_eq, IH.
  split; [intros [-> ->]; reflexivity | intros H; inversion H; auto].
Qed.

Lemma jsstring_eqb_refl (a : jsstring) : jsstring_eqb a a = true.
Proof. apply jsstring_eqb_eq; reflexivity. Qed.

Lemma jsstring_eqb_neq (a b : jsstring) : jsstring_eqb a b = false <-> a <> b.
Proof.
  rewrite <- jsstring_eqb_eq. destruct (jsstring_eqb a b); split; congruence.
Qed.

Lemma lookup_cons {V} (k k' : jsstring) (v : V) (d : dict V) :
  lookup k ((k', v) :: d) = if jsstring_eqb k k' then Some v else lookup k d.
Proof. reflexivity. Qed.

Lemma lookup_nil {V} (k : jsstring) : lookup k ([] : dict V) = None.
Proof. reflexivity. Qed.

(** Unfold a lookup in a dictionary that is written out. *)
Ltac lookup_unfold :=
  repeat rewrite lookup_cons; rewrite ?lookup_nil; cbn [jsstring_eqb].

Lemma concat_code_points (s : jsstring) : concat (code_points s) = s.
Proof.
  assert (H : forall n s, (length s <= n)%nat -> concat (code_points s) = s).
  { induction n as [|n IH]; intros [|h [|l t]] Hlen; simpl in *;
      try reflexivity; try lia.
    destruct (is_high_surrogate h && is_low_surrogate l); simpl.
    - rewrite IH by lia; reflexivity.
    - f_equal. apply (IH (l :: t)). simpl; lia. }
  apply (H (length s)); lia.
Qed.

(** A code point is one code unit or a surrogate pair. *)
Lemma code_points_shape (s : jsstring) :
  Forall (fun c => (exists u, c = [u]) \/
                   (exists h l, c = [h; l] /\ is_high_surrogate h = true
                                /\ is_low_surrogate l = true))
         (code_points s).
Proof.
  assert (H : forall n s, (length s <= n)%nat ->
     Forall (fun c => (exists u, c = [u]) \/
                   (exists h l, c = [h; l] /\ is_high_surrogate h = true
                                /\ is_low_surrogate l = true))
         (code_points s)).
  { induction n as [|n IH]; intros [|h [|l t]] Hlen; simpl in *;
      try constructor; try lia; eauto.
    destruct (is_high_surrogate h && is_low_surrogate l) eqn:E.
    - apply andb_true_iff in E. constructor.
      + right; exists h, l; tauto.
      + apply IH; lia.
    - constructor; [eauto|]. apply (IH (l :: t)). simpl; lia. }
  apply (H (length s)); lia.
Qed.

(** ** parseInt *)

Lemma exponent_char_cases (c : N) :
  exponent_char c = true ->
  In c [48; 49; 50; 51; 52; 53; 54; 55; 56; 57; 43; 45; 46]%N.
Proof.
  unfold exponent_char, is_digit.
  rewrite !orb_true_iff, andb_true_iff, !N.eqb_eq, !N.leb_le.
  intros H. simpl.
  assert (c = 48 \/ c = 49 \/ c = 50 \/ c = 51 \/ c = 52 \/ c = 53 \/ c = 54
          \/ c = 55 \/ c = 56 \/ c = 57 \/ c = 43 \/ c = 45 \/ c = 46)%N
    by lia.
  intuition.
Qed.

Lemma exponent_char_not_space (c : N) :
  exponent_char c = true -> is_white_space c = false.
Proof.
  intros H; apply exponent_char_cases in H; simpl in H.
  repeat (destruct H as [<-|H]; [reflexivity|]). contradiction.
Qed.

Lemma digit_value_decimal (c : N) :
  digit_value 10 c = if is_digit c then Some (c - 48)%N else None.
Proof.
  unfold digit_value, is_digit.
  destruct ((48 <=? c) && (c <=? 57))%N eqn:D.
  - apply andb_true_iff in D; rewrite !N.leb_le in D.
    destruct (N.ltb_spec (c - 48) 10); [reflexivity | lia].
  - destruct ((97 <=? c) && (c <=? 122))%N eqn:L.
    + apply andb_true_iff in L; rewrite !N.leb_le in L.
      destruct (N.ltb_spec (c - 87) 10); [lia | reflexivity].
    + destruct ((65 <=? c) && (c <=? 90))%N eqn:U; [|reflexivity].
      apply andb_true_iff in U; rewrite !N.leb_le in U.
      destruct (N.ltb_spec (c - 55) 10); [lia | reflexivity].
Qed.

Lemma scan_digits_some (radix : N) (s : jsstring) (a : N) :
  exists v, scan_digits radix s (Some a) = Some v.
Proof.
  revert a; induction s as [|c s IH]; intros a; simpl; eauto.
  destruct (digit_value radix c); eauto.
Qed.

Lemma scan_digits_none (s : jsstring) :
  scan_digits 10 s None = None <->
  match s with c :: _ => is_digit c = false | [] => True end.
Proof.
  destruct s as [|c s]; simpl; [tauto|].
  rewrite digit_value_decimal.
  destruct (is_digit c).
  - destruct (scan_digits_some 10 s (c - 48)) as [v ->].
    split; discriminate.
  - tauto.
Qed.

Lemma round_double_not_NaN (z : Z) : round_double z <> NaN.
Proof.
  unfold round_double.
  destruct (Z.abs z <? 2 ^ 53)%Z; [discriminate|].
  match goal with |- context [if ?b then Infinity _ else _] => destruct b end;
    discriminate.
Qed.

Lemma round_double_safe (z : Z) : safe_integer z -> round_double z = Int z.
Proof.
  unfold safe_integer, max_safe_integer, round_double. intros H.
  destruct (Z.ltb_spec (Z.abs z) (2 ^ 53)); [reflexivity | lia].
Qed.

(** [parseInt] on a string of exponent characters whose first character,
    if any, is given: no white space to skip and no [0x] prefix. *)
Lemma parseInt_exponent_chars (t : jsstring) :
  Forall (fun c => exponent_char c = true) t ->
  parseInt t =
  let '(neg, s2) :=
    match t with
    | c :: r =>
        if (c =? 45)%N then (true, r)
        else if (c =? 43)%N then (false, r)
        else (false, t)
    | [] => (false, t)
    end in
  match scan_digits 10 s2 None with
  | None => NaN
  | Some v => round_double (if neg then - Z.of_N v else Z.of_N v)
  end.
Proof.
  intros Ht. unfold parseInt.
  assert (Htrim : trim_start t = t).
  { destruct t as [|c r]; [reflexivity|]. simpl.
    inversion Ht; subst. now rewrite exponent_char_not_space. }
  rewrite Htrim.
  assert (Hhex : forall c1, exponent_char c1 = true ->
                   ((c1 =? 120) || (c1 =? 88))%N = false).
  { intros c1 H1. apply exponent_char_cases in H1; simpl in H1.
    repeat (destruct H1 as [<-|H1]; [reflexivity|]). contradiction. }
  destruct t as [|c r]; [reflexivity|].
  inversion Ht as [|? ? Hc Hr]; subst.
  assert (Hr' : forall neg : bool,
    (let '(radix, s3) :=
       match r with
       | c0 :: c1 :: r0 =>
           if ((c0 =? 48) && ((c1 =? 120) || (c1 =? 88)))%N
           then (16%N, r0) else (10%N, r)
       | _ => (10%N, r)
       end in
     match scan_digits radix s3 None with
     | None => NaN
     | Some v => round_double (if neg then - Z.of_N v else Z.of_N v)
     end) =
    match scan_digits 10 r None with
    | None => NaN
    | Some v => round_double (if neg then - Z.of_N v else Z.of_N v)
    end).
  { intros neg. destruct r as [|c0 [|c1 r0]]; try reflexivity.
    inversion Hr as [|? ? _ Hr0]; subst. inversion Hr0; subst.
    now rewrite Hhex, andb_false_r. }
  destruct (c =? 45)%N; [exact (Hr' true)|].
  destruct (c =? 43)%N; [exact (Hr' false)|].
  cbv beta iota zeta.
  destruct r as [|c1 r0]; [reflexivity|].
  inversion Hr; subst. now rewrite Hhex, andb_false_r.
Qed.

Lemma parseInt_NaN_iff (t : jsstring) :
  Forall (fun c => exponent_char c = true) t ->
  parseInt t = NaN <-> leading_digit t = false.
Proof.
  intros Ht. rewrite (parseInt_exponent_chars Ht). unfold leading_digit.
  assert (Hscan : forall (neg : bool) s2,
            match scan_digits 10 s2 None with
            | None => NaN
            | Some v => round_double (if neg then - Z.of_N v else Z.of_N v)
            end = NaN <->
            match s2 with c :: _ => is_digit c | [] => false end = false).
  { intros neg s2. pose proof (scan_digits_none s2) as Hn.
    destruct (scan_digits 10 s2 None) as [v|].
    - split.
      + intros H; now apply round_double_not_NaN in H.
      + intros H. destruct s2 as [|c s2]; [|apply Hn in H; discriminate].
        destruct Hn as [_ Hn]. specialize (Hn I). discriminate.
    - split; [|reflexivity]. intros _.
      destruct s2; [reflexivity|]. now apply Hn. }
  destruct t as [|c r].
  - simpl. tauto.
  - destruct (N.eqb_spec c 45) as [->|H45]; [exact (Hscan true r)|].
    destruct (N.eqb_spec c 43) as [->|H43]; [exact (Hscan false r)|].
    exact (Hscan false (c :: r)).
Qed.

(** The digits that [parseInt] reads are the longest run of digits. *)
Lemma scan_digit_run (t : jsstring) (a : N) :
  scan_digits 10 t (Some a) = Some (digits_value (digit_run t) a).
Proof.
  revert a; induction t as [|c t IH]; intros a; [reflexivity|].
  cbn [scan_digits digit_run]. rewrite digit_value_decimal.
  destruct (is_digit c); [|reflexivity].
  rewrite IH. reflexivity.
Qed.

Lemma scan_digit_run_first (t : jsstring) :
  match t with c :: _ => is_digit c | [] => false end = true ->
  scan_digits 10 t None = Some (digits_value (digit_run t) 0).
Proof.
  destruct t as [|c t]; [discriminate|]. intros Hc.
  cbn [scan_digits digit_run]. rewrite digit_value_decimal, Hc.
  rewrite scan_digit_run. reflexivity.
Qed.

(** What [parseInt] reads in a string of exponent characters that starts,
    after an optional sign, with a digit. *)
Lemma parseInt_signed_value (t : jsstring) :
  Forall (fun c => exponent_char c = true) t ->
  leading_digit t = true ->
  parseInt t = round_double (signed_value t).
Proof.
  intros Ht. rewrite (parseInt_exponent_chars Ht).
  unfold leading_digit, signed_value.
  destruct t as [|c r]; [discriminate|].
  destruct (N.eqb_spec c 45) as [->|H45].
  - cbn [orb]. intros H. now rewrite (scan_digit_run_first _ H).
  - destruct (N.eqb_spec c 43) as [->|H43].
    + cbn [orb]. intros H. now rewrite (scan_digit_run_first _ H).
    + cbn [orb]. intros H.
      now rewrite (scan_digit_run_first (c :: r) H).
Qed.

(** Rounding gives an infinity only from [2 ^ 1023] on, with the sign of
    the integer. *)
Lemma round_double_infinity (z : Z) (negative : bool) :
  round_double z = Infinity negative ->
  (2 ^ 1023 <= Z.abs z)%Z /\ negative = (z <? 0)%Z.
Proof.
  unfold round_double.
  destruct (Z.ltb_spec (Z.abs z) (2 ^ 53)) as [|Hbig]; [discriminate|].
  set (a := Z.abs z) in *.
  set (k := (Z.log2 a - 52)%Z).
  set (q := (a / 2 ^ k)%Z).
  set (q' := if (a mod 2 ^ k <? 2 ^ (k - 1))%Z then q
             else if (2 ^ (k - 1) <? a mod 2 ^ k)%Z then (q + 1)%Z
                  else if Z.even q then q else (q + 1)%Z).
  destruct (Z.leb_spec (2 ^ 1024) (q' * 2 ^ k)) as [Hv|]; [|discriminate].
  intros [= <-]. split; [|reflexivity].
  assert (Ha : (0 < a)%Z).
  { assert (0 < 2 ^ 53)%Z by (apply Z.pow_pos_nonneg; lia). lia. }
  assert (Hlog : (53 <= Z.log2 a)%Z).
  { apply Z.log2_le_pow2; [exact Ha | exact Hbig]. }
  assert (Hk : (0 < k)%Z) by (unfold k; lia).
  destruct (Z.log2_spec a Ha) as [Hlo Hhi].
  assert (Hpk : (0 < 2 ^ k)%Z) by (apply Z.pow_pos_nonneg; lia).
  assert (Hq : (q < 2 ^ 53)%Z).
  { unfold q. apply Z.div_lt_upper_bound; [exact Hpk|].
    rewrite <- Z.pow_add_r by lia.
    replace (k + 53)%Z with (Z.succ (Z.log2 a)) by (unfold k; lia).
    exact Hhi. }
  assert (Hq' : (q' <= 2 ^ 53)%Z).
  { unfold q'. repeat match goal with
                      | |- context [if ?b then _ else _] => destruct b
                      end; lia. }
  assert (Hle : (q' * 2 ^ k <= 2 ^ 53 * 2 ^ k)%Z)
    by (apply Z.mul_le_mono_nonneg_r; lia).
  rewrite <- Z.pow_add_r in Hle by lia.
  replace (53 + k)%Z with (Z.succ (Z.log2 a)) in Hle by (unfold k; lia).
  destruct (Z.lt_ge_cases a (2 ^ 1023)) as [Hsmall|]; [|assumption].
  exfalso.
  assert (Hl : (Z.log2 a < 1023)%Z) by (apply Z.log2_lt_pow2; lia).
  assert (Hp : (2 ^ Z.succ (Z.log2 a) <= 2 ^ 1023)%Z)
    by (apply Z.pow_le_mono_r; lia).
  assert (Hlt : (2 ^ 1023 < 2 ^ 1024)%Z)
    by (apply Z.pow_lt_mono_r; lia).
  lia.
Qed.

(** ** Decimal numerals *)

Lemma digits_of_acc (fuel : nat) (n : N) (acc : jsstring) :
  digits_of fuel n acc = digits_of fuel n [] ++ acc.
Proof.
  revert n acc; induction fuel as [|fuel IH]; intros n acc; simpl;
    [reflexivity|].
  destruct (n / 10 =? 0)%N; [reflexivity|].
  rewrite IH, (IH _ [_]), <- app_assoc. reflexivity.
Qed.

Lemma digits_of_digits (fuel : nat) (n : N) (acc : jsstring) :
  Forall (fun c => is_digit c = true) acc ->
  Forall (fun c => is_digit c = true) (digits_of fuel n acc).
Proof.
  revert n acc; induction fuel as [|fuel IH]; intros n acc Hacc; simpl;
    [assumption|].
  assert (Hd : is_digit (digit_char (n mod 10)) = true).
  { unfold is_digit, digit_char.
    pose proof (N.mod_lt n 10 ltac:(discriminate)) as Hmod.
    generalize dependent (n mod 10)%N. intros d Hmod.
    apply andb_true_iff; split; apply N.leb_le; lia. }
  destruct (n / 10 =? 0)%N; [now constructor|].
  apply IH. now constructor.
Qed.

Lemma digit_char_value (d : N) : (digit_char d - 48 = d)%N.
Proof. unfold digit_char. lia. Qed.

Lemma digits_of_value (fuel : nat) (n : N) :
  (n < 2 ^ N.of_nat fuel)%N -> digits_value (digits_of fuel n []) 0 = n.
Proof.
  revert n; induction fuel as [|fuel IH]; intros n Hn.
  - simpl in *. lia.
  - cbn [digits_of].
    pose proof (N.mod_lt n 10 ltac:(discriminate)) as Hmod.
    pose proof (N.div_mod n 10 ltac:(discriminate)) as Hdiv.
    destruct (N.eqb_spec (n / 10) 0) as [E|E].
    + clear Hn IH. unfold digits_value; cbn [fold_left].
      rewrite digit_char_value. lia.
    + rewrite digits_of_acc. unfold digits_value.
      rewrite fold_left_app. cbn [fold_left].
      fold (digits_value (digits_of fuel (n / 10) []) 0).
      rewrite digit_char_value, IH; [clear Hn IH; lia|].
      rewrite Nnat.Nat2N.inj_succ, N.pow_succ_r' in Hn.
      apply N.Div0.div_lt_upper_bound.
      generalize dependent (2 ^ N.of_nat fuel)%N. clear. intros; lia.
Qed.

Lemma decimal_digits (n : N) : Forall (fun c => is_digit c = true) (decimal n).
Proof. apply digits_of_digits. constructor. Qed.

Lemma decimal_value (n : N) : digits_value (decimal n) 0 = n.
Proof.
  apply digits_of_value.
  rewrite Nnat.Nat2N.inj_succ, Nnat.N2Nat.id.
  destruct n as [|p]; [reflexivity|].
  apply N.log2_spec. reflexivity.
Qed.

Lemma decimal_not_empty (n : N) : decimal n <> [].
Proof.
  unfold decimal. cbn [digits_of].
  destruct (n / 10 =? 0)%N; [discriminate|].
  rewrite digits_of_acc. intros H. apply app_eq_nil in H.
  destruct H; discriminate.
Qed.

Lemma scan_digits_value (ds : jsstring) (a : N) :
  Forall (fun c => is_digit c = true) ds ->
  scan_digits 10 ds (Some a) = Some (digits_value ds a).
Proof.
  intros Hds; revert a; induction Hds as [|c ds Hc _ IH]; intros a;
    [reflexivity|].
  cbn [scan_digits]. rewrite digit_value_decimal, Hc, IH. reflexivity.
Qed.

Lemma scan_decimal (n : N) : scan_digits 10 (decimal n) None = Some n.
Proof.
  pose proof (decimal_digits n) as Hd.
  pose proof (decimal_value n) as Hv.
  pose proof (@decimal_not_empty n) as He.
  destruct (decimal n) as [|c ds]; [now elim He|].
  inversion Hd as [|? ? Hc Hds]; subst.
  cbn [scan_digits]. rewrite digit_value_decimal, Hc.
  rewrite (scan_digits_value _ Hds). reflexivity.
Qed.

Lemma is_digit_exponent_char (c : N) :
  is_digit c = true -> exponent_char c = true.
Proof. unfold exponent_char. now intros ->. Qed.

Lemma number_to_string_chars (z : Z) :
  Forall (fun c => exponent_char c = true) (number_to_string (Int z)).
Proof.
  assert (H : Forall (fun c => exponent_char c = true)
                (decimal (Z.abs_N z))).
  { eapply Forall_impl; [|apply decimal_digits].
    apply is_digit_exponent_char. }
  unfold number_to_string. destruct (z <? 0)%Z; [|exact H].
  constructor; [reflexivity | exact H].
Qed.

(** [parseInt] reads back what [String] prints for a safe integer. *)
Lemma parseInt_number_to_string (z : Z) :
  safe_integer z -> parseInt (number_to_string (Int z)) = Int z.
Proof.
  intros Hz. rewrite (parseInt_exponent_chars (number_to_string_chars z)).
  unfold number_to_string.
  destruct (Z.ltb_spec z 0) as [Hneg|Hpos].
  - change (js "-" ++ decimal (Z.abs_N z)) with (45%N :: decimal (Z.abs_N z)).
    cbv beta iota zeta. rewrite N.eqb_refl, scan_decimal.
    rewrite N2Z.inj_abs_N, <- round_double_safe by assumption.
    f_equal. lia.
  - pose proof (decimal_digits (Z.abs_N z)) as Hd.
    pose proof (scan_decimal (Z.abs_N z)) as Hs.
    destruct (decimal (Z.abs_N z)) as [|c ds] eqn:D.
    + discriminate Hs.
    + inversion Hd as [|? ? Hc _]; subst.
      unfold is_digit in Hc. apply andb_true_iff in Hc.
      rewrite !N.leb_le in Hc.
      destruct (N.eqb_spec c 45); [lia|].
      destruct (N.eqb_spec c 43); [lia|].
      rewrite Hs, N2Z.inj_abs_N, <- round_double_safe by assumption.
      f_equal. lia.
Qed.

(** ** The unit parser *)

Module UnitFacts.

Import Unit.

Lemma lookup_pair (h l : N) : lookup [h; l] superscript_dict = None.
Proof.
  unfold superscript_dict; lookup_unfold.
  now rewrite !andb_false_r.
Qed.

Lemma lookup_surrogate (c : N) :
  is_high_surrogate c = true \/ is_low_surrogate c = true ->
  lookup [c] superscript_dict = None.
Proof.
  intros H. unfold superscript_dict; lookup_unfold.
  repeat match goal with
  | |- context [(c =? ?k)%N] =>
      destruct (N.eqb_spec c k) as [->|_];
      [exfalso; destruct H as [H|H]; vm_compute in H; discriminate | simpl]
  end.
  reflexivity.
Qed.

(** Scanning by code point and scanning by code unit agree: no key of
    the dictionary is a surrogate. *)
Lemma split_loop_chars (s u e : jsstring) :
  split_loop (code_points s) u e = split_loop (split_chars s) u e.
Proof.
  assert (H : forall n s u e, (length s <= n)%nat ->
            split_loop (code_points s) u e = split_loop (split_chars s) u e).
  { clear. induction n as [|n IH]; intros [|h [|l t]] u e Hlen;
      cbn [code_points length] in *; try reflexivity; try lia.
    destruct (is_high_surrogate h && is_low_surrogate l) eqn:E.
    - apply andb_true_iff in E; destruct E as [Hh Hl].
      cbn [split_loop]. rewrite lookup_pair.
      rewrite IH by lia. cbn [split_chars map split_loop].
      rewrite (lookup_surrogate h) by auto.
      rewrite (lookup_surrogate l) by auto.
      now rewrite <- app_assoc.
    - cbn [split_chars map split_loop].
      destruct (lookup [h] superscript_dict);
        apply (IH (l :: t)); simpl; lia. }
  apply (H (length s)); lia.
Qed.

Lemma split_loop_spec (s u e : jsstring) :
  split_loop (split_chars s) u e = (u ++ base_text s, e ++ exponent_text s).
Proof.
  revert u e; induction s as [|c s IH]; intros u e; simpl.
  - now rewrite !app_nil_r.
  - destruct (lookup [c] superscript_dict) as [d|]; rewrite IH.
    + now rewrite <- app_assoc.
    + now rewrite <- app_assoc.
Qed.

(** [split_unit] on a non-empty string. *)
Lemma split_unit_text (s : jsstring) :
  s <> [] ->
  split_unit (Some s) =
  {| unit := Some (base_text s);
     exponent := if (0 <? length (exponent_text s))%nat
                 then parseInt (exponent_text s) else Int 1 |}.
Proof.
  intros Hs. destruct s as [|c s]; [congruence|].
  unfold split_unit.
  rewrite split_loop_chars, split_loop_spec. reflexivity.
Qed.

(** What the dictionary of [split_unit] holds: each glyph maps to one
    exponent character, which [unicode_superscript] maps back. *)
Lemma superscript_value (c : N) (d : jsstring) :
  lookup [c] superscript_dict = Some d ->
  exists a, d = [a] /\ exponent_char a = true
            /\ lookup [a] unicode_dict = Some [c].
Proof.
  unfold superscript_dict; lookup_unfold; rewrite ?andb_true_r.
  repeat match goal with
  | |- context [(c =? ?k)%N] =>
      destruct (N.eqb_spec c k) as [->|_];
      [intros [= <-]; eexists; repeat split; reflexivity|]
  end.
  discriminate.
Qed.

Lemma exponent_text_chars (s : jsstring) :
  Forall (fun c => exponent_char c = true) (exponent_text s).
Proof.
  induction s as [|c s IH]; simpl; [constructor|].
  destruct (lookup [c] superscript_dict) as [d|] eqn:E; [|exact IH].
  apply superscript_value in E. destruct E as (a & -> & Ha & _).
  now constructor.
Qed.

(** C8, as the specification states it, fails: a stray superscript minus
    after the unit makes the exponent NaN, which is no integer. *)
Example split_unit_stray_sign :
  split_unit (Some (js "m" ++ [0x207B%N]))
    = {| unit := Some (js "m"); exponent := NaN |}
  /\ ~ (exists z, exponent (split_unit (Some (js "m" ++ [0x207B%N]))) = Int z).
Proof.
  split; [reflexivity|]. intros [z H]. vm_compute in H. discriminate.
Qed.

(** C8, amended.  The unit field of the result of [split_unit] is undefined
    exactly when the input is empty or absent, and the exponent is then 1.
    The exponent is 1 as well when the input holds no superscript glyph.
    Otherwise it is what [parseInt] reads in the translated glyphs: NaN when
    they do not start, after an optional sign, with a digit, and else an
    integer or, past the range of doubles, an infinity.  The integer is
    the one that the sign and the digits up to the first other character
    spell, when that is a safe integer; and an infinity is read only from
    digits that spell [2 ^ 1023] or more, with their sign. *)
Theorem split_unit_invariant (unit_str : jsvalue) :
  (unit (split_unit unit_str) = None <-> truthy unit_str = false)
  /\ (truthy unit_str = false -> exponent (split_unit unit_str) = Int 1)
  /\ (forall s, unit_str = Some s -> exponent_text s = [] ->
        exponent (split_unit unit_str) = Int 1)
  /\ (forall s, unit_str = Some s -> exponent_text s <> [] ->
        (exponent (split_unit unit_str) = NaN
         <-> leading_digit (exponent_text s) = false))
  /\ (forall s, unit_str = Some s -> exponent_text s <> [] ->
        leading_digit (exponent_text s) = true ->
        (exists z, exponent (split_unit unit_str) = Int z)
        \/ (exists negative,
              exponent (split_unit unit_str) = Infinity negative))
  /\ (forall s, unit_str = Some s -> exponent_text s <> [] ->
        exponent (split_unit unit_str) = parseInt (exponent_text s))
  /\ (forall s, unit_str = Some s ->
        leading_digit (exponent_text s) = true ->
        (safe_integer (signed_value (exponent_text s)) ->
         exponent (split_unit unit_str)
         = Int (signed_value (exponent_text s)))
        /\ (forall negative,
              exponent (split_unit unit_str) = Infinity negative ->
              (2 ^ 1023 <= Z.abs (signed_value (exponent_text s)))%Z
              /\ negative = (signed_value (exponent_text s) <? 0)%Z)).
Proof.
  assert (Hparse : forall s, exponent_text s <> [] ->
            (if (0 <? length (exponent_text s))%nat
             then parseInt (exponent_text s) else Int 1)
            = parseInt (exponent_text s)).
  { intros s E. destruct (exponent_text s); [now elim E | reflexivity]. }
  assert (Hlead : forall s, leading_digit (exponent_text s) = true ->
            exponent_text s <> []).
  { intros s L E. rewrite E in L. discriminate. }
  destruct unit_str as [[|c s]|].
  - refine (conj _ (conj _ (conj _ (conj _ (conj _ (conj _ _)))))); cbn.
    + split; reflexivity.
    + reflexivity.
    + reflexivity.
    + intros s [= <-] E; now elim E.
    + intros s [= <-] E; now elim E.
    + intros s [= <-] E; now elim E.
    + intros s [= <-] L; discriminate L.
  - assert (Hs : c :: s <> []) by discriminate.
    rewrite (split_unit_text Hs). cbn [unit exponent truthy].
    refine (conj _ (conj _ (conj _ (conj _ (conj _ (conj _ _)))))).
    + split; discriminate.
    + discriminate.
    + intros s' [= <-] E. now rewrite E.
    + intros s' [= <-] E. rewrite (Hparse _ E).
      apply parseInt_NaN_iff, exponent_text_chars.
    + intros s' [= <-] E L. rewrite (Hparse _ E).
      destruct (parseInt (exponent_text (c :: s))) as [|b|z] eqn:P.
      * apply parseInt_NaN_iff in P; [congruence | apply exponent_text_chars].
      * right; exists b; reflexivity.
      * left; exists z; reflexivity.
    + intros s' [= <-] E. exact (Hparse _ E).
    + intros s' [= <-] L. rewrite (Hparse _ (Hlead _ L)).
      rewrite (parseInt_signed_value (exponent_text_chars (c :: s)) L).
      split.
      * apply round_double_safe.
      * intros negative. apply round_double_infinity.
  - refine (conj _ (conj _ (conj _ (conj _ (conj _ (conj _ _)))))); cbn;
      try reflexivity; try discriminate.
    split; reflexivity.
Qed.

(** A stray sign, a cube, a unit without exponent, and no unit at all. *)
Lemma split_unit_invariant_witness :
  exponent (split_unit (Some (js "m" ++ [0x207B%N]))) = NaN
  /\ exponent (split_unit (Some (js "m" ++ [0xB3%N]))) = Int 3
  /\ exponent (split_unit (Some (js "m"))) = Int 1
  /\ exponent (split_unit None) = Int 1.
Proof.
  pose proof (split_unit_invariant (Some (js "m" ++ [0x207B%N])))
    as (_ & _ & _ & Hnan & _).
  pose proof (split_unit_invariant (Some (js "m" ++ [0xB3%N])))
    as (_ & _ & _ & _ & _ & _ & Hcube).
  pose proof (split_unit_invariant (Some (js "m"))) as (_ & _ & Hone & _).
  pose proof (split_unit_invariant None) as (_ & Habsent & _).
  split; [|split; [|split]].
  - apply (Hnan _ eq_refl); [vm_compute; discriminate | reflexivity].
  - apply (proj1 (Hcube _ eq_refl eq_refl)). vm_compute. discriminate.
  - apply (Hone _ eq_refl). reflexivity.
  - apply Habsent. reflexivity.
Defined.

(** *** Formatting and the round trip *)

Lemma unicode_superscript_app (s t : jsstring) :
  unicode_superscript (s ++ t) = unicode_superscript s ++ unicode_superscript t.
Proof.
  unfold unicode_superscript, split_chars.
  now rewrite !map_app, concat_app.
Qed.

Lemma unicode_superscript_cons (c : N) (s : jsstring) :
  unicode_superscript (c :: s) =
  match lookup [c] unicode_dict with Some g => g | None => [c] end
  ++ unicode_superscript s.
Proof. reflexivity. Qed.

(** What the dictionary of [unicode_superscript] holds. *)
Lemma unicode_value (c : N) :
  exponent_char c = true ->
  exists g, lookup [c] unicode_dict = Some [g]
            /\ lookup [g] superscript_dict = Some [c].
Proof.
  intros H; apply exponent_char_cases in H; simpl in H.
  repeat (destruct H as [<-|H]; [eexists; split; reflexivity|]).
  contradiction.
Qed.

Lemma unicode_plain (c : N) :
  exponent_char c = false -> lookup [c] unicode_dict = None.
Proof.
  intros H. unfold unicode_dict; lookup_unfold; rewrite ?andb_true_r.
  repeat match goal with
  | |- context [(c =? ?k)%N] =>
      destruct (N.eqb_spec c k) as [->|_]; [discriminate H|]
  end.
  reflexivity.
Qed.

Lemma unicode_superscript_plain (u : jsstring) :
  Forall (fun c => exponent_char c = false) u -> unicode_superscript u = u.
Proof.
  induction 1 as [|c u Hc _ IH]; [reflexivity|].
  rewrite unicode_superscript_cons, (unicode_plain _ Hc), IH. reflexivity.
Qed.

Lemma exponent_text_app (s t : jsstring) :
  exponent_text (s ++ t) = exponent_text s ++ exponent_text t.
Proof. apply flat_map_app. Qed.

Lemma base_text_app (s t : jsstring) :
  base_text (s ++ t) = base_text s ++ base_text t.
Proof. apply filter_app. Qed.

Lemma texts_of_plain (u : jsstring) :
  Forall (fun c => is_glyph c = false) u ->
  base_text u = u /\ exponent_text u = [].
Proof.
  induction 1 as [|c u Hc _ [IHb IHe]]; [now split|].
  unfold is_glyph in Hc. simpl.
  destruct (lookup [c] superscript_dict); [discriminate|].
  now rewrite IHb, IHe.
Qed.

Lemma texts_of_superscript (t : jsstring) :
  Forall (fun c => exponent_char c = true) t ->
  base_text (unicode_superscript t) = []
  /\ exponent_text (unicode_superscript t) = t.
Proof.
  induction 1 as [|c t Hc _ [IHb IHe]]; [now split|].
  rewrite unicode_superscript_cons.
  destruct (unicode_value _ Hc) as (g & -> & Hg).
  rewrite base_text_app, exponent_text_app, IHb, IHe.
  simpl. rewrite Hg. now split.
Qed.

(** C2, as the specification states it, fails: the empty unit with
    exponent 1 formats to the empty string, which parses to an undefined
    unit; and a unit with a decimal point, which is no digit and no
    superscript glyph, loses the point to the exponent. *)
Example split_unit_unicode_unit_fails :
  (Forall (fun c => is_digit c = false /\ is_glyph c = false) []
   /\ split_unit (Some (unicode_unit [] (Int 1)))
      = {| unit := None; exponent := Int 1 |}
   /\ split_unit (Some (unicode_unit [] (Int 1)))
      <> {| unit := Some []; exponent := Int 1 |})
  /\ (Forall (fun c => is_digit c = false /\ is_glyph c = false) (js "N.m")
      /\ split_unit (Some (unicode_unit (js "N.m") (Int 2)))
         = {| unit := Some (js "Nm"); exponent := NaN |}
      /\ split_unit (Some (unicode_unit (js "N.m") (Int 2)))
         <> {| unit := Some (js "N.m"); exponent := Int 2 |}).
Proof.
  split; split.
  - constructor.
  - split; [reflexivity | discriminate].
  - repeat constructor.
  - split; [reflexivity | discriminate].
Qed.

(** C2, amended.  For every base unit [u] with no superscript glyph and no
    ASCII digit, sign or decimal point, and every safe integer [e <> 0],
    [u] being non-empty when [e] is 1, parsing the formatted unit gives
    back [u] and [e]. *)
Theorem split_unit_unicode_unit (u : jsstring) (e : Z) :
  Forall (fun c => exponent_char c = false /\ is_glyph c = false) u ->
  e <> 0%Z ->
  safe_integer e ->
  u <> [] \/ e <> 1%Z ->
  split_unit (Some (unicode_unit u (Int e)))
  = {| unit := Some u; exponent := Int e |}.
Proof.
  intros Hu _ Hsafe Hne.
  assert (Hplain : Forall (fun c => exponent_char c = false) u)
    by (eapply Forall_impl; [|exact Hu]; now intros c [H _]).
  assert (Hglyph : Forall (fun c => is_glyph c = false) u)
    by (eapply Forall_impl; [|exact Hu]; now intros c [_ H]).
  destruct (texts_of_plain Hglyph) as [Hb He].
  unfold unicode_unit, number_eqb.
  destruct (Z.eqb_spec e 1) as [->|H1].
  - destruct Hne as [Hne|Hne]; [|now elim Hne].
    rewrite (split_unit_text Hne), Hb, He. reflexivity.
  - destruct (texts_of_superscript (number_to_string_chars e)) as [Hb' He'].
    rewrite unicode_superscript_app, (unicode_superscript_plain Hplain).
    rewrite split_unit_text.
    + rewrite base_text_app, exponent_text_app, Hb, He, Hb', He'.
      rewrite app_nil_r. cbn [app].
      pose proof (parseInt_number_to_string Hsafe) as Hp.
      destruct (number_to_string (Int e)) as [|c r] eqn:E.
      * discriminate Hp.
      * cbn [length Nat.ltb Nat.leb]. now rewrite Hp.
    + intros H. apply (f_equal exponent_text) in H.
      rewrite exponent_text_app, He, He' in H. cbn [app exponent_text flat_map] in H.
      pose proof (parseInt_number_to_string Hsafe) as Hp.
      rewrite H in Hp. discriminate Hp.
Qed.

(** Micrometres to the power -2. *)
Lemma split_unit_unicode_unit_witness :
  split_unit (Some (unicode_unit [0xB5%N; 109%N] (Int (-2))))
  = {| unit := Some [0xB5%N; 109%N]; exponent := Int (-2) |}.
Proof.
  apply split_unit_unicode_unit.
  - repeat constructor.
  - discriminate.
  - unfold safe_integer, max_safe_integer. simpl. lia.
  - left; discriminate.
Defined.

(** C5, as the specification states it, fails: a digit of the unit itself
    is raised with the exponent. *)
Example unicode_unit_raises_unit :
  unicode_unit (js "m2") (Int 3) = js "m" ++ [0xB2%N; 0xB3%N]
  /\ unicode_unit (js "m2") (Int 3)
     <> js "m2" ++ unicode_superscript (number_to_string (Int 3)).
Proof. split; [reflexivity | discriminate]. Qed.

(** C5, amended.  For a safe integer exponent [e], [unicode_unit] returns
    the unit unchanged when [e] is 1; otherwise it returns the superscript
    encoding of the unit followed by that of the sign and digits of [e],
    each of them a glyph.  The encoding leaves the unit as it is when the
    unit holds no ASCII digit, sign or decimal point. *)
Theorem unicode_unit_spec (u : jsstring) (e : Z) :
  safe_integer e ->
  (e = 1%Z -> unicode_unit u (Int e) = u)
  /\ (e <> 1%Z ->
        unicode_unit u (Int e)
        = unicode_superscript u
          ++ unicode_superscript (number_to_string (Int e)))
  /\ (e <> 1%Z -> Forall (fun c => exponent_char c = false) u ->
        unicode_unit u (Int e)
        = u ++ unicode_superscript (number_to_string (Int e)))
  /\ Forall (fun c => is_glyph c = true)
       (unicode_superscript (number_to_string (Int e)))
  /\ exponent_text (unicode_superscript (number_to_string (Int e)))
     = number_to_string (Int e).
Proof.
  intros _. unfold unicode_unit, number_eqb.
  split; [|split; [|split; [|split]]].
  - intros ->. reflexivity.
  - intros H1. destruct (Z.eqb_spec e 1); [contradiction|].
    apply unicode_superscript_app.
  - intros H1 Hu. destruct (Z.eqb_spec e 1); [contradiction|].
    now rewrite unicode_superscript_app, (unicode_superscript_plain Hu).
  - pose proof (number_to_string_chars e) as Hc.
    induction Hc as [|c t Hc _ IH]; [constructor|].
    rewrite unicode_superscript_cons.
    destruct (unicode_value _ Hc) as (g & -> & Hg).
    constructor; [|exact IH]. unfold is_glyph. now rewrite Hg.
  - apply texts_of_superscript, number_to_string_chars.
Qed.

(** The examples of the specification. *)
Lemma unicode_unit_spec_witness :
  unicode_unit (js "m") (Int 1) = js "m"
  /\ unicode_unit (js "m") (Int 3) = js "m" ++ [0xB3%N]
  /\ unicode_unit (js "m") (Int (-2)) = js "m" ++ [0x207B%N; 0xB2%N].
Proof.
  assert (S1 : safe_integer 1) by (vm_compute; discriminate).
  assert (S3 : safe_integer 3) by (vm_compute; discriminate).
  assert (S2 : safe_integer (-2)) by (vm_compute; discriminate).
  destruct (unicode_unit_spec (js "m") S1) as (H1 & _).
  destruct (unicode_unit_spec (js "m") S3) as (_ & _ & H3 & _).
  destruct (unicode_unit_spec (js "m") S2) as (_ & _ & H2 & _).
  split; [|split].
  - apply H1. reflexivity.
  - rewrite H3; [reflexivity | discriminate | repeat constructor].
  - rewrite H2; [reflexivity | discriminate | repeat constructor].
Defined.

End UnitFacts.

(** ** Loops that may throw *)

Lemma for_each_app {S A} (body : S -> A -> result S) (s : S) (l1 l2 : list A) :
  for_each body s (l1 ++ l2)
  = (s' <- for_each body s l1 ;; for_each body s' l2).
Proof.
  revert s; induction l1 as [|a l1 IH]; intros s; simpl; [reflexivity|].
  destruct (body s a) as [s'|e]; simpl; [apply IH | reflexivity].
Qed.

(** A loop that ends normally ran its body on every element. *)
Lemma for_each_split {S A} (body : S -> A -> result S) (s out : S)
  (pre : list A) (a : A) (post : list A) :
  for_each body s (pre ++ a :: post) = Ok out ->
  exists s1 s2, for_each body s pre = Ok s1 /\ body s1 a = Ok s2
                /\ for_each body s2 post = Ok out.
Proof.
  rewrite for_each_app. destruct (for_each body s pre) as [s1|e]; simpl;
    [|discriminate].
  destruct (body s1 a) as [s2|e] eqn:E; simpl; [|discriminate].
  intros H. exists s1, s2. auto.
Qed.

Lemma bool_Forall_or_Exists {A} (f : A -> bool) (l : list A) :
  Forall (fun a => f a = true) l \/ Exists (fun a => f a = false) l.
Proof.
  induction l as [|a l [IH|IH]]; auto.
  destruct (f a) eqn:E; auto.
Qed.

(** ** The style string *)

Lemma find_map_app {A B} (f : A -> option B) (l1 l2 : list A) :
  find_map f (l1 ++ l2)
  = match find_map f l1 with Some b => Some b | None => find_map f l2 end.
Proof.
  induction l1 as [|a l1 IH]; [reflexivity|].
  simpl. destruct (f a); [reflexivity | exact IH].
Qed.

Lemma color_not_symbol (c col : jsstring) :
  lookup c Plot.color_abbreviations = Some col ->
  jsstring_eqb c (js "-") = false ->
  lookup c Plot.symbol_factories = None.
Proof.
  intros H _. revert H. unfold Plot.color_abbreviations.
  rewrite !lookup_cons, lookup_nil.
  destruct (jsstring_eqb c [107%N]) eqn:Ek;
    [apply jsstring_eqb_eq in Ek; subst c; reflexivity|].
  destruct (jsstring_eqb c [114%N]) eqn:Er;
    [apply jsstring_eqb_eq in Er; subst c; reflexivity|].
  discriminate.
Qed.

Lemma line_not_code (c : jsstring) :
  jsstring_eqb c (js "-") = true ->
  lookup c Plot.color_abbreviations = None
  /\ lookup c Plot.symbol_factories = None.
Proof.
  intros E. apply jsstring_eqb_eq in E. subst c. split; reflexivity.
Qed.

(** The variables of the style loop after a style that was read. *)
Lemma style_loop_result (style : jsstring) (cs : list jsstring)
  (v v' : Plot.style_vars) :
  Plot.style_loop style cs v = Ok v' ->
  Plot.line v' = Plot.line v || style_line cs
  /\ Plot.color v' = match style_color cs with
                     | Some c => Some c
                     | None => Plot.color v
                     end
  /\ Plot.symbol v' = match style_symbol cs with
                      | Some f => Some f
                      | None => Plot.symbol v
                      end.
Proof.
  revert v; induction cs as [|c cs IH]; intros v.
  - intros [= <-]. cbn. now rewrite orb_false_r.
  - cbn [Plot.style_loop]. unfold style_line, style_color, style_symbol.
    cbn [existsb rev]. rewrite !find_map_app. cbn [find_map].
    fold (style_line cs) (style_color cs) (style_symbol cs).
    destruct (jsstring_eqb c (js "-")) eqn:Eline.
    + destruct (line_not_code _ Eline) as [-> ->].
      intros H. apply IH in H. cbn [Plot.line Plot.color Plot.symbol] in H.
      destruct H as (Hl & Hc & Hs). rewrite Hl, Hc, Hs.
      cbn [orb]. rewrite orb_true_r.
      destruct (style_color cs), (style_symbol cs); auto.
    + destruct (lookup c Plot.color_abbreviations) as [col|] eqn:Ecol.
      * rewrite (color_not_symbol _ Ecol Eline).
        intros H. apply IH in H. cbn [Plot.line Plot.color Plot.symbol] in H.
        destruct H as (Hl & Hc & Hs). rewrite Hl, Hc, Hs.
        destruct (style_color cs), (style_symbol cs); auto.
      * destruct (lookup c Plot.symbol_factories) as [f|] eqn:Esym;
          [|discriminate].
        intros H. apply IH in H. cbn [Plot.line Plot.color Plot.symbol] in H.
        destruct H as (Hl & Hc & Hs). rewrite Hl, Hc, Hs.
        destruct (style_color cs), (style_symbol cs); auto.
Qed.

Section StyleFacts.

Import Plot.

Lemma style_loop_ok (style : jsstring) (cs : list jsstring) (v : style_vars) :
  Forall (fun c => recognized c = true) cs ->
  exists v', style_loop style cs v = Ok v'.
Proof.
  intros H; revert v; induction H as [|c cs Hc _ IH]; intros v; simpl;
    [eauto|].
  unfold recognized in Hc.
  destruct (jsstring_eqb c (js "-")); [apply IH|].
  destruct (lookup c color_abbreviations); [apply IH|].
  destruct (lookup c symbol_factories); [apply IH | discriminate].
Qed.

Lemma style_loop_throw (style : jsstring) (cs : list jsstring) (v : style_vars) :
  Exists (fun c => recognized c = false) cs ->
  style_loop style cs v = Throw (style_error style).
Proof.
  intros H; revert v; induction H as [c cs Hc|c cs _ IH]; intros v; simpl.
  - unfold recognized in Hc.
    destruct (jsstring_eqb c (js "-")); [discriminate|].
    destruct (lookup c color_abbreviations); [discriminate|].
    destruct (lookup c symbol_factories); [discriminate | reflexivity].
  - destruct (jsstring_eqb c (js "-")); [apply IH|].
    destruct (lookup c color_abbreviations); [apply IH|].
    destruct (lookup c symbol_factories); [apply IH | reflexivity].
Qed.

Variable num : Type.
Variable nan : num.
Variable mul : num -> num -> num.

Lemma style_of_given (item : Series.t num) :
  given_style item <> [] -> style_of item = given_style item.
Proof.
  unfold style_of, given_style.
  destruct (Series.style item) as [[|c s]|]; congruence.
Qed.

Lemma style_of_default (item : Series.t num) :
  truthy (Series.style item) = false -> style_of item = js "k-".
Proof.
  unfold style_of. destruct (Series.style item) as [[|c s]|];
    [reflexivity | discriminate | reflexivity].
Qed.

Lemma render_series_throw (sx sy : num) (item : Series.t num) (e : exn) :
  render_series nan mul sx sy item = Throw e ->
  style_loop (style_of item) (code_points (style_of item))
    {| line := false; color := None; symbol := None |} = Throw e.
Proof.
  unfold render_series.
  destruct (style_loop _ _ _) as [v|e']; simpl; congruence.
Qed.

(** C7.  Rendering a series fails on its style string if and only if the
    string holds a character that is not the line character, a colour
    code or a symbol code; the error is the [TypeError] on the style
    string, and a string of recognized characters renders. *)
Theorem style_error_iff (sx sy : num) (item : Series.t num) :
  (render_series nan mul sx sy item = Throw (style_error (style_of item))
   <-> Exists (fun c => recognized c = false) (code_points (given_style item)))
  /\ (forall e, render_series nan mul sx sy item = Throw e ->
        e = style_error (style_of item))
  /\ (Forall (fun c => recognized c = true) (code_points (given_style item))
      -> exists out, render_series nan mul sx sy item = Ok out).
Proof.
  assert (Hok : Forall (fun c => recognized c = true)
                  (code_points (given_style item)) ->
                Forall (fun c => recognized c = true)
                  (code_points (style_of item))).
  { intros H. destruct (given_style item) as [|c s] eqn:G.
    - rewrite style_of_default; [repeat constructor|].
      unfold given_style in G.
      destruct (Series.style item) as [[|]|]; [reflexivity | | reflexivity].
      discriminate G.
    - rewrite style_of_given; rewrite G; [exact H | discriminate]. }
  assert (Hbad : Exists (fun c => recognized c = false)
                   (code_points (given_style item)) ->
                 Exists (fun c => recognized c = false)
                   (code_points (style_of item))).
  { intros H. destruct (given_style item) as [|c s] eqn:G.
    - inversion H.
    - rewrite style_of_given; rewrite G; [exact H | discriminate]. }
  assert (Hrun : forall v, style_loop (style_of item)
                   (code_points (style_of item))
                   {| line := false; color := None; symbol := None |} = Ok v ->
                 exists out, render_series nan mul sx sy item = Ok out).
  { intros v Hv. unfold render_series. rewrite Hv. simpl. eauto. }
  split; [split|split].
  - intros H. apply render_series_throw in H.
    destruct (bool_Forall_or_Exists recognized (code_points (given_style item)))
      as [F|E]; [|exact E].
    destruct (style_loop_ok (style_of item)
                {| line := false; color := None; symbol := None |} (Hok F))
      as [v Hv].
    congruence.
  - intros H. unfold render_series.
    rewrite (style_loop_throw _ _ (Hbad H)). reflexivity.
  - intros e H. apply render_series_throw in H.
    destruct (bool_Forall_or_Exists recognized (code_points (style_of item)))
      as [F|E].
    + destruct (style_loop_ok (style_of item)
                  {| line := false; color := None; symbol := None |} F)
        as [v Hv].
      congruence.
    + rewrite (style_loop_throw _ _ E) in H. congruence.
  - intros F.
    destruct (style_loop_ok (style_of item)
                {| line := false; color := None; symbol := None |} (Hok F))
      as [v Hv].
    eauto.
Qed.

(** C4, amended.  A series whose style is ["ko"] yields one primitive, a
    black circular symbol, and no line: the line needs the character [-].
    A series whose style is ["k-o"] yields a black line and a black
    circular symbol. *)
Theorem style_ko (sx sy : num) (item : Series.t num) :
  (Series.style item = Some (js "ko") ->
   render_series nan mul sx sy item
   = Ok ([Scatter (dataset nan mul sx sy item) circle
            (Constant (js "black")) (Constant (js "black"))],
         Some circle))
  /\ (Series.style item = Some (js "k-o") ->
      render_series nan mul sx sy item
      = Ok ([Line (dataset nan mul sx sy item) (Constant (js "black"));
             Scatter (dataset nan mul sx sy item) circle
               (Constant (js "black")) (Constant (js "black"))],
            Some circle)).
Proof.
  split; intros H; unfold render_series, style_of; rewrite H; reflexivity.
Qed.

(** C6, amended.  A series whose style string is empty or absent is drawn
    with the default style ["k-"]: it yields one primitive, a black line,
    and no symbol. *)
Theorem style_absent (sx sy : num) (item : Series.t num) :
  truthy (Series.style item) = false ->
  render_series nan mul sx sy item
  = Ok ([Line (dataset nan mul sx sy item) (Constant (js "black"))], None).
Proof.
  intros H. unfold render_series. rewrite (style_of_default _ H).
  reflexivity.
Qed.

(** What the callback pushes for a series whose style was read. *)
Lemma render_series_result (sx sy : num) (item : Series.t num)
  (out : list (plot num) * option symbol_factory) :
  render_series nan mul sx sy item = Ok out ->
  out = (drawn item (dataset nan mul sx sy item),
         style_symbol (code_points (style_of item)))
  /\ (length (fst out) <= 2)%nat.
Proof.
  unfold render_series, drawn.
  destruct (style_loop _ _ _) as [v|e] eqn:L; simpl; [|discriminate].
  apply style_loop_result in L. cbn in L. destruct L as (Hl & Hc & Hs).
  intros [= <-]. rewrite Hl, Hc, Hs.
  split.
  - destruct (style_color _), (style_symbol _); reflexivity.
  - cbn [fst]. rewrite length_app.
    destruct (style_line _), (style_symbol _); simpl; lia.
Qed.

End StyleFacts.

(** ** The loop over the descriptors *)

Lemma map_index_length {A B} (f : A -> nat -> B) (k : nat) (l : list A) :
  length (map_index f k l) = length l.
Proof.
  revert k; induction l as [|a l IH]; intros k; simpl; [|rewrite IH];
    reflexivity.
Qed.

Lemma map_index_nth_error {A B} (f : A -> nat -> B) (k i : nat) (l : list A) :
  nth_error (map_index f k l) i
  = option_map (fun a => f a (k + i)) (nth_error l i).
Proof.
  revert k i; induction l as [|a l IH]; intros k [|i]; simpl;
    try reflexivity.
  - now rewrite Nat.add_0_r.
  - rewrite IH. now rewrite Nat.add_succ_r.
Qed.

Section RenderFacts.

Import Plot.

Variable num : Type.
Variable one nan : num.
Variable mul : num -> num -> num.
Variable pow : num -> number -> num.
Variable convert : jsvalue -> jsstring -> result num.

Local Abbreviation render_series := (Plot.render_series nan mul).
Local Abbreviation dataset := (Plot.dataset nan mul).
Local Abbreviation scale_factors := (Plot.scale_factors one pow convert).
Local Abbreviation descr_body := (Plot.descr_body one nan mul pow convert).
Local Abbreviation render_plot := (Plot.render_plot one nan mul pow convert).
Local Abbreviation loop := (for_each descr_body).

Lemma dataset_scaled (sx sy : num) (item : Series.t num) (p : plot num) :
  dataset_of p = dataset sx sy item -> scaled_by mul sx sy item p.
Proof.
  unfold scaled_by. intros ->. unfold Plot.dataset. split.
  - apply map_index_length.
  - intros i xi yi Hx Hy. rewrite map_index_nth_error, Hy. simpl.
    now rewrite (nth_error_nth _ _ nan Hx).
Qed.

Lemma render_series_dataset (sx sy : num) (item : Series.t num)
  (out : list (plot num) * option symbol_factory) :
  render_series sx sy item = Ok out ->
  forall p, In p (fst out) -> dataset_of p = dataset sx sy item.
Proof.
  unfold Plot.render_series.
  destruct (style_loop _ _ _) as [v|e]; simpl; [|discriminate].
  intros [= <-] p. simpl. rewrite in_app_iff.
  destruct (line v), (symbol v); simpl; intuition; subst; reflexivity.
Qed.

(** The loop over the series pushes what each series renders to. *)
Lemma push_series_loop (sx sy : num) (items : list (Series.t num))
  (acc acc' : list (plot num) * list (option symbol_factory)) :
  for_each (push_series nan mul sx sy) acc items = Ok acc' ->
  exists outs,
    Forall2 (fun item out => render_series sx sy item = Ok out) items outs
    /\ fst acc' = fst acc ++ concat (map fst outs)
    /\ snd acc' = snd acc ++ map snd outs.
Proof.
  revert acc; induction items as [|item items IH]; intros acc; simpl.
  - intros [= <-]. exists []. simpl. now rewrite !app_nil_r.
  - unfold push_series at 1.
    destruct (render_series sx sy item) as [[pushed sym]|e] eqn:E; simpl;
      [|discriminate].
    intros H. apply IH in H. destruct H as (outs & HF & Hp & Hs).
    exists ((pushed, sym) :: outs). simpl in *.
    split; [constructor; assumption|].
    rewrite Hp, Hs, <- !app_assoc. auto.
Qed.

(** What one turn of the loop over the descriptors does when it ends
    normally. *)
Lemma descr_body_ok (v v' : Locals.t num) (d : Descr.t num) :
  descr_body v d = Ok v' ->
  loose_eqb (Unit.unit (xunit_of d)) (Unit.unit (yunit_of d)) = true
  /\ Locals.unit v' = default_unit (Locals.unit v) (xunit_of d)
  /\ exists sx sy outs,
       scale_factors (default_unit (Locals.unit v) (xunit_of d))
         (xunit_of d) (yunit_of d) = Ok (sx, sy)
       /\ Forall2 (fun item out => render_series sx sy item = Ok out)
            (Descr.series d) outs
       /\ Locals.plots v' = Locals.plots v ++ concat (map fst outs)
       /\ Locals.symbols v' = Locals.symbols v ++ map snd outs.
Proof.
  unfold Plot.descr_body. fold (xunit_of d) (yunit_of d).
  destruct (loose_eqb _ _); simpl; [|discriminate].
  destruct (scale_factors _ _ _) as [[sx sy]|e]; simpl; [|discriminate].
  destruct (for_each _ _ _) as [[plots symbols]|e] eqn:L; simpl;
    [|discriminate].
  intros [= <-]. simpl. split; [reflexivity|]. split; [reflexivity|].
  apply push_series_loop in L. destruct L as (outs & HF & Hp & Hs).
  exists sx, sy, outs. auto.
Qed.

Lemma descr_body_mismatch (v : Locals.t num) (d : Descr.t num) :
  loose_eqb (Unit.unit (xunit_of d)) (Unit.unit (yunit_of d)) = false ->
  descr_body v d = Throw unit_mismatch.
Proof.
  unfold Plot.descr_body. fold (xunit_of d) (yunit_of d).
  now intros ->.
Qed.

Lemma default_unit_sticky (unit : jsvalue) (xunit : Unit.parsed) :
  truthy unit = true -> default_unit unit xunit = unit.
Proof. unfold default_unit. now intros ->. Qed.

(** Where a label is built from [unit], [unit] is a non-empty string. *)
Lemma default_unit_label (unit : jsvalue) (xunit : Unit.parsed) :
  truthy (Unit.unit xunit) = true -> truthy (default_unit unit xunit) = true.
Proof.
  unfold default_unit. destruct (truthy unit) eqn:T; simpl; auto.
Qed.

Lemma loop_plots (ds : list (Descr.t num)) (v out : Locals.t num) :
  loop v ds = Ok out ->
  exists after, Locals.plots out = Locals.plots v ++ after.
Proof.
  revert v; induction ds as [|d ds IH]; intros v; simpl.
  - intros [= <-]. exists []. now rewrite app_nil_r.
  - destruct (descr_body v d) as [v1|e] eqn:E; simpl; [|discriminate].
    intros H. apply IH in H. destruct H as [after H].
    apply descr_body_ok in E.
    destruct E as (_ & _ & sx & sy & outs & _ & _ & Hp & _).
    exists (concat (map fst outs) ++ after).
    now rewrite H, Hp, <- app_assoc.
Qed.

(** Once the unit is set the loop keeps it. *)
Lemma loop_unit_sticky (ds : list (Descr.t num)) (v out : Locals.t num) :
  loop v ds = Ok out ->
  truthy (Locals.unit v) = true ->
  Locals.unit out = Locals.unit v.
Proof.
  revert v; induction ds as [|d ds IH]; intros v; simpl.
  - now intros [= <-].
  - destruct (descr_body v d) as [v1|e] eqn:E; simpl; [|discriminate].
    intros H Hv. apply descr_body_ok in E. destruct E as (_ & Hu & _).
    rewrite default_unit_sticky in Hu by exact Hv.
    rewrite (IH _ H); rewrite Hu; auto.
Qed.

Lemma scale_factors_falsy (unit : jsvalue) (xunit yunit : Unit.parsed) :
  truthy unit = false -> scale_factors unit xunit yunit = Ok (one, one).
Proof.
  unfold Plot.scale_factors.
  destruct unit as [[|c u]|]; [reflexivity | discriminate | reflexivity].
Qed.

(** The unit after the loop: the unit it started with if there was one,
    and else the first base unit that is not empty. *)
Lemma loop_unit (ds : list (Descr.t num)) (v out : Locals.t num) :
  loop v ds = Ok out ->
  (truthy (Locals.unit v) = true -> Locals.unit out = Locals.unit v)
  /\ (truthy (Locals.unit v) = false ->
      match find has_unit ds with
      | Some d' => Locals.unit out = Unit.unit (xunit_of d')
      | None => truthy (Locals.unit out) = false
      end).
Proof.
  intros H. split; [now apply loop_unit_sticky with (ds := ds)|].
  revert v H; induction ds as [|d ds IH]; intros v; simpl.
  - now intros [= <-].
  - destruct (descr_body v d) as [v1|e] eqn:E; simpl; [|discriminate].
    intros H Hv. apply descr_body_ok in E. destruct E as (_ & Hu & _).
    unfold default_unit in Hu. rewrite Hv in Hu. simpl in Hu.
    unfold has_unit at 1. destruct (truthy (Unit.unit (xunit_of d))) eqn:T.
    + rewrite <- Hu. apply loop_unit_sticky with (ds := ds); [exact H|].
      now rewrite Hu.
    + apply IH with (v := v1); [exact H|]. now rewrite Hu.
Qed.

(** A turn of the loop leaves a colour scale behind. *)
Lemma descr_body_color_scale (v v' : Locals.t num) (d : Descr.t num) :
  descr_body v d = Ok v' -> Locals.color_scale v' <> None.
Proof.
  unfold Plot.descr_body.
  destruct (loose_eqb _ _); simpl; [|discriminate].
  destruct (scale_factors _ _ _) as [[sx sy]|e]; simpl; [|discriminate].
  destruct (for_each _ _ _) as [[plots symbols]|e]; simpl; [|discriminate].
  intros [= <-]. simpl. destruct (Locals.color_scale v); discriminate.
Qed.

Lemma loop_color_scale (ds : list (Descr.t num)) (v out : Locals.t num) :
  loop v ds = Ok out ->
  ds <> [] \/ Locals.color_scale v <> None ->
  Locals.color_scale out <> None.
Proof.
  revert v; induction ds as [|d ds IH]; intros v; simpl.
  - intros [= <-] [H|H]; [now elim H | exact H].
  - destruct (descr_body v d) as [v1|e] eqn:E; simpl; [|discriminate].
    intros H _. apply (IH _ H). right.
    exact (@descr_body_color_scale _ _ _ E).
Qed.

(** [render_plot] returns when the loop has ended normally after at least
    one turn; with no descriptor, the legend throws. *)
Lemma render_plot_ok (ds : list (Descr.t num)) (unit0 : jsvalue)
  (out : Locals.t num) :
  render_plot ds unit0 = Ok out
  <-> loop (initial num unit0) ds = Ok out /\ ds <> [].
Proof.
  unfold Plot.render_plot. split.
  - destruct (loop (initial num unit0) ds) as [v|e] eqn:L; simpl;
      [|discriminate].
    destruct (Locals.color_scale v) eqn:C; [|discriminate].
    intros [= <-]. split; [reflexivity|].
    intros ->. simpl in L. injection L as <-. discriminate.
  - intros [L Hne]. rewrite L. simpl.
    pose proof (@loop_color_scale _ _ _ L (or_introl Hne)) as C.
    destruct (Locals.color_scale out); [reflexivity | now elim C].
Qed.

Lemma render_plot_loop (ds : list (Descr.t num)) (unit0 : jsvalue)
  (out : Locals.t num) :
  render_plot ds unit0 = Ok out -> loop (initial num unit0) ds = Ok out.
Proof. intros H. now apply render_plot_ok in H. Qed.

Lemma render_plot_loop_throw (ds : list (Descr.t num)) (unit0 : jsvalue)
  (e : exn) :
  loop (initial num unit0) ds = Throw e -> render_plot ds unit0 = Throw e.
Proof. unfold Plot.render_plot. now intros ->. Qed.

Lemma render_plot_throw (ds : list (Descr.t num)) (unit0 : jsvalue)
  (e : exn) :
  render_plot ds unit0 = Throw e ->
  loop (initial num unit0) ds = Throw e \/ (ds = [] /\ e = legend_error).
Proof.
  unfold Plot.render_plot.
  destruct (loop (initial num unit0) ds) as [v|e'] eqn:L; simpl.
  - destruct ds as [|d ds].
    + simpl in L. injection L as <-. simpl. intros [= <-]. now right.
    + assert (Hne : d :: ds <> []) by discriminate.
      pose proof (@loop_color_scale _ _ _ L (or_introl Hne)) as C.
      destruct (Locals.color_scale v); [discriminate | now elim C].
  - intros [= <-]. now left.
Qed.

(** C1.  For a descriptor that [render_plot] renders with a display unit
    [u] and a ratio [r] converting the descriptor's base unit to [u], the
    scale factors are [r] raised to the exponent of the x unit and [r]
    raised to the exponent of the y unit.  Every series of the descriptor
    is drawn as its style asks, a line and then a symbol plot, over the
    dataset scaled by these factors, and in every such plot each x
    coordinate is multiplied by the first factor and each y coordinate by
    the second. *)
Theorem render_plot_rescales (pre : list (Descr.t num)) (d : Descr.t num)
  (post : list (Descr.t num)) (unit0 : jsvalue) (out v : Locals.t num)
  (u : jsstring) (r : num) :
  render_plot (pre ++ d :: post) unit0 = Ok out ->
  loop (initial num unit0) pre = Ok v ->
  default_unit (Locals.unit v) (xunit_of d) = Some u ->
  u <> [] ->
  convert (Unit.unit (xunit_of d)) u = Ok r ->
  scale_factors (Some u) (xunit_of d) (yunit_of d)
  = Ok (pow r (Unit.exponent (xunit_of d)),
        pow r (Unit.exponent (yunit_of d)))
  /\ exists outs after,
       Forall2
         (fun item o =>
            render_series (pow r (Unit.exponent (xunit_of d)))
              (pow r (Unit.exponent (yunit_of d))) item = Ok o
            /\ fst o
               = drawn item
                   (dataset (pow r (Unit.exponent (xunit_of d)))
                      (pow r (Unit.exponent (yunit_of d))) item)
            /\ forall p, In p (fst o) ->
                 scaled_by mul (pow r (Unit.exponent (xunit_of d)))
                   (pow r (Unit.exponent (yunit_of d))) item p)
         (Descr.series d) outs
       /\ Locals.plots out
          = Locals.plots v ++ concat (map fst outs) ++ after.
Proof.
  intros Hrender Hpre Hunit Hu Hconv. apply render_plot_loop in Hrender.
  assert (Hsf : scale_factors (Some u) (xunit_of d) (yunit_of d)
                = Ok (pow r (Unit.exponent (xunit_of d)),
                      pow r (Unit.exponent (yunit_of d)))).
  { unfold Plot.scale_factors. destruct u as [|c u]; [now elim Hu|].
    rewrite Hconv. reflexivity. }
  split; [exact Hsf|].
  apply for_each_split in Hrender.
  destruct Hrender as (v1 & v2 & Hv1 & Hbody & Hpost).
  rewrite Hpre in Hv1. injection Hv1 as <-.
  apply descr_body_ok in Hbody.
  destruct Hbody as (_ & _ & sx & sy & outs & Hsf' & HF & Hp & _).
  rewrite Hunit, Hsf in Hsf'. injection Hsf' as <- <-.
  apply loop_plots in Hpost. destruct Hpost as [after Hafter].
  exists outs, after. split.
  - eapply Forall2_impl; [|exact HF].
    intros item o Ho. cbv beta in Ho. split; [exact Ho|]. split.
    + pose proof (render_series_result _ _ _ _ _ Ho) as [-> _].
      reflexivity.
    + intros p Hin. apply dataset_scaled.
      eapply render_series_dataset; eassumption.
  - now rewrite Hafter, Hp, <- app_assoc.
Qed.

(** C3, amended.  A render that ends normally has found the base units of
    the two axes equal in every descriptor.  A descriptor whose base units
    differ makes the render fail, and the error is the unit mismatch
    [TypeError] when the descriptors before it rendered without error: an
    earlier descriptor that fails reports its own error. *)
Theorem unit_mismatch_check (ds : list (Descr.t num)) (unit0 : jsvalue) :
  (forall out, render_plot ds unit0 = Ok out ->
     forall d, In d ds ->
       loose_eqb (Unit.unit (xunit_of d)) (Unit.unit (yunit_of d)) = true)
  /\ (forall pre d post v,
        ds = pre ++ d :: post ->
        loop (initial num unit0) pre = Ok v ->
        loose_eqb (Unit.unit (xunit_of d)) (Unit.unit (yunit_of d)) = false ->
        render_plot ds unit0 = Throw unit_mismatch)
  /\ (forall d, In d ds ->
        loose_eqb (Unit.unit (xunit_of d)) (Unit.unit (yunit_of d)) = false ->
        exists e, render_plot ds unit0 = Throw e).
Proof.
  assert (Hok : forall out, render_plot ds unit0 = Ok out ->
     forall d, In d ds ->
       loose_eqb (Unit.unit (xunit_of d)) (Unit.unit (yunit_of d)) = true).
  { intros out H d Hin. apply render_plot_loop in H.
    apply in_split in Hin. destruct Hin as (pre & post & ->).
    apply for_each_split in H. destruct H as (v1 & v2 & _ & Hbody & _).
    now apply descr_body_ok in Hbody. }
  split; [exact Hok|]. split.
  - intros pre d post v -> Hpre Hne. apply render_plot_loop_throw.
    rewrite for_each_app, Hpre. simpl.
    now rewrite (descr_body_mismatch _ _ Hne).
  - intros d Hin Hne.
    destruct (render_plot ds unit0) as [out|e] eqn:R; [|eauto].
    rewrite (Hok out eq_refl d Hin) in Hne. discriminate.
Qed.

(** C9, amended.  The unit that rescales a descriptor is the caller's unit
    when the caller gave one.  Otherwise it is the base unit of the x axis
    of the first descriptor, up to the present one, in which that base
    unit is not empty; while there is none the descriptors are rendered
    without a unit.  The unit the render ends with is chosen the same
    way. *)
Theorem display_unit (ds : list (Descr.t num)) (unit0 : jsvalue)
  (out : Locals.t num) :
  render_plot ds unit0 = Ok out ->
  (forall pre d post v,
     ds = pre ++ d :: post ->
     loop (initial num unit0) pre = Ok v ->
     (truthy unit0 = true ->
        default_unit (Locals.unit v) (xunit_of d) = unit0)
     /\ (truthy unit0 = false ->
         match find has_unit (pre ++ [d]) with
         | Some d' => default_unit (Locals.unit v) (xunit_of d)
                      = Unit.unit (xunit_of d')
         | None => truthy (default_unit (Locals.unit v) (xunit_of d)) = false
         end))
  /\ (truthy unit0 = true -> Locals.unit out = unit0)
  /\ (truthy unit0 = false ->
      match find has_unit ds with
      | Some d' => Locals.unit out = Unit.unit (xunit_of d')
      | None => truthy (Locals.unit out) = false
      end).
Proof.
  intros Hrender. apply render_plot_loop in Hrender.
  split; [|exact (loop_unit _ _ Hrender)].
  intros pre d post v -> Hpre.
  apply for_each_split in Hrender.
  destruct Hrender as (v1 & v2 & Hv1 & Hbody & _).
  rewrite Hpre in Hv1. injection Hv1 as <-.
  assert (Hloop : loop (initial num unit0) (pre ++ [d]) = Ok v2).
  { rewrite for_each_app, Hpre. simpl. now rewrite Hbody. }
  apply descr_body_ok in Hbody. destruct Hbody as (_ & <- & _).
  exact (loop_unit _ _ Hloop).
Qed.

(** C10.  When the render ends with no display unit, every descriptor was
    given the scale factors 1 and 1; the plots of the render are what the
    styles of the series ask for, in the order of the series, each over
    the dataset of its series, and every plot holds the points of its
    series with their coordinates unchanged. *)
Theorem render_plot_unscaled (ds : list (Descr.t num)) (unit0 : jsvalue)
  (out : Locals.t num) :
  (forall a, mul one a = a) ->
  render_plot ds unit0 = Ok out ->
  truthy (Locals.unit out) = false ->
  (forall pre d post v,
     ds = pre ++ d :: post ->
     loop (initial num unit0) pre = Ok v ->
     scale_factors (default_unit (Locals.unit v) (xunit_of d))
       (xunit_of d) (yunit_of d) = Ok (one, one))
  /\ exists outs,
       Forall2
         (fun item o =>
            render_series one one item = Ok o
            /\ fst o = drawn item (dataset one one item)
            /\ forall p, In p (fst o) -> unscaled item p)
         (flat_map (@Descr.series num) ds) outs
       /\ Locals.plots out = concat (map fst outs).
Proof.
  intros Hone Hrender Hfalsy. apply render_plot_loop in Hrender. split.
  - intros pre d post v -> Hpre.
    apply for_each_split in Hrender.
    destruct Hrender as (v1 & v2 & Hv1 & Hbody & Hpost).
    rewrite Hpre in Hv1. injection Hv1 as <-.
    apply descr_body_ok in Hbody. destruct Hbody as (_ & Hu & _).
    apply scale_factors_falsy. rewrite <- Hu.
    destruct (truthy (Locals.unit v2)) eqn:T; [|reflexivity].
    rewrite (@loop_unit_sticky _ _ _ Hpost T) in Hfalsy. congruence.
  - assert (Hgen : forall ds v, loop v ds = Ok out ->
      exists outs,
        Forall2
          (fun item o =>
             render_series one one item = Ok o
             /\ fst o = drawn item (dataset one one item)
             /\ forall p, In p (fst o) -> unscaled item p)
          (flat_map (@Descr.series num) ds) outs
        /\ Locals.plots out = Locals.plots v ++ concat (map fst outs)).
    { clear ds Hrender. induction ds as [|d ds IH]; intros v; simpl.
      - intros [= <-]. exists []. split; [constructor|].
        simpl. now rewrite app_nil_r.
      - destruct (descr_body v d) as [v1|e] eqn:E; simpl; [|discriminate].
        intros Hloop. destruct (IH _ Hloop) as (outs2 & HF2 & Hp2).
        apply descr_body_ok in E.
        destruct E as (_ & Hu & sx & sy & outs1 & Hsf & HF1 & Hp1 & _).
        assert (T : truthy (Locals.unit v1) = false).
        { destruct (truthy (Locals.unit v1)) eqn:T; [|reflexivity].
          rewrite (@loop_unit_sticky _ _ _ Hloop T) in Hfalsy. congruence. }
        rewrite <- Hu, scale_factors_falsy in Hsf by exact T.
        injection Hsf as <- <-.
        exists (outs1 ++ outs2). split.
        + apply Forall2_app; [|exact HF2].
          eapply Forall2_impl; [|exact HF1].
          intros item o Ho. cbv beta in Ho. split; [exact Ho|].
          split;
            [pose proof (render_series_result _ _ _ _ _ Ho) as [-> _];
             reflexivity|].
          intros p Hin.
          pose proof (render_series_dataset _ _ _ Ho p Hin) as Hd.
          apply dataset_scaled in Hd. destruct Hd as [Hlen Hpts].
          split; [exact Hlen|].
          intros i xi yi Hx Hy. rewrite (Hpts i xi yi Hx Hy).
          now rewrite !Hone.
        + now rewrite Hp2, Hp1, map_app, concat_app, <- app_assoc. }
    destruct (Hgen ds _ Hrender) as (outs & HF & Hp).
    exists outs. split; [exact HF | exact Hp].
Qed.

End RenderFacts.

(** ** The properties on the concrete arithmetic *)

Lemma sample_mul_one (a : Sample.num) : Sample.mul Sample.one a = a.
Proof.
  destruct a as [[n d]|]; [|reflexivity].
  unfold Sample.mul, Sample.one, QArith_base.Qmult. simpl.
  destruct n; reflexivity.
Qed.

(** A descriptor in millimetres rendered in metres: a line and circles. *)
Lemma render_plot_rescales_witness :
  let d := Sample.height_descr in
  let r := Some (QArith_base.Qmake 1 1000) in
  let sx := Sample.pow r (Unit.exponent (xunit_of d)) in
  let sy := Sample.pow r (Unit.exponent (yunit_of d)) in
  Sample.convert (Some (js "mm")) (js "m") = Ok r
  /\ sx = Some (QArith_base.Qmake 1 1000)
  /\ sy = Some (QArith_base.Qmake 1 1000000)
  /\ exists out outs after,
       Sample.render_plot [d] (Some (js "m")) = Ok out
       /\ length (Locals.plots out) = 2%nat
       /\ Forall2
            (fun item o =>
               Sample.render_series sx sy item = Ok o
               /\ fst o
                  = drawn item
                      (Plot.dataset Sample.nan Sample.mul sx sy item)
               /\ forall p, In p (fst o) -> scaled_by Sample.mul sx sy item p)
            (Descr.series d) outs
       /\ Locals.plots out = [] ++ concat (map fst outs) ++ after.
Proof.
  intros d r sx sy.
  split; [reflexivity|]. split; [reflexivity|]. split; [reflexivity|].
  assert (Hrender : exists out,
            Sample.render_plot ([] ++ d :: []) (Some (js "m")) = Ok out
            /\ length (Locals.plots out) = 2%nat)
    by (eexists; split; vm_compute; reflexivity).
  destruct Hrender as (out & Hrender & Hlen).
  destruct (render_plot_rescales Sample.one Sample.nan Sample.mul Sample.pow
              Sample.convert [] d [] (Some (js "m"))
              (v := Plot.initial Sample.num (Some (js "m")))
              (u := js "m") (r := r) Hrender)
    as (_ & outs & after & HF & Hp).
  - reflexivity.
  - reflexivity.
  - discriminate.
  - reflexivity.
  - exists out, outs, after. split; [exact Hrender|].
    split; [exact Hlen|]. split; [exact HF | exact Hp].
Defined.

(** C3, as the specification states it, fails: with a style that cannot be
    read in the first descriptor, the render fails on the style and not on
    the units of the second descriptor, which differ. *)
Example unit_mismatch_not_reported :
  In Sample.mismatched_descr [Sample.bad_style_descr; Sample.mismatched_descr]
  /\ loose_eqb (Unit.unit (xunit_of Sample.mismatched_descr))
       (Unit.unit (yunit_of Sample.mismatched_descr)) = false
  /\ Sample.render_plot [Sample.bad_style_descr; Sample.mismatched_descr] None
     = Throw (Plot.style_error (js "x"))
  /\ Sample.render_plot [Sample.bad_style_descr; Sample.mismatched_descr] None
     <> Throw Plot.unit_mismatch.
Proof.
  split; [right; left; reflexivity|]. split; [reflexivity|].
  split; [reflexivity|]. vm_compute. discriminate.
Qed.

(** The check on two descriptors in metres, then on a descriptor in metres
    followed by one in metres against seconds. *)
Lemma unit_mismatch_check_witness :
  Sample.render_plot [Sample.metre_descr; Sample.mismatched_descr] None
  = Throw Plot.unit_mismatch
  /\ exists out,
       Sample.render_plot [Sample.metre_descr; Sample.height_descr] None
       = Ok out
       /\ loose_eqb (Unit.unit (xunit_of Sample.height_descr))
            (Unit.unit (yunit_of Sample.height_descr)) = true.
Proof.
  split.
  - destruct (unit_mismatch_check Sample.one Sample.nan Sample.mul Sample.pow
                Sample.convert [Sample.metre_descr; Sample.mismatched_descr]
                None) as (_ & H & _).
    assert (Hpre : exists v,
              for_each Sample.descr_body (Plot.initial Sample.num None)
                [Sample.metre_descr] = Ok v)
      by (eexists; vm_compute; reflexivity).
    destruct Hpre as [v Hpre].
    apply (H [Sample.metre_descr] Sample.mismatched_descr [] v);
      [reflexivity | exact Hpre | reflexivity].
  - assert (Hrender : exists out,
              Sample.render_plot [Sample.metre_descr; Sample.height_descr]
                None = Ok out)
      by (eexists; vm_compute; reflexivity).
    destruct Hrender as [out Hout]. exists out. split; [exact Hout|].
    destruct (unit_mismatch_check Sample.one Sample.nan Sample.mul Sample.pow
                Sample.convert [Sample.metre_descr; Sample.height_descr]
                None) as (H & _ & _).
    apply (H out Hout). right; left; reflexivity.
Defined.

(** C9, as the specification states it, fails: with no unit from the
    caller and a first descriptor without units, the first descriptor is
    rendered without a unit and the second sets the unit to its own. *)
Example display_unit_changes :
  exists v out,
    Unit.unit (xunit_of Sample.unitless_descr) = None
    /\ for_each Sample.descr_body (Plot.initial Sample.num None)
         [Sample.unitless_descr] = Ok v
    /\ Locals.unit v = None
    /\ Sample.render_plot [Sample.unitless_descr; Sample.metre_descr] None
       = Ok out
    /\ Locals.unit out = Some (js "m")
    /\ Locals.unit out <> Unit.unit (xunit_of Sample.unitless_descr).
Proof.
  do 2 eexists.
  split; [reflexivity|].
  split; [vm_compute; reflexivity|].
  split; [reflexivity|].
  split; [vm_compute; reflexivity|].
  split; [reflexivity | discriminate].
Qed.

(** The unit of a render without a caller's unit, and of one with. *)
Lemma display_unit_witness :
  (exists out,
     Sample.render_plot [Sample.unitless_descr; Sample.metre_descr] None
     = Ok out /\ Locals.unit out = Some (js "m"))
  /\ (exists out,
        Sample.render_plot [Sample.metre_descr; Sample.height_descr]
          (Some (js "km")) = Ok out
        /\ Locals.unit out = Some (js "km")).
Proof.
  split.
  - assert (Hrender : exists out,
              Sample.render_plot [Sample.unitless_descr; Sample.metre_descr]
                None = Ok out)
      by (eexists; vm_compute; reflexivity).
    destruct Hrender as [out Hout]. exists out. split; [exact Hout|].
    destruct (display_unit Sample.one Sample.nan Sample.mul Sample.pow
                Sample.convert _ _ Hout) as (_ & _ & H).
    exact (H eq_refl).
  - assert (Hrender : exists out,
              Sample.render_plot [Sample.metre_descr; Sample.height_descr]
                (Some (js "km")) = Ok out)
      by (eexists; vm_compute; reflexivity).
    destruct Hrender as [out Hout]. exists out. split; [exact Hout|].
    destruct (display_unit Sample.one Sample.nan Sample.mul Sample.pow
                Sample.convert _ _ Hout) as (_ & H & _).
    exact (H eq_refl).
Defined.

(** A render of a descriptor without units: one line. *)
Lemma render_plot_unscaled_witness :
  exists out outs,
    Sample.render_plot [Sample.unitless_descr] None = Ok out
    /\ length (Locals.plots out) = 1%nat
    /\ Forall2
         (fun item o =>
            Sample.render_series Sample.one Sample.one item = Ok o
            /\ fst o
               = drawn item
                   (Plot.dataset Sample.nan Sample.mul Sample.one
                      Sample.one item)
            /\ forall p, In p (fst o) -> unscaled item p)
         (Descr.series Sample.unitless_descr ++ []) outs
    /\ Locals.plots out = concat (map fst outs).
Proof.
  assert (Hrender : exists out,
            Sample.render_plot [Sample.unitless_descr] None = Ok out
            /\ length (Locals.plots out) = 1%nat)
    by (eexists; split; vm_compute; reflexivity).
  destruct Hrender as (out & Hrender & Hlen).
  assert (Hfalsy : truthy (Locals.unit out) = false).
  { vm_compute in Hrender. injection Hrender as <-. reflexivity. }
  destruct (render_plot_unscaled Sample.one Sample.nan Sample.mul Sample.pow
              Sample.convert [Sample.unitless_descr] None
              sample_mul_one Hrender Hfalsy) as (_ & outs & HF & Hp).
  exists out, outs. split; [exact Hrender|]. split; [exact Hlen|].
  split; [exact HF | exact Hp].
Defined.

(** A style that cannot be read, and one that can. *)
Lemma style_error_iff_witness :
  Sample.render_series Sample.one Sample.one
    (Sample.item "data" (Some (js "x")))
  = Throw (Plot.style_error (js "x"))
  /\ exists out,
       Sample.render_series Sample.one Sample.one
         (Sample.item "data" (Some (js "r-+"))) = Ok out.
Proof.
  split.
  - destruct (style_error_iff Sample.nan Sample.mul Sample.one Sample.one
                (Sample.item "data" (Some (js "x")))) as ((_ & H) & _).
    apply H. left. reflexivity.
  - destruct (style_error_iff Sample.nan Sample.mul Sample.one Sample.one
                (Sample.item "data" (Some (js "r-+")))) as (_ & _ & H).
    apply H. repeat constructor.
Defined.

(** C4, as the specification states it, fails: the style ["ko"] gives a
    black circular symbol and no line. *)
Example style_ko_no_line :
  exists out,
    Sample.render_series Sample.one Sample.one
      (Sample.item "data" (Some (js "ko"))) = Ok out
    /\ Forall (fun p => match p with Line _ _ => False | _ => True end)
         (fst out)
    /\ length (fst out) = 1%nat.
Proof.
  eexists. split; [vm_compute; reflexivity|].
  split; [repeat constructor | reflexivity].
Qed.

(** The style ["ko"] on the sample series. *)
Lemma style_ko_witness :
  let item := Sample.item "data" (Some (js "ko")) in
  Sample.render_series Sample.one Sample.one item
  = Ok ([Scatter (Plot.dataset Sample.nan Sample.mul Sample.one Sample.one item)
           circle (Constant (js "black")) (Constant (js "black"))],
        Some circle).
Proof.
  intros item.
  destruct (style_ko Sample.nan Sample.mul Sample.one Sample.one item)
    as (H & _).
  apply H. reflexivity.
Defined.

(** C6, as the specification states it, fails: a series with an empty
    style string is drawn as a black line. *)
Example style_empty_draws_line :
  let item := Sample.item "fit" (Some []) in
  Sample.render_series Sample.one Sample.one item
  = Ok ([Line (Plot.dataset Sample.nan Sample.mul Sample.one Sample.one item)
           (Constant (js "black"))], None)
  /\ Sample.render_series Sample.one Sample.one item <> Ok ([], None).
Proof. split; [reflexivity | discriminate]. Qed.

(** A series without a style. *)
Lemma style_absent_witness :
  let item := Sample.item "fit" None in
  Sample.render_series Sample.one Sample.one item
  = Ok ([Line (Plot.dataset Sample.nan Sample.mul Sample.one Sample.one item)
           (Constant (js "black"))], None).
Proof.
  intros item.
  apply (style_absent Sample.nan Sample.mul Sample.one Sample.one item).
  reflexivity.
Defined.

(** * Further properties *)

(** ** [unicode_superscript] and [split_unit] *)

Module UnitMore.

Import Unit.

Lemma unicode_glyph (c : N) (g : jsstring) :
  lookup [c] unicode_dict = Some g ->
  exists a, g = [a] /\ exponent_char a = false
            /\ lookup [a] unicode_dict = None.
Proof.
  unfold unicode_dict; lookup_unfold; rewrite ?andb_true_r.
  repeat match goal with
  | |- context [(c =? ?k)%N] =>
      destruct (N.eqb_spec c k) as [->|_];
      [intros [= <-]; eexists; repeat split; reflexivity|]
  end.
  discriminate.
Qed.

(** X1.  [unicode_superscript] replaces code unit by code unit: the result is as
    long as the argument, holds no ASCII digit, sign or decimal point, and
    is left as it is by a second application. *)
Theorem unicode_superscript_shape (s : jsstring) :
  length (unicode_superscript s) = length s
  /\ Forall (fun c => exponent_char c = false) (unicode_superscript s)
  /\ unicode_superscript (unicode_superscript s) = unicode_superscript s.
Proof.
  induction s as [|c s (IHl & IHf & IHi)]; [repeat split; constructor|].
  rewrite UnitFacts.unicode_superscript_cons.
  destruct (lookup [c] unicode_dict) as [g|] eqn:E.
  - destruct (unicode_glyph _ E) as (a & -> & Ha & Hn).
    cbn [app length]. rewrite IHl.
    split; [reflexivity|]. split; [now constructor|].
    rewrite UnitFacts.unicode_superscript_cons, Hn, IHi. reflexivity.
  - cbn [app length]. rewrite IHl.
    split; [reflexivity|].
    assert (Hc : exponent_char c = false).
    { destruct (exponent_char c) eqn:X; [|reflexivity].
      destruct (UnitFacts.unicode_value _ X) as (g & Hg & _). congruence. }
    split; [now constructor|].
    rewrite UnitFacts.unicode_superscript_cons, E, IHi. reflexivity.
Qed.

Lemma base_text_filter (s : jsstring) :
  base_text s = filter (fun c => negb (is_glyph c)) s.
Proof.
  unfold base_text, is_glyph. apply filter_ext. intros c.
  now destruct (lookup [c] superscript_dict).
Qed.

Lemma exponent_text_filter (s : jsstring) :
  exponent_text s = exponent_text (filter is_glyph s).
Proof.
  induction s as [|c s IH]; [reflexivity|].
  cbn [exponent_text flat_map filter]. unfold is_glyph at 1.
  destruct (lookup [c] superscript_dict) as [d|] eqn:E.
  - cbn [exponent_text flat_map]. rewrite E. f_equal. exact IH.
  - exact IH.
Qed.

(** X2.  The unit that [split_unit] returns for a non-empty string is the string
    without its superscript glyphs, wherever they stand, the other code
    units in their order; the exponent depends on the glyphs alone. *)
Theorem split_unit_partition (s : jsstring) :
  s <> [] ->
  unit (split_unit (Some s)) = Some (filter (fun c => negb (is_glyph c)) s)
  /\ (forall u, unit (split_unit (Some s)) = Some u ->
        Forall (fun c => is_glyph c = false) u
        /\ (length u + length (filter is_glyph s) = length s)%nat)
  /\ (forall t : jsstring, t <> [] ->
        filter is_glyph t = filter is_glyph s ->
        exponent (split_unit (Some t)) = exponent (split_unit (Some s))).
Proof.
  intros Hs.
  assert (Hu : unit (split_unit (Some s))
               = Some (filter (fun c => negb (is_glyph c)) s))
    by now rewrite (UnitFacts.split_unit_text Hs), <- base_text_filter.
  split; [exact Hu|]. split.
  - rewrite Hu. intros u [= <-]. split.
    + apply Forall_forall. intros c Hc. apply filter_In in Hc.
      destruct Hc as [_ Hc]. now destruct (is_glyph c).
    + clear. induction s as [|c s IH]; [reflexivity|].
      cbn [filter]. destruct (is_glyph c); cbn [negb length]; lia.
  - intros t Ht E.
    rewrite (UnitFacts.split_unit_text Ht), (UnitFacts.split_unit_text Hs).
    cbn [exponent].
    now rewrite (exponent_text_filter t), (exponent_text_filter s), E.
Qed.

Lemma split_unit_partition_witness :
  unit (split_unit (Some ([0xB2%N] ++ js "m")))
  = Some (js "m")
  /\ exponent (split_unit (Some ([0xB2%N] ++ js "m")))
     = exponent (split_unit (Some (js "m" ++ [0xB2%N]))).
Proof.
  assert (H : [0xB2%N] ++ js "m" <> []) by discriminate.
  destruct (split_unit_partition H) as (Hu & _ & He).
  split; [exact Hu|].
  symmetry. apply He; [discriminate | reflexivity].
Defined.

Lemma scan_digits_prefix (ds rest : jsstring) (a : N) :
  Forall (fun c => is_digit c = true) ds ->
  match rest with c :: _ => is_digit c = false | [] => True end ->
  scan_digits 10 (ds ++ rest) (Some a) = Some (digits_value ds a).
Proof.
  intros Hds Hrest; revert a; induction Hds as [|c ds Hc _ IH]; intros a.
  - destruct rest as [|c rest]; [reflexivity|].
    cbn [app scan_digits]. now rewrite digit_value_decimal, Hrest.
  - cbn [app scan_digits]. rewrite digit_value_decimal, Hc, IH. reflexivity.
Qed.

Lemma digits_value_bound (ds : jsstring) (a : N) :
  Forall (fun c => is_digit c = true) ds ->
  (digits_value ds a < (a + 1) * 10 ^ N.of_nat (length ds))%N.
Proof.
  intros Hds; revert a; induction Hds as [|c ds Hc _ IH]; intros a.
  - cbn. lia.
  - cbn [length]. rewrite Nnat.Nat2N.inj_succ, N.pow_succ_r'.
    unfold digits_value in *. cbn [fold_left].
    eapply N.lt_le_trans; [apply IH|].
    unfold is_digit in Hc. apply andb_true_iff in Hc.
    rewrite !N.leb_le in Hc.
    generalize (10 ^ N.of_nat (length ds))%N. intros p. nia.
Qed.

(** X3.  When the glyphs of a unit string read as an optional sign, up to 15
    digits and then nothing or something that is no digit, the exponent
    is the integer of the sign and the digits: a decimal glyph and all
    that follows it are dropped. *)
Theorem split_unit_exponent_value (s sign ds rest : jsstring) :
  exponent_text s = sign ++ ds ++ rest ->
  sign = [] \/ sign = js "-" \/ sign = js "+" ->
  ds <> [] ->
  Forall (fun c => is_digit c = true) ds ->
  (length ds <= 15)%nat ->
  match rest with c :: _ => is_digit c = false | [] => True end ->
  exponent (split_unit (Some s))
  = Int (if jsstring_eqb sign (js "-")
         then - Z.of_N (digits_value ds 0) else Z.of_N (digits_value ds 0)).
Proof.
  intros Ht Hsign Hne Hds Hlen Hrest.
  assert (Hs : s <> []).
  { intros ->. cbn in Ht. destruct sign, ds; try discriminate.
    now elim Hne. }
  assert (Hscan : scan_digits 10 (ds ++ rest) None
                  = Some (digits_value ds 0)).
  { destruct ds as [|c ds]; [now elim Hne|].
    inversion Hds as [|? ? Hc Hds']; subst.
    cbn [app scan_digits]. rewrite digit_value_decimal, Hc.
    now rewrite (scan_digits_prefix _ _ Hds' Hrest). }
  assert (Hsafe : forall z : Z,
            (Z.abs z = Z.of_N (digits_value ds 0))%Z -> round_double z = Int z).
  { intros z Hz. apply round_double_safe.
    unfold safe_integer, max_safe_integer. rewrite Hz.
    pose proof (digits_value_bound 0 Hds) as Hb.
    assert (Hp : (10 ^ N.of_nat (length ds) <= 10 ^ 15)%N)
      by (apply N.pow_le_mono_r; lia).
    change (10 ^ 15)%N with 1000000000000000%N in Hp.
    change (2 ^ 53 - 1)%Z with 9007199254740991%Z. lia. }
  rewrite (UnitFacts.split_unit_text Hs). cbn [exponent].
  pose proof (UnitFacts.exponent_text_chars s) as Hchars.
  rewrite (parseInt_exponent_chars Hchars), Ht.
  assert (Hlen' : (0 <? length (sign ++ ds ++ rest))%nat = true).
  { destruct sign, ds; try (now elim Hne); reflexivity. }
  rewrite Hlen'.
  destruct Hsign as [-> | [-> | ->]].
  - destruct ds as [|c ds']; [now elim Hne|].
    inversion Hds as [|? ? Hc _]; subst.
    assert (H45 : (c =? 45)%N = false /\ (c =? 43)%N = false).
    { unfold is_digit in Hc. apply andb_true_iff in Hc.
      rewrite !N.leb_le in Hc. split; apply N.eqb_neq; lia. }
    destruct H45 as [H45 H43].
    cbn [app]. rewrite H45, H43.
    change (c :: ds' ++ rest) with ((c :: ds') ++ rest).
    rewrite Hscan. change (jsstring_eqb [] (js "-")) with false.
    cbv beta iota. apply Hsafe. lia.
  - change (js "-" ++ ds ++ rest) with (45%N :: ds ++ rest).
    cbv beta iota. change (45 =? 45)%N with true. cbv beta iota.
    rewrite Hscan.
    change (jsstring_eqb (js "-") (js "-")) with true.
    cbv beta iota. apply Hsafe. lia.
  - change (js "+" ++ ds ++ rest) with (43%N :: ds ++ rest).
    cbv beta iota. change (43 =? 45)%N with false.
    change (43 =? 43)%N with true. cbv beta iota. rewrite Hscan.
    change (jsstring_eqb (js "+") (js "-")) with false.
    cbv beta iota. apply Hsafe. lia.
Qed.

Lemma split_unit_exponent_value_witness :
  exponent (split_unit (Some (js "m" ++ [0xB9; 0x22C5; 0x2075]%N))) = Int 1
  /\ exponent (split_unit (Some (js "m" ++ [0x207B; 0xB3]%N))) = Int (-3).
Proof.
  split.
  - apply (@split_unit_exponent_value
             (js "m" ++ [0xB9; 0x22C5; 0x2075]%N) [] (js "1") (js ".5"));
      [reflexivity | now left | discriminate | repeat constructor
      | simpl; lia | reflexivity].
  - apply (@split_unit_exponent_value
             (js "m" ++ [0x207B; 0xB3]%N) (js "-") (js "3") []);
      [reflexivity | right; now left | discriminate | repeat constructor
      | simpl; lia | exact I].
Defined.

End UnitMore.

(** ** More on [render_plot] *)

Section RenderMore.

Variable num : Type.
Variable one nan : num.
Variable mul : num -> num -> num.
Variable pow : num -> number -> num.
Variable convert : jsvalue -> jsstring -> result num.

Local Abbreviation render_series := (Plot.render_series nan mul).
Local Abbreviation dataset := (Plot.dataset nan mul).
Local Abbreviation scale_factors := (Plot.scale_factors one pow convert).
Local Abbreviation descr_body := (Plot.descr_body one nan mul pow convert).
Local Abbreviation render_plot := (Plot.render_plot one nan mul pow convert).
Local Abbreviation loop := (for_each descr_body).

(** X4.  What a series is drawn as.  The callback pushes a line if the style
    holds the line character, then a symbol plot if it holds a symbol code,
    the last symbol code deciding; both are painted in the colour of the
    last colour code, or by the colour scale under the name of the series
    if there is none. *)
Theorem render_series_shape (sx sy : num) (item : Series.t num)
  (out : list (plot num) * option symbol_factory) :
  render_series sx sy item = Ok out ->
  let cs := code_points (Plot.style_of item) in
  let paint := match style_color cs with
               | Some c => Constant c
               | None => Scaled (Series.name item)
               end in
  out = ((if style_line cs then [Line (dataset sx sy item) paint] else [])
         ++ match style_symbol cs with
            | Some f => [Scatter (dataset sx sy item) f paint paint]
            | None => []
            end,
         style_symbol cs)
  /\ (length (fst out) <= 2)%nat.
Proof using Type. apply render_series_result. Qed.

(** What the loop over the descriptors has pushed when it ends. *)
Lemma loop_outputs (ds : list (Descr.t num)) (v out : Locals.t num) :
  loop v ds = Ok out ->
  exists outs,
    Forall2 (fun item o => exists sx sy, render_series sx sy item = Ok o)
      (all_series ds) outs
    /\ Locals.plots out = Locals.plots v ++ concat (map fst outs)
    /\ Locals.symbols out = Locals.symbols v ++ map snd outs.
Proof using Type.
  revert v; induction ds as [|d ds IH]; intros v; simpl.
  - intros [= <-]. exists []. simpl. rewrite !app_nil_r.
    split; [constructor | split; reflexivity].
  - destruct (descr_body v d) as [v1|e] eqn:E; simpl; [|discriminate].
    intros H. apply IH in H. destruct H as (outs2 & HF2 & Hp2 & Hs2).
    apply descr_body_ok in E.
    destruct E as (_ & _ & sx & sy & outs1 & _ & HF1 & Hp1 & Hs1).
    exists (outs1 ++ outs2). split; [|split].
    + apply Forall2_app; [|exact HF2].
      eapply Forall2_impl; [|exact HF1]. intros item o Ho.
      exists sx, sy. exact Ho.
    + now rewrite Hp2, Hp1, map_app, concat_app, <- app_assoc.
    + now rewrite Hs2, Hs1, map_app, <- app_assoc.
Qed.

(** X5.  The symbols that the legend reads.  After a render, [symbols] holds one
    entry for every series of every descriptor, in the order drawn: the
    symbol of the series, or nothing.  The legend entry [index] therefore
    shows the symbol of the series number [index], and a circle when that
    series has no symbol or does not exist; and there are at most two
    plots for each series. *)
Theorem render_plot_symbols (ds : list (Descr.t num)) (unit0 : jsvalue)
  (out : Locals.t num) :
  render_plot ds unit0 = Ok out ->
  Locals.symbols out
  = map (fun item => style_symbol (code_points (Plot.style_of item)))
      (all_series ds)
  /\ (forall index,
        legend_symbol (Locals.symbols out) index
        = match nth_error (all_series ds) index with
          | Some item =>
              match style_symbol (code_points (Plot.style_of item)) with
              | Some f => f
              | None => circle
              end
          | None => circle
          end)
  /\ (length (Locals.plots out) <= 2 * length (all_series ds))%nat.
Proof using Type.
  intros H. apply render_plot_loop, loop_outputs in H.
  destruct H as (outs & HF & Hp & Hs).
  cbn in Hp, Hs.
  assert (Hsym : map snd outs
                 = map (fun item =>
                          style_symbol (code_points (Plot.style_of item)))
                     (all_series ds)
                 /\ (length (concat (map fst outs))
                     <= 2 * length (all_series ds))%nat).
  { clear Hp Hs. induction HF as [|item o items outs (sx & sy & Ho) _ IH];
      [split; [reflexivity | simpl; lia]|].
    destruct IH as [IH1 IH2].
    apply render_series_result in Ho. destruct Ho as [Ho Hlen].
    split.
    - cbn [map]. rewrite IH1. f_equal. now rewrite Ho.
    - cbn [map concat length]. rewrite length_app. lia. }
  destruct Hsym as [Hsym Hlen].
  rewrite Hs, Hp, Hsym. split; [reflexivity|]. split; [|exact Hlen].
  intros index. unfold legend_symbol. rewrite nth_error_map.
  destruct (nth_error (all_series ds) index); reflexivity.
Qed.

Lemma descr_body_fields (v v' : Locals.t num) (d : Descr.t num) :
  descr_body v d = Ok v' ->
  let unit := Plot.default_unit (Locals.unit v) (xunit_of d) in
  Locals.x_scale v'
  = Plot.or_else (Locals.x_scale v) (Plot.new_scale (Descr.xscale d))
  /\ Locals.y_scale v'
     = Plot.or_else (Locals.y_scale v) (Plot.new_scale (Descr.yscale d))
  /\ Locals.x_axis_label v'
     = Plot.or_else (Locals.x_axis_label v)
         (Plot.axis_label (Descr.xlabel d) unit (xunit_of d))
  /\ Locals.y_axis_label v'
     = Plot.or_else (Locals.y_axis_label v)
         (Plot.axis_label (Descr.ylabel d) unit (yunit_of d))
  /\ Locals.color_scale v'
     = Plot.or_else (Locals.color_scale v)
         (map (@Series.name num) (Descr.series d)).
Proof using Type.
  unfold Plot.descr_body. fold (xunit_of d) (yunit_of d).
  destruct (loose_eqb _ _); simpl; [|discriminate].
  destruct (scale_factors _ _ _) as [[sx sy]|e]; simpl; [|discriminate].
  destruct (for_each _ _ _) as [[plots symbols]|e]; simpl; [|discriminate].
  intros [= <-]. simpl. repeat split.
Qed.

Lemma or_else_some {A} (a b : A) : Plot.or_else (Some a) b = Some a.
Proof using Type. reflexivity. Qed.

Lemma descr_body_settled (v v' : Locals.t num) (d : Descr.t num) :
  descr_body v d = Ok v' -> settled v v'.
Proof using Type.
  intros H. apply descr_body_fields in H.
  destruct H as (H1 & H2 & H3 & H4 & H5).
  unfold settled. rewrite H1, H2, H3, H4, H5.
  repeat split; intros ? ->; reflexivity.
Qed.

Lemma loop_settled (ds : list (Descr.t num)) (v out : Locals.t num) :
  loop v ds = Ok out -> settled v out.
Proof using Type.
  revert v; induction ds as [|d ds IH]; intros v; simpl.
  - intros [= <-]. unfold settled. tauto.
  - destruct (descr_body v d) as [v1|e] eqn:E; simpl; [|discriminate].
    intros H. apply IH in H. apply descr_body_settled in E.
    unfold settled in *.
    destruct E as (E1 & E2 & E3 & E4 & E5), H as (H1 & H2 & H3 & H4 & H5).
    repeat split; eauto.
Qed.


Lemma for_each_throw {S A} (body : S -> A -> result S) (s : S) (l : list A)
  (e : exn) :
  for_each body s l = Throw e ->
  exists pre a post s1,
    l = pre ++ a :: post /\ for_each body s pre = Ok s1
    /\ body s1 a = Throw e.
Proof using Type.
  revert s; induction l as [|a l IH]; intros s; simpl; [discriminate|].
  destruct (body s a) as [s'|e'] eqn:E; simpl.
  - intros H. apply IH in H. destruct H as (pre & b & post & s1 & -> & H1 & H2).
    exists (a :: pre), b, post, s1. simpl. rewrite E. simpl. auto.
  - intros [= <-]. exists [], a, l, s. auto.
Qed.

Lemma render_series_error (sx sy : num) (item : Series.t num) (e : exn) :
  render_series sx sy item = Throw e ->
  e = Plot.style_error (Plot.style_of item).
Proof using Type.
  intros H. apply render_series_throw in H.
  destruct (bool_Forall_or_Exists recognized
              (code_points (Plot.style_of item))) as [F|E].
  - destruct (style_loop_ok (Plot.style_of item)
                {| Plot.line := false; Plot.color := None;
                   Plot.symbol := None |} F) as [v Hv].
    congruence.
  - rewrite (style_loop_throw _ _ E) in H. congruence.
Qed.

Lemma descr_body_error (v : Locals.t num) (d : Descr.t num) (e : exn) :
  descr_body v d = Throw e ->
  e = Plot.unit_mismatch
  \/ (exists item, In item (Descr.series d)
                   /\ e = Plot.style_error (Plot.style_of item))
  \/ (exists u, u <> []
                /\ Plot.default_unit (Locals.unit v) (xunit_of d) = Some u
                /\ convert (Unit.unit (xunit_of d)) u = Throw e).
Proof using Type.
  unfold Plot.descr_body. fold (xunit_of d) (yunit_of d).
  destruct (loose_eqb _ _); simpl; [|intros [= <-]; now left].
  destruct (scale_factors _ _ _) as [[sx sy]|e'] eqn:Esf; simpl.
  - destruct (for_each _ _ _) as [[plots symbols]|e2] eqn:L; simpl;
      [discriminate|].
    intros [= <-]. right; left.
    apply for_each_throw in L.
    destruct L as (pre & item & post & acc & Hitems & _ & Hbody).
    exists item. split; [rewrite Hitems; apply in_elt|].
    unfold Plot.push_series in Hbody.
    destruct (render_series sx sy item) as [[pushed sym]|e3] eqn:R;
      simpl in Hbody; [discriminate|].
    injection Hbody as <-. exact (render_series_error _ _ _ R).
  - intros [= <-]. right; right.
    unfold Plot.scale_factors in Esf.
    destruct (Plot.default_unit (Locals.unit v) (xunit_of d))
      as [[|c u]|]; try discriminate.
    exists (c :: u). split; [discriminate|]. split; [reflexivity|].
    destruct (convert (Unit.unit (xunit_of d)) (c :: u)); simpl in Esf;
      [discriminate | congruence].
Qed.

(** X7.  The errors of a render.  With no descriptor [render_plot] throws
    the error of the legend, which finds no colour scale.  With
    descriptors, what it throws is the unit mismatch error, the style
    error of one of the series, or an error that the conversion of a
    descriptor's base unit threw; and a conversion that throws in a
    descriptor makes the render throw its error, when the descriptors
    before rendered and the units of this one match. *)
Theorem render_plot_errors (ds : list (Descr.t num)) (unit0 : jsvalue) :
  (ds = [] -> render_plot ds unit0 = Throw Plot.legend_error)
  /\ (forall e, render_plot ds unit0 = Throw e ->
      (ds = [] /\ e = Plot.legend_error)
      \/ (ds <> []
          /\ (e = Plot.unit_mismatch
              \/ (exists d item, In d ds /\ In item (Descr.series d)
                                 /\ e = Plot.style_error (Plot.style_of item))
              \/ (exists d u, In d ds /\ u <> []
                              /\ convert (Unit.unit (xunit_of d)) u
                                 = Throw e))))
  /\ (forall pre d post v u e,
        ds = pre ++ d :: post ->
        loop (Plot.initial num unit0) pre = Ok v ->
        loose_eqb (Unit.unit (xunit_of d)) (Unit.unit (yunit_of d)) = true ->
        Plot.default_unit (Locals.unit v) (xunit_of d) = Some u ->
        u <> [] ->
        convert (Unit.unit (xunit_of d)) u = Throw e ->
        render_plot ds unit0 = Throw e).
Proof using Type.
  split; [|split].
  - intros ->. reflexivity.
  - intros e H. apply render_plot_throw in H.
    destruct H as [H|H]; [right | now left].
    apply for_each_throw in H.
    destruct H as (pre & d & post & v & -> & _ & Hbody).
    split; [destruct pre; discriminate|].
    apply descr_body_error in Hbody.
    destruct Hbody as [->|[(item & Hin & ->)|(u & Hu & _ & Hc)]].
    + now left.
    + right; left. exists d, item. split; [apply in_elt | auto].
    + right; right. exists d, u. split; [apply in_elt | auto].
  - intros pre d post v u e -> Hpre Heq Hunit Hu Hconv.
    apply render_plot_loop_throw.
    rewrite for_each_app, Hpre. cbn [bind for_each].
    unfold Plot.descr_body. fold (xunit_of d) (yunit_of d).
    rewrite Heq, Hunit. cbn [negb]. unfold Plot.scale_factors.
    destruct u as [|c u]; [now elim Hu|]. rewrite Hconv. reflexivity.
Qed.

Lemma push_series_total (sx sy : num) (items : list (Series.t num))
  (acc : list (plot num) * list (option symbol_factory)) :
  (forall item, In item items ->
     Forall (fun c => recognized c = true)
       (code_points (Plot.style_of item))) ->
  exists acc', for_each (Plot.push_series nan mul sx sy) acc items = Ok acc'.
Proof using Type.
  revert acc; induction items as [|item items IH]; intros acc H; simpl;
    [eauto|].
  unfold Plot.push_series at 1. unfold Plot.render_series.
  destruct (style_loop_ok (Plot.style_of item)
              {| Plot.line := false; Plot.color := None;
                 Plot.symbol := None |} (H item (or_introl eq_refl)))
    as [v ->].
  simpl. apply IH. intros i Hi. apply H. now right.
Qed.

(** X8.  When a render returns.  [render_plot] ends normally when there
    is a descriptor, in every descriptor the base units of the two axes
    are equal, every style is made of characters the style loop knows, and
    the conversion returns for every base unit towards the caller's unit
    and towards the base units of the descriptors; and it never ends
    normally without a descriptor. *)
Theorem render_plot_succeeds (ds : list (Descr.t num)) (unit0 : jsvalue) :
  ds <> [] ->
  (forall d, In d ds ->
     loose_eqb (Unit.unit (xunit_of d)) (Unit.unit (yunit_of d)) = true) ->
  (forall d item, In d ds -> In item (Descr.series d) ->
     Forall (fun c => recognized c = true)
       (code_points (Plot.style_of item))) ->
  (forall d u, In d ds -> u <> [] ->
     unit0 = Some u \/ (exists d', In d' ds /\ Unit.unit (xunit_of d') = Some u)
     -> exists r, convert (Unit.unit (xunit_of d)) u = Ok r) ->
  (exists out, render_plot ds unit0 = Ok out)
  /\ forall unit1 out, render_plot [] unit1 <> Ok out.
Proof using Type.
  intros Hds Hunits Hstyles Hconv.
  split; [|intros unit1 out H; apply render_plot_ok in H; now destruct H].
  assert (Hgen : forall ds' v,
            incl ds' ds ->
            (forall u, Locals.unit v = Some u -> u <> [] ->
               unit0 = Some u
               \/ exists d', In d' ds /\ Unit.unit (xunit_of d') = Some u) ->
            exists out, loop v ds' = Ok out).
  { induction ds' as [|d ds' IH]; intros v Hincl Hinv; simpl; [eauto|].
    assert (Hd : In d ds) by (apply Hincl; now left).
    assert (Hinv' : forall u,
              Plot.default_unit (Locals.unit v) (xunit_of d) = Some u ->
              u <> [] ->
              unit0 = Some u
              \/ exists d', In d' ds /\ Unit.unit (xunit_of d') = Some u).
    { intros u Hu Hne. unfold Plot.default_unit in Hu.
      destruct (truthy (Locals.unit v)); simpl in Hu; [now apply Hinv|].
      right. exists d. auto. }
    assert (Hsf : exists sx sy,
              scale_factors (Plot.default_unit (Locals.unit v) (xunit_of d))
                (xunit_of d) (yunit_of d) = Ok (sx, sy)).
    { unfold Plot.scale_factors.
      destruct (Plot.default_unit (Locals.unit v) (xunit_of d))
        as [[|c u]|] eqn:U; eauto.
      destruct (Hconv d (c :: u) Hd ltac:(discriminate)
                  (Hinv' _ eq_refl ltac:(discriminate))) as [r ->].
      simpl. eauto. }
    destruct Hsf as (sx & sy & Hsf).
    destruct (push_series_total sx sy (Descr.series d)
                (Locals.plots v, Locals.symbols v)
                (fun item Hi => Hstyles d item Hd Hi)) as [[plots symbols] Hp].
    unfold Plot.descr_body at 1. fold (xunit_of d) (yunit_of d).
    rewrite (Hunits d Hd), Hsf. cbn [negb bind]. rewrite Hp. cbn [bind].
    apply IH.
    - intros x Hx. apply Hincl. now right.
    - cbn [Locals.unit]. exact Hinv'. }
  destruct (Hgen ds (Plot.initial num unit0)) as [out Hout];
    [apply incl_refl | intros u Hu _; cbn in Hu; now left |].
  exists out. apply render_plot_ok. auto.
Qed.

(** X9.  Descriptors that follow do not change what was drawn.  A render of
    [ds1 ++ ds2] that returns, with [ds1] not empty, has rendered [ds1] as
    a render of [ds1] alone does: the same plots and symbols first, and
    the same axes, labels and colour scale; a unit that [ds1] has set is
    the unit at the end. *)
Theorem render_plot_prefix (ds1 ds2 : list (Descr.t num)) (unit0 : jsvalue)
  (out : Locals.t num) :
  ds1 <> [] ->
  render_plot (ds1 ++ ds2) unit0 = Ok out ->
  exists out1 more_plots more_symbols,
    render_plot ds1 unit0 = Ok out1
    /\ Locals.plots out = Locals.plots out1 ++ more_plots
    /\ Locals.symbols out = Locals.symbols out1 ++ more_symbols
    /\ (truthy (Locals.unit out1) = true -> Locals.unit out = Locals.unit out1)
    /\ Locals.x_scale out = Locals.x_scale out1
    /\ Locals.y_scale out = Locals.y_scale out1
    /\ Locals.x_axis_label out = Locals.x_axis_label out1
    /\ Locals.y_axis_label out = Locals.y_axis_label out1
    /\ Locals.color_scale out = Locals.color_scale out1.
Proof using Type.
  intros Hne H. apply render_plot_loop in H. revert H.
  rewrite for_each_app.
  destruct (loop (Plot.initial num unit0) ds1) as [out1|e] eqn:H1; simpl;
    [|discriminate].
  intros H2. pose proof H2 as Hout. apply loop_outputs in Hout.
  destruct Hout as (outs & _ & Hp & Hs).
  exists out1, (concat (map fst outs)), (map snd outs).
  split; [apply render_plot_ok; auto|]. split; [exact Hp|].
  split; [exact Hs|].
  split; [intros T; eapply loop_unit_sticky; eassumption|].
  destruct ds1 as [|d ds1]; [now elim Hne|].
  cbn [for_each] in H1.
  destruct (descr_body (Plot.initial num unit0) d) as [v1|e] eqn:E;
    simpl in H1; [|discriminate].
  apply descr_body_fields in E. cbn in E.
  destruct E as (E1 & E2 & E3 & E4 & E5).
  apply loop_settled in H1. apply loop_settled in H2.
  destruct H1 as (A1 & A2 & A3 & A4 & A5), H2 as (B1 & B2 & B3 & B4 & B5).
  rewrite (B1 _ (A1 _ E1)), (A1 _ E1), (B2 _ (A2 _ E2)), (A2 _ E2),
    (B3 _ (A3 _ E3)), (A3 _ E3), (B4 _ (A4 _ E4)), (A4 _ E4),
    (B5 _ (A5 _ E5)), (A5 _ E5).
  repeat split.
Qed.

(** X10.  The points of a series are counted by [item.y].  The dataset has one
    point for every entry of [item.y]; entries of [item.x] beyond that are
    not drawn, and where [item.x] has no entry the x coordinate is the
    product of the scale factor and NaN. *)
Theorem dataset_bounds (sx sy : num) (item : Series.t num) :
  length (dataset sx sy item) = length (Series.y item)
  /\ (forall i, (length (Series.y item) <= i)%nat ->
        nth_error (dataset sx sy item) i = None)
  /\ (forall i yi, nth_error (Series.y item) i = Some yi ->
        (length (Series.x item) <= i)%nat ->
        nth_error (dataset sx sy item) i
        = Some {| Point.x := mul sx nan; Point.y := mul sy yi |}).
Proof using Type.
  unfold Plot.dataset. split; [apply map_index_length|]. split.
  - intros i Hi. apply nth_error_None. now rewrite map_index_length.
  - intros i yi Hy Hx. rewrite map_index_nth_error, Hy. simpl.
    now rewrite (nth_overflow _ _ Hx).
Qed.

End RenderMore.

(** ** Polling for the plot data *)

Section PollingFacts.

Import Polling.

Variable num : Type.
Variable one nan : num.
Variable mul : num -> num -> num.
Variable pow : num -> number -> num.
Variable convert : jsvalue -> jsstring -> result num.

Local Abbreviation render_plot := (Plot.render_plot one nan mul pow convert).
Local Abbreviation when_settled :=
  (Polling.when_settled one nan mul pow convert).
Local Abbreviation ready :=
  (fun data : Response.t num =>
     waiting data = false
     /\ TaskResult.error (Response.result data) = None).

Lemma done_loop_none (unit : jsvalue) (data_array : list (Response.t num)) :
  done_loop unit data_array = None <-> Forall ready data_array.
Proof using Type.
  induction data_array as [|data rest IH]; simpl.
  - split; [constructor | reflexivity].
  - destruct (waiting data) eqn:W.
    + split; [discriminate|]. intros H. inversion H as [|? ? [H1 _] _].
      congruence.
    + destruct (TaskResult.error (Response.result data)) as [e|] eqn:E.
      * split; [discriminate|]. intros H. inversion H as [|? ? [_ H1] _].
        congruence.
      * rewrite IH. split; [now constructor|]. intros H. now inversion H.
Qed.

Lemma done_loop_first (unit : jsvalue) (pre : list (Response.t num))
  (data : Response.t num) (post : list (Response.t num)) :
  Forall ready pre ->
  done_loop unit (pre ++ data :: post) = done_loop unit (data :: post).
Proof using Type.
  induction 1 as [|d pre [W E] _ IH]; [reflexivity|].
  cbn [app done_loop]. now rewrite W, E.
Qed.

Lemma after_calls_unit (unit : jsvalue) (later : list jsvalue) :
  done_func_unit (after_calls unit later) = last later unit.
Proof using Type.
  unfold after_calls.
  assert (H : forall g, done_func_unit (fold_left (fun _ u => plot u) later g)
                        = last later (done_func_unit g)).
  { induction later as [|u later IH]; intros g; [reflexivity|].
    cbn [fold_left]. rewrite IH. cbn [plot done_func_unit].
    destruct later as [|x later]; [reflexivity|].
    change (last (u :: x :: later) (done_func_unit g))
      with (last (x :: later) (done_func_unit g)).
    clear. revert x. induction later as [|y later IH]; intros x;
      [reflexivity|].
    change (last (x :: y :: later) u) with (last (y :: later) u).
    change (last (x :: y :: later) (done_func_unit g))
      with (last (y :: later) (done_func_unit g)).
    apply IH. }
  apply H.
Qed.

(** X11.  What happens when the requests of a call of [plot] have brought
    their responses.  [done_func] is shared by all calls, so the responses
    are handled with the unit of the latest call of [plot] made so far:
    the unit of the call itself only if no other call followed it.  With
    that unit, the chart is drawn, from the results in their order,
    exactly when no task is pending or started and no result carries an
    error; only then is the spinner hidden.  Otherwise the first response
    that is not ready decides: a waiting task makes [plot] be called again
    with that unit, an error is shown as the server's error.  With no
    response at all the render throws the error of the legend. *)
Theorem plot_outcome (unit : jsvalue) (later : list jsvalue)
  (data_array : list (Response.t num)) :
  let g := after_calls unit later in
  let u := last later unit in
  (forall chart,
     when_settled g (Some data_array) = Ok (Chart chart, false)
     <-> Forall ready data_array
         /\ render_plot
              (map (fun data => TaskResult.descr (Response.result data))
                 data_array) u = Ok chart)
  /\ (forall effect,
        when_settled g (Some data_array) = Ok (effect, false) ->
        exists chart, effect = Chart chart)
  /\ (forall pre data post,
        data_array = pre ++ data :: post ->
        Forall ready pre ->
        (waiting data = true ->
         when_settled g (Some data_array) = Ok (Retry num u, true))
        /\ (forall e,
              waiting data = false ->
              TaskResult.error (Response.result data) = Some e ->
              when_settled g (Some data_array)
              = Ok (Message num (js "Server reported error: " ++ to_text e),
                    true)))
  /\ (data_array = [] ->
      when_settled g (Some data_array) = Throw Plot.legend_error).
Proof using Type.
  intros g u. unfold Polling.when_settled. subst g.
  rewrite after_calls_unit. fold u. unfold done_func.
  split; [|split; [|split]].
  - intros chart. pose proof (done_loop_none u data_array) as Hn.
    destruct (done_loop u data_array) as [eff|].
    + split; [discriminate|]. intros [H _]. apply Hn in H. discriminate.
    + destruct (render_plot _ u) as [c|e]; simpl.
      * split; [intros [= <-]; split; [now apply Hn | reflexivity]|].
        now intros [_ [= <-]].
      * split; [discriminate | now intros [_ H]].
  - intros effect. destruct (done_loop u data_array) as [eff|];
      [discriminate|].
    destruct (render_plot _ u) as [c|e]; simpl; [|discriminate].
    intros [= <-]. eauto.
  - intros pre data post -> Hpre. rewrite (done_loop_first _ _ _ Hpre).
    cbn [done_loop]. split.
    + now intros ->.
    + intros e -> ->. reflexivity.
  - intros ->. reflexivity.
Qed.

End PollingFacts.

(** X12.  The unit of a clicked entry is the last two code units of its text,
    and the whole text when that is shorter: it never has more than two
    code units. *)
Theorem clicked_unit_suffix (t : jsstring) :
  Polling.clicked_unit t = skipn (length t - 2) t
  /\ length (Polling.clicked_unit t) = Nat.min 2 (length t)
  /\ t = firstn (length t - 2) t ++ Polling.clicked_unit t.
Proof.
  assert (H : Polling.clicked_unit t = skipn (length t - 2) t).
  { unfold Polling.clicked_unit, Polling.slice.
    destruct (Z.ltb_spec (Z.of_nat (length t) - 2) 0) as [Hlt|Hge].
    - destruct (Z.ltb_spec (Z.of_nat (length t)) 0) as [Hn|_]; [lia|].
      replace (Z.max (Z.of_nat (length t) + (Z.of_nat (length t) - 2)) 0)
        with 0%Z by lia.
      replace (length t - 2)%nat with 0%nat by lia.
      cbn [Z.to_nat skipn].
      rewrite Z.min_id, Z.sub_0_r, Z.max_l, Nat2Z.id by lia.
      apply firstn_all.
    - destruct (Z.ltb_spec (Z.of_nat (length t)) 0) as [Hn|_]; [lia|].
      rewrite Z.min_id, Z.min_l by lia.
      replace (Z.to_nat (Z.of_nat (length t) - 2)) with (length t - 2)%nat
        by lia.
      apply firstn_all2. rewrite length_skipn. lia. }
  rewrite H. split; [reflexivity|]. split.
  - rewrite length_skipn. lia.
  - symmetry. apply firstn_skipn.
Qed.

(** ** The analysis cards *)

Section CardFacts.

Import Card.

Variable error_message : jsstring -> N -> N -> jsstring.

Local Abbreviation submit := (submit_analyses_card_ajax error_message).

(** X13.  The wait indicator shows between one and nine dots and starts again
    with one dot at every ninth call. *)
Theorem dots_cycle (call_count : N) :
  (1 <= length (dots call_count) <= 9)%nat
  /\ dots (call_count + 9) = dots call_count
  /\ Forall (fun c => c = 46%N) (dots call_count).
Proof using Type.
  unfold dots. rewrite repeat_length.
  split; [|split].
  - pose proof (N.mod_lt call_count 9 ltac:(discriminate)) as Hm.
    revert Hm. generalize (call_count mod 9)%N. intros m Hm. lia.
  - replace ((call_count + 9) mod 9)%N with (call_count mod 9)%N;
      [reflexivity|].
    rewrite <- (N.Div0.mod_add call_count 1 9). f_equal.
  - apply Forall_forall. intros c Hc. now apply repeat_spec in Hc.
Qed.

Lemma submit_later (datas : list jsstring) (final : jsstring)
  (rest : list reply) (c : N) (p : page) :
  c <> 0%N ->
  submit (map (Success 202) datas ++ Success 200 final :: rest) (Some c) p
  = {| inserted := inserted p ++ [final];
       indicator := Some (js "Please wait"
                          ++ dots (c + N.of_nat (length datas)));
       alert := alert p |}.
Proof using Type.
  revert c p; induction datas as [|data datas IH]; intros c p Hc.
  - cbn [map app submit_analyses_card_ajax length N.of_nat].
    rewrite N.add_0_r. cbn. rewrite orb_true_r. reflexivity.
  - cbn [map app submit_analyses_card_ajax].
    destruct (N.eqb_spec 0 c) as [E|_]; [now elim Hc|].
    cbn [orb N.eqb Pos.eqb]. rewrite IH by lia. cbn [inserted alert].
    replace (c + 1 + N.of_nat (length datas))%N
      with (c + N.of_nat (length (data :: datas)))%N
      by (cbn [length]; lia).
    reflexivity.
Qed.


End CardFacts.

(** ** Aborting requests on leaving the page *)

Lemma pool_after_snoc (events : list Pool.event) (e : Pool.event) :
  Pool.pool_after (events ++ [e])
  = Pool.handle (Pool.pool_after events) e.
Proof. unfold Pool.pool_after. now rewrite fold_left_app. Qed.

Lemma snoc_split {A} (l pre post : list A) (a b : A) :
  l ++ [a] = pre ++ b :: post ->
  (post = [] /\ a = b /\ l = pre)
  \/ (exists post', post = post' ++ [a] /\ l = pre ++ b :: post').
Proof.
  destruct post as [|c post] using rev_ind.
  - intros H. apply app_inj_tail in H. left. intuition.
  - clear IHpost. intros H. right. exists post.
    change (pre ++ b :: post ++ [c]) with (pre ++ (b :: post) ++ [c]) in H.
    rewrite app_assoc in H. apply app_inj_tail in H.
    destruct H as [-> ->]. auto.
Qed.

(** The pool holds the requests that are under way: a request is in the
    pool exactly when it was sent and has not completed since. *)
Lemma pool_after_spec (events : list Pool.event) (x : Pool.request) :
  In x (Pool.pool_after events)
  <-> exists pre post,
        events = pre ++ Pool.Send x :: post
        /\ ~ In (Pool.Complete x) post.
Proof.
  induction events as [|e events IH] using rev_ind.
  - split; [intros []|]. intros (pre & post & H & _).
    destruct pre; discriminate.
  - rewrite pool_after_snoc. destruct e as [y|y]; cbn [Pool.handle].
    + unfold Pool.ajaxSend. rewrite in_app_iff, IH. split.
      * intros [(pre & post & -> & Hn)|[->|[]]].
        -- exists pre, (post ++ [Pool.Send y]). rewrite <- app_assoc.
           split; [reflexivity|]. rewrite in_app_iff.
           intros [H|[H|[]]]; [auto | discriminate].
        -- exists events, []. auto.
      * intros (pre & post & H & Hn). apply snoc_split in H.
        destruct H as [(-> & [= ->] & ->)|(post' & -> & ->)].
        -- right; now left.
        -- left. exists pre, post'. split; [reflexivity|].
           intros Hin. apply Hn. rewrite in_app_iff. now left.
    + unfold Pool.ajaxComplete. rewrite filter_In, IH. split.
      * intros [(pre & post & -> & Hn) Hy].
        exists pre, (post ++ [Pool.Complete y]). rewrite <- app_assoc.
        split; [reflexivity|]. rewrite in_app_iff.
        intros [H|[[= ->]|[]]]; [auto|].
        rewrite N.eqb_refl in Hy. discriminate.
      * intros (pre & post & H & Hn). apply snoc_split in H.
        destruct H as [(_ & [=] & _)|(post' & -> & ->)].
        split.
        -- exists pre, post'. split; [reflexivity|].
           intros Hin. apply Hn. rewrite in_app_iff. now left.
        -- destruct (N.eqb_spec x y) as [->|_]; [|reflexivity].
           elim Hn. rewrite in_app_iff. right; now left.
Qed.

Lemma pool_after_sent (events : list Pool.event) :
  incl (Pool.pool_after events) (sent events)
  /\ (NoDup (sent events) -> NoDup (Pool.pool_after events)).
Proof.
  induction events as [|e events [IHi IHn]] using rev_ind.
  - split; [apply incl_refl | constructor].
  - rewrite pool_after_snoc. unfold sent in *. rewrite flat_map_app.
    destruct e as [y|y]; cbn [Pool.handle flat_map app].
    + unfold Pool.ajaxSend. split.
      * apply incl_app; [now apply incl_appl|].
        apply incl_appr, incl_refl.
      * intros H. apply NoDup_remove in H. rewrite app_nil_r in H.
        destruct H as [Hn Hy].
        apply NoDup_app; [auto | repeat constructor; intros [] |].
        intros a Ha [<-|[]]. apply Hy. now apply IHi.
    + rewrite app_nil_r. unfold Pool.ajaxComplete. split.
      * intros a Ha. apply filter_In in Ha. now apply IHi.
      * intros H. now apply NoDup_filter, IHn.
Qed.

(** X15.  Leaving the page.  The new handler returns what the handler it
    replaced returns.  If that asks for no prompt, [abort()] is called
    on the requests that were sent and have not completed, and on no
    other, once on each when no request is sent twice; if it asks for a
    prompt, nothing is aborted. *)
Theorem page_leave (oldbeforeunload : option Pool.answer)
  (events : list Pool.event) :
  let r := fst (Pool.onbeforeunload oldbeforeunload
                  (Pool.pool_after events)) in
  let aborted := snd (Pool.onbeforeunload oldbeforeunload
                        (Pool.pool_after events)) in
  r = match oldbeforeunload with Some r => r | None => Pool.Undefined end
  /\ (Pool.no_prompt r = true ->
      (forall x, In x aborted
                 <-> exists pre post,
                       events = pre ++ Pool.Send x :: post
                       /\ ~ In (Pool.Complete x) post)
      /\ (NoDup (sent events) -> NoDup aborted))
  /\ (Pool.no_prompt r = false -> aborted = []).
Proof.
  unfold Pool.onbeforeunload. cbn [fst snd].
  split; [reflexivity|]. split.
  - intros ->. unfold Pool.abort_all_ajax_calls.
    split; [intros x; apply pool_after_spec|].
    apply pool_after_sent.
  - now intros ->.
Qed.

(** ** The [bokeh-plot] component *)

Section BokehFacts.

Import Bokeh.

Variable value : Type.
Variable undefined null : value.
Variable of_bool : bool -> value.
Variable to_boolean : value -> bool.
Variable to_string : value -> jsstring.
Variable same_value_zero : value -> value -> bool.
Variable inherited : jsstring -> option value.

Local Abbreviation has := (Bokeh.has inherited).
Local Abbreviation get := (Bokeh.get undefined inherited).
Local Abbreviation includes := (Bokeh.includes same_value_zero).
Local Abbreviation scan_source :=
  (Bokeh.scan_source undefined null to_boolean to_string same_value_zero
     inherited).
Local Abbreviation created :=
  (Bokeh.created undefined null to_boolean to_string same_value_zero
     inherited).
Local Abbreviation created_from :=
  (Bokeh.created_from undefined null to_boolean to_string same_value_zero
     inherited).
Local Abbreviation refresh :=
  (Bokeh.refresh undefined of_bool to_boolean same_value_zero inherited).
Local Abbreviation refreshPlot :=
  (Bokeh.refreshPlot undefined of_bool to_boolean same_value_zero inherited).
Local Abbreviation mounted :=
  (Bokeh.mounted undefined to_boolean inherited).
Local Abbreviation selected :=
  (Bokeh.selected undefined same_value_zero inherited).
Local Abbreviation scanning :=
  (scanned undefined null to_boolean same_value_zero inherited).
Local Abbreviation empty_scan :=
  {| titles := @nil value; scan_elements := []; scan_selection := [] |}.
Local Abbreviation missing_key c d :=
  (Error (js "Key '" ++ name c ++ js "' not found in data source '"
          ++ to_string (get (js "name") d) ++ js "'.")).

Lemma includes_app (l1 l2 : list value) (v : value) :
  includes (l1 ++ l2) v = includes l1 v || includes l2 v.
Proof using Type. apply existsb_app. Qed.

Lemma ForallOrdPairs_snoc {A} (R : A -> A -> Prop) (l : list A) (a : A) :
  ForallOrdPairs R l -> Forall (fun b => R b a) l ->
  ForallOrdPairs R (l ++ [a]).
Proof using Type.
  induction 1 as [|b l Hb _ IH]; intros H.
  - repeat constructor.
  - inversion H as [|? ? Hba Hl]; subst. cbn [app]. constructor.
    + apply Forall_app. split; [exact Hb | now constructor].
    + now apply IH.
Qed.

(** What one turn of the scan keeps and adds. *)
Lemma scan_source_ok (index : nat) (c : category value)
  (s s' : scan value)
  (d : dict value) :
  scan_source index c s d = Ok s' ->
  has (name c) d = true
  /\ ((includes (titles s) (get (name c) d) = true /\ s' = s)
      \/ (includes (titles s) (get (name c) d) = false
          /\ titles s' = titles s ++ [get (name c) d]
          /\ scan_elements s'
             = scan_elements s
               ++ [{| element_title := get (name c) d;
                      color := if (index =? 0)%nat
                               then get (js "color") d else null |}]
          /\ scan_selection s'
             = if to_boolean (get (js "visible") d)
               then scan_selection s ++ [get (name c ++ js "_index") d]
               else scan_selection s)).
Proof using Type.
  unfold Bokeh.scan_source.
  destruct (has (name c) d); cbn [negb]; [|discriminate].
  destruct (includes (titles s) (get (name c) d)); cbn [negb];
    intros [= <-]; (split; [reflexivity|]).
  - left. split; reflexivity.
  - right. cbn. auto.
Qed.

Lemma existsb_in_false {A} (f : A -> bool) (l : list A) :
  existsb f l = false -> forall a, In a l -> f a = false.
Proof using Type.
  intros H a Ha. destruct (f a) eqn:E; [|reflexivity].
  rewrite <- H. symmetry. apply existsb_exists. eauto.
Qed.

Lemma scanned_step (index : nat) (c : category value)
  (seen : list (dict value)) (s s' : scan value) (d : dict value) :
  scanning index c seen s ->
  scan_source index c s d = Ok s' ->
  scanning index c (seen ++ [d]) s'.
Proof using Type.
  intros (Ht & Hd & Hcov & Horigin & Hle & Hsel & Hcol & Hfirst & Hinc) H.
  apply scan_source_ok in H.
  destruct H as [_ [[Hin ->]|(Hnew & Ht' & He' & Hs')]].
  - (* the title is there already *)
    unfold scanned.
    refine (conj Ht (conj Hd (conj _ (conj _ (conj _ (conj Hsel
             (conj _ (conj _ _)))))))).
    + intros d' Hd'. apply in_app_iff in Hd'.
      destruct Hd' as [Hd'|[<-|[]]]; [now apply Hcov | now right].
    + intros t Ht0. destruct (Horigin t Ht0) as (d' & Hd' & ->).
      exists d'. split; [apply in_app_iff; now left | reflexivity].
    + rewrite length_app. lia.
    + intros el Hel. split; [apply (Hcol el Hel)|].
      intros E. destruct (proj2 (Hcol el Hel) E) as (d' & Hd' & H1 & H2).
      exists d'. split; [apply in_app_iff; now left | auto].
    + intros pre d0 post Hseen Hvis Hno.
      apply snoc_split in Hseen.
      destruct Hseen as [(-> & <- & <-)|(post' & -> & ->)].
      * apply Hinc in Hin. congruence.
      * eapply Hfirst; eauto.
    + intros t Hti. rewrite map_app, includes_app, (Hinc t Hti).
      reflexivity.
  - (* a new title *)
    pose proof (existsb_in_false _ _ Hnew) as Hall.
    unfold scanned. rewrite Ht', He'.
    refine (conj _ (conj _ (conj _ (conj _ (conj _ (conj _
             (conj _ (conj _ _)))))))).
    + rewrite map_app, <- Ht. reflexivity.
    + apply ForallOrdPairs_snoc; [exact Hd|].
      apply Forall_forall. exact Hall.
    + intros d' Hd'. apply in_app_iff in Hd'.
      destruct Hd' as [Hd'|[<-|[]]].
      * destruct (Hcov d' Hd') as [H|H].
        -- left. apply in_app_iff. now left.
        -- right. rewrite includes_app, H. reflexivity.
      * left. apply in_app_iff. right. now left.
    + intros t Ht0. apply in_app_iff in Ht0.
      destruct Ht0 as [Ht0|[<-|[]]].
      * destruct (Horigin t Ht0) as (d' & Hd' & ->).
        exists d'. split; [apply in_app_iff; now left | reflexivity].
      * exists d. split; [apply in_app_iff; right; now left | reflexivity].
    + rewrite !length_app. cbn [length]. lia.
    + rewrite Hs', length_app. cbn [length].
      destruct (to_boolean _); [rewrite length_app; cbn [length]|]; lia.
    + intros el Hel. apply in_app_iff in Hel.
      destruct Hel as [Hel|[<-|[]]].
      * split; [apply (Hcol el Hel)|].
        intros E. destruct (proj2 (Hcol el Hel) E) as (d' & Hd' & H1 & H2).
        exists d'. split; [apply in_app_iff; now left | auto].
      * cbn [color element_title]. split.
        -- intros E. apply Nat.eqb_neq in E. now rewrite E.
        -- intros ->. exists d.
           split; [apply in_app_iff; right; now left | auto].
    + intros pre d0 post Hseen Hvis Hno. rewrite Hs'.
      apply snoc_split in Hseen.
      destruct Hseen as [(-> & <- & <-)|(post' & -> & ->)].
      * rewrite Hvis. apply in_app_iff. right. now left.
      * assert (In (get (name c ++ js "_index") d0) (scan_selection s))
          by (eapply Hfirst; eauto).
        destruct (to_boolean _); [apply in_app_iff; now left | assumption].
    + intros t Hti. rewrite includes_app in Hti.
      rewrite map_app, includes_app.
      apply orb_true_iff in Hti. destruct Hti as [Hti|Hti].
      * now rewrite (Hinc t Hti).
      * cbn in Hti |- *. rewrite Hti. apply orb_true_r.
Qed.

Lemma scanned_loop (index : nat) (c : category value)
  (srcs seen : list (dict value)) (s s' : scan value) :
  scanning index c seen s ->
  for_each (scan_source index c) s srcs = Ok s' ->
  scanning index c (seen ++ srcs) s'.
Proof using Type.
  revert seen s; induction srcs as [|d srcs IH]; intros seen s Hs; simpl.
  - intros [= <-]. now rewrite app_nil_r.
  - destruct (scan_source index c s d) as [s1|e] eqn:E; simpl; [|discriminate].
    intros H. pose proof (@scanned_step _ _ _ _ _ _ Hs E) as Hs1.
    apply (IH _ _ Hs1) in H.
    now rewrite <- app_assoc in H.
Qed.

Lemma scanned_empty (index : nat) (c : category value) :
  scanning index c [] empty_scan.
Proof using Type.
  unfold scanned. cbn.
  refine (conj eq_refl (conj _ (conj _ (conj _ (conj _ (conj _
           (conj _ (conj _ _)))))))); try contradiction; try discriminate.
  - constructor.
  - constructor.
  - constructor.
  - intros pre d post H. destruct pre; discriminate.
Qed.

Lemma created_from_ok (cats : list (category value))
  (srcs : list (dict value)) (index : nat)
  (acc ces : list (category_elements value)) :
  created_from index cats srcs acc = (ces, None) ->
  exists news,
    ces = acc ++ news
    /\ length news = length cats
    /\ forall k c, nth_error cats k = Some c ->
         exists s,
           scanning (index + k)%nat c srcs s
           /\ nth_error news k
              = Some {| category_name := name c;
                        category_title := title c;
                        elements := scan_elements s;
                        selection := scan_selection s |}.
Proof using Type.
  revert index acc; induction cats as [|c cats IH]; intros index acc.
  - cbn. intros [= <-]. exists []. rewrite app_nil_r.
    split; [reflexivity|]. split; [reflexivity|].
    intros [|k] c H; discriminate.
  - cbn [Bokeh.created_from].
    destruct (for_each (scan_source index c) empty_scan srcs) as [s|e] eqn:E;
      [|discriminate].
    intros H. apply IH in H. destruct H as (news & -> & Hlen & Hnth).
    eexists (_ :: news). rewrite <- app_assoc.
    split; [reflexivity|]. split; [cbn; now rewrite Hlen|].
    intros [|k] c' Hc'.
    + injection Hc' as <-. exists s. rewrite Nat.add_0_r.
      split; [|reflexivity].
      exact (@scanned_loop index c srcs [] _ _ (scanned_empty index c) E).
    + cbn [nth_error] in Hc' |- *. destruct (Hnth k c' Hc') as (s' & H1 & H2).
      exists s'. split; [|exact H2].
      now replace (index + S k)%nat with (S index + k)%nat by lia.
Qed.

Lemma created_from_error (cats : list (category value))
  (srcs : list (dict value)) (index : nat)
  (acc ces : list (category_elements value)) (e : exn) :
  created_from index cats srcs acc = (ces, Some e) ->
  exists k c, nth_error cats k = Some c
              /\ for_each (scan_source (index + k)%nat c) empty_scan srcs
                 = Throw e.
Proof using Type.
  revert index acc; induction cats as [|c cats IH]; intros index acc.
  - discriminate.
  - cbn [Bokeh.created_from].
    destruct (for_each (scan_source index c) empty_scan srcs) as [s|e'] eqn:E.
    + intros H. apply IH in H. destruct H as (k & c' & Hk & Hs).
      exists (S k), c'. split; [exact Hk|].
      now replace (index + S k)%nat with (S index + k)%nat by lia.
    + intros [= _ <-]. exists 0%nat, c. rewrite Nat.add_0_r. auto.
Qed.

Lemma scan_throw (index : nat) (c : category value)
  (srcs : list (dict value)) (s : scan value) (e : exn) :
  for_each (scan_source index c) s srcs = Throw e ->
  exists d, In d srcs /\ has (name c) d = false /\ e = missing_key c d.
Proof using Type.
  intros H. apply for_each_throw in H.
  destruct H as (pre & d & post & s1 & -> & _ & Hbody).
  exists d. split; [apply in_elt|].
  unfold Bokeh.scan_source in Hbody.
  destruct (has (name c) d); cbn [negb] in Hbody.
  - destruct (negb _); discriminate.
  - injection Hbody as <-. auto.
Qed.

(** X16.  The elements that [created] collects.  When [created] ends normally
    there is one entry for every category, under its name and title.  The
    titles of its elements are pairwise different, each is the value of a
    data source under the category, and every data source finds its value
    among them; there are no more elements than data sources and no more
    selected indices than elements. *)
Theorem created_elements (cats : list (category value))
  (srcs : list (dict value)) (ces : list (category_elements value)) :
  created cats srcs = (ces, None) ->
  length ces = length cats
  /\ (forall k c, nth_error cats k = Some c ->
        exists ce, nth_error ces k = Some ce
                   /\ category_name ce = name c
                   /\ category_title ce = title c)
  /\ (forall ce, In ce ces ->
        let ts := map (@element_title value) (elements ce) in
        ForallOrdPairs (fun a b => same_value_zero a b = false) ts
        /\ (forall d, In d srcs ->
              In (get (category_name ce) d) ts
              \/ includes ts (get (category_name ce) d) = true)
        /\ (forall t, In t ts ->
              exists d, In d srcs /\ t = get (category_name ce) d)
        /\ (length (elements ce) <= length srcs)%nat
        /\ (length (selection ce) <= length (elements ce))%nat).
Proof using Type.
  intros H. apply created_from_ok in H.
  destruct H as (news & -> & Hlen & Hnth). cbn [app].
  split; [exact Hlen|]. split.
  - intros k c Hc. destruct (Hnth k c Hc) as (s & _ & Hs).
    eexists. split; [exact Hs|]. split; reflexivity.
  - intros ce Hce. apply In_nth_error in Hce. destruct Hce as [k Hk].
    assert (Hlt : (k < length cats)%nat).
    { rewrite <- Hlen. apply nth_error_Some. congruence. }
    destruct (nth_error cats k) as [c|] eqn:Hc;
      [|apply nth_error_None in Hc; lia].
    destruct (Hnth k c Hc) as (s & Hs & Hk').
    rewrite Hk in Hk'. injection Hk' as ->. cbn.
    destruct Hs as (Ht & Hd & Hcov & Horigin & Hle & Hsel & _).
    rewrite <- Ht. cbn in Hle. auto.
Qed.

(** X17.  When [created] throws.  [created] ends normally exactly when every
    data source has, or inherits, a property under the name of every
    category; otherwise its error names a category and a data source that
    lacks it. *)
Theorem created_missing_key (cats : list (category value))
  (srcs : list (dict value)) :
  (snd (created cats srcs) = None
   <-> forall c d, In c cats -> In d srcs -> has (name c) d = true)
  /\ (forall e, snd (created cats srcs) = Some e ->
        exists c d, In c cats /\ In d srcs /\ has (name c) d = false
                    /\ e = missing_key c d).
Proof using Type.
  assert (Herr : forall e, snd (created cats srcs) = Some e ->
            exists c d, In c cats /\ In d srcs /\ has (name c) d = false
                        /\ e = missing_key c d).
  { intros e H. destruct (created cats srcs) as [ces o] eqn:E.
    cbn in H. subst o. apply created_from_error in E.
    destruct E as (k & c & Hk & Hs). apply scan_throw in Hs.
    destruct Hs as (d & Hd & Hh & ->).
    exists c, d. split; [eapply nth_error_In; eassumption | auto]. }
  split; [split|exact Herr].
  - intros H c d Hc Hd. destruct (has (name c) d) eqn:Hh; [reflexivity|].
    exfalso. unfold Bokeh.created in H.
    assert (Hgen : forall cats index acc,
              In c cats ->
              snd (created_from index cats srcs acc) <> None).
    { clear H Hc. induction cats0 as [|c0 cats0 IH]; intros index acc Hc;
        [contradiction|].
      cbn [Bokeh.created_from].
      destruct (for_each (scan_source index c0) empty_scan srcs)
        as [s|e] eqn:E; [|discriminate].
      destruct Hc as [->|Hc]; [|now apply IH].
      exfalso.
      assert (Hall : forall pre s0 s1,
                for_each (scan_source index c) s0 pre = Ok s1 ->
                forall d', In d' pre -> has (name c) d' = true).
      { induction pre as [|a pre IHp]; intros s0 s1 Hp d' Hd';
          [contradiction|].
        cbn [for_each] in Hp.
        destruct (scan_source index c s0 a) as [s2|e2] eqn:E2;
          simpl in Hp; [|discriminate].
        destruct Hd' as [<-|Hd'].
        - now apply scan_source_ok in E2.
        - eapply IHp; eassumption. }
      rewrite (Hall _ _ _ E d Hd) in Hh. discriminate. }
    exact (Hgen cats 0%nat [] Hc H).
  - intros H. destruct (snd (created cats srcs)) as [e|] eqn:E;
      [|reflexivity].
    destruct (Herr e eq_refl) as (c & d & Hc & Hd & Hh & _).
    rewrite (H c d Hc Hd) in Hh. discriminate.
Qed.

(** X18.  The first category defines the colours.  When [created] ends
    normally, every element of the first category carries the colour of a
    data source that has its title, and the elements of all other
    categories carry [null]. *)
Theorem created_colors (cats : list (category value))
  (srcs : list (dict value)) (ces : list (category_elements value)) :
  created cats srcs = (ces, None) ->
  forall k ce el,
    nth_error ces k = Some ce -> In el (elements ce) ->
    (k <> 0%nat -> color el = null)
    /\ (k = 0%nat ->
        exists d, In d srcs
                  /\ element_title el = get (category_name ce) d
                  /\ color el = get (js "color") d).
Proof using Type.
  intros H k ce el Hk Hel. apply created_from_ok in H.
  destruct H as (news & -> & Hlen & Hnth). cbn [app] in Hk.
  assert (Hlt : (k < length cats)%nat).
  { rewrite <- Hlen. apply nth_error_Some. congruence. }
  destruct (nth_error cats k) as [c|] eqn:Hc;
    [|apply nth_error_None in Hc; lia].
  destruct (Hnth k c Hc) as (s & Hs & Hk').
  rewrite Hk in Hk'. injection Hk' as ->. cbn in Hel |- *.
  destruct Hs as (_ & _ & _ & _ & _ & _ & Hcol & _).
  exact (Hcol el Hel).
Qed.

Lemma selected_spec (ces : list (category_elements value))
  (d : dict value) :
  selected ces d = true
  <-> forall ce, In ce ces ->
        includes (selection ce)
          (get (category_name ce ++ js "_index") d) = true.
Proof using Type.
  unfold Bokeh.selected.
  assert (H : forall b,
            fold_left
              (fun visible c =>
                 visible
                 && includes (selection c)
                      (get (category_name c ++ js "_index") d)) ces b = true
            <-> b = true
                /\ forall ce, In ce ces ->
                     includes (selection ce)
                       (get (category_name ce ++ js "_index") d) = true).
  { induction ces as [|ce ces IH]; intros b; cbn [fold_left].
    - split; [intros ->; split; [reflexivity | intros ce []]
             | intros [-> _]; reflexivity].
    - rewrite IH, andb_true_iff. split.
      + intros [[-> Hce] Hall]. split; [reflexivity|].
        intros ce' [<-|Hin]; auto.
      + intros [-> Hall]. split; [split; [reflexivity|]|].
        * apply Hall. now left.
        * intros ce' Hin. apply Hall. now right. }
  rewrite H. split.
  - intros [_ Ha]. exact Ha.
  - intros Ha. split; [reflexivity | exact Ha].
Qed.

(** X19.  What [refreshPlot] shows.  The data sources stay as they are and in
    their order.  The line of a data source is set visible exactly when the
    selection of every category includes the index of the data source
    under that category; its symbols are set to the [show_symbols] of the
    data source then, and to [false] when the line is hidden; the alphas
    change, to the opacity, only for a topography analysis. *)
Theorem refresh_visibility (ces : list (category_elements value))
  (opacity : value) (gs : list (glyphs value)) :
  map (@source value) (refreshPlot ces opacity gs) = map (@source value) gs
  /\ forall i g, nth_error gs i = Some g ->
       exists g' b,
         nth_error (refreshPlot ces opacity gs) i = Some g'
         /\ line_visible g' = of_bool b
         /\ (b = true
             <-> forall ce, In ce ces ->
                   includes (selection ce)
                     (get (category_name ce ++ js "_index") (source g))
                   = true)
         /\ (b = false -> symbols_visible g' = of_bool false)
         /\ (b = true ->
             symbols_visible g' = get (js "show_symbols") (source g))
         /\ (to_boolean (get (js "is_topography_analysis") (source g))
             = false ->
             line_alpha g' = line_alpha g
             /\ symbols_alpha g' = symbols_alpha g)
         /\ (to_boolean (get (js "is_topography_analysis") (source g))
             = true ->
             line_alpha g' = opacity /\ symbols_alpha g' = opacity).
Proof using Type.
  unfold Bokeh.refreshPlot. split.
  - rewrite map_map. apply map_ext. reflexivity.
  - intros i g Hg.
    exists (refresh ces opacity g), (selected ces (source g)).
    rewrite nth_error_map, Hg. split; [reflexivity|].
    unfold Bokeh.refresh. cbn.
    split; [reflexivity|]. split; [apply selected_spec|].
    split; [now intros ->|]. split; [now intros ->|].
    split; intros ->; auto.
Qed.

(** X20.  From [created] to the first [refreshPlot].  With a comparison of
    values that holds of every value and itself, a data source that is
    visible, and before which no data source has the same value under
    any category, is selected in every category that [created] builds:
    [refreshPlot] keeps its line visible and shows its symbols as
    [show_symbols] says. *)
Theorem created_then_refresh (cats : list (category value))
  (pre : list (dict value)) (d : dict value) (post : list (dict value))
  (ces : list (category_elements value)) (opacity : value) :
  (forall v, same_value_zero v v = true) ->
  created cats (pre ++ d :: post) = (ces, None) ->
  to_boolean (get (js "visible") d) = true ->
  (forall c, In c cats ->
     includes (map (get (name c)) pre) (get (name c) d) = false) ->
  selected ces d = true
  /\ exists g,
       In g (refreshPlot ces opacity (mounted (pre ++ d :: post)))
       /\ source g = d
       /\ line_visible g = of_bool true
       /\ symbols_visible g = get (js "show_symbols") d.
Proof using Type.
  intros Hrefl Hcreated Hvis Hfirst.
  assert (Hsel : selected ces d = true).
  { apply selected_spec. intros ce Hce.
    apply created_from_ok in Hcreated.
    destruct Hcreated as (news & -> & Hlen & Hnth). cbn [app] in Hce.
    apply In_nth_error in Hce. destruct Hce as [k Hk].
    assert (Hlt : (k < length cats)%nat).
    { rewrite <- Hlen. apply nth_error_Some. congruence. }
    destruct (nth_error cats k) as [c|] eqn:Hc;
      [|apply nth_error_None in Hc; lia].
    destruct (Hnth k c Hc) as (s & Hs & Hk').
    rewrite Hk in Hk'. injection Hk' as ->. cbn.
    destruct Hs as (_ & _ & _ & _ & _ & _ & _ & Hin & _).
    specialize (Hin pre d post eq_refl Hvis
                  (Hfirst c (nth_error_In _ _ Hc))).
    unfold Bokeh.includes. apply existsb_exists.
    eexists. split; [exact Hin | apply Hrefl]. }
  split; [exact Hsel|].
  eexists. split.
  - unfold Bokeh.refreshPlot, Bokeh.mounted.
    apply in_map, in_map. apply -> in_rev. apply in_elt.
  - unfold Bokeh.refresh. cbn. rewrite Hsel. auto.
Qed.

End BokehFacts.

(** ** The search results *)

Section SearchFacts.

Import Search.

Variable base_url : jsstring -> result url.
Variable new_url : jsvalue -> result url.
Variable null_message : jsstring -> jsstring.

Local Abbreviation search_url := (Search.search_url base_url).
Local Abbreviation reload := (Search.reload base_url).
Local Abbreviation clear_search_term := (Search.clear_search_term base_url).
Local Abbreviation load_page := (Search.load_page new_url null_message).

Lemma to_usv_plain (s : jsstring) :
  Forall (fun c => (c < 0xD800)%N) s -> to_usv s = s.
Proof using Type.
  unfold to_usv. induction 1 as [|c s Hc Hs IH]; [reflexivity|].
  assert (Hh : is_high_surrogate c = false).
  { unfold is_high_surrogate. apply andb_false_iff. left.
    apply N.leb_gt. exact Hc. }
  assert (Hl : is_low_surrogate c = false).
  { unfold is_low_surrogate. apply andb_false_iff. left.
    apply N.leb_gt. lia. }
  cbn [code_points]. destruct s as [|l t].
  - cbn. now rewrite Hh, Hl.
  - rewrite Hh. cbn [andb map concat]. rewrite Hh, Hl. cbn [orb].
    now rewrite IH.
Qed.

Lemma to_usv_number (n : number) :
  to_usv (number_to_string n) = number_to_string n.
Proof using Type.
  destruct n as [|[|]|z]; try reflexivity.
  apply to_usv_plain. eapply Forall_impl; [|apply number_to_string_chars].
  intros c Hc. apply exponent_char_cases in Hc. cbn [In] in Hc.
  repeat destruct Hc as [<-|Hc]; try lia.
Qed.

Lemma params_get_delete (n m : jsstring) (l : params) :
  jsstring_eqb n m = false ->
  params_get m (params_delete n l) = params_get m l.
Proof using Type.
  intros Hnm. induction l as [|[k v] l IH]; [reflexivity|].
  unfold params_delete in *. cbn [filter fst params_get].
  destruct (jsstring_eqb k n) eqn:Ekn; cbn [negb params_get].
  - apply jsstring_eqb_eq in Ekn. subst k. now rewrite Hnm.
  - now rewrite IH.
Qed.

Lemma params_get_set_same (n v : jsstring) (l : params) :
  params_get n (params_set n v l) = Some v.
Proof using Type.
  induction l as [|[k w] l IH]; cbn [params_set params_get].
  - now rewrite jsstring_eqb_refl.
  - destruct (jsstring_eqb k n) eqn:E; cbn [params_get]; rewrite E; auto.
Qed.

Lemma params_get_set_other (n m v : jsstring) (l : params) :
  jsstring_eqb n m = false ->
  params_get m (params_set n v l) = params_get m l.
Proof using Type.
  intros Hnm. induction l as [|[k w] l IH]; cbn [params_set params_get].
  - now rewrite Hnm.
  - destruct (jsstring_eqb k n) eqn:E; cbn [params_get].
    + apply jsstring_eqb_eq in E. subst k. rewrite Hnm.
      now apply params_get_delete.
    + now rewrite IH.
Qed.

(** The pairs under the names that [keep] selects, when [keep] does not
    select the name that is set. *)
Lemma filter_params_set (keep : jsstring -> bool) (n v : jsstring)
  (l : params) :
  keep n = false ->
  filter (fun nv => keep (fst nv)) (params_set n v l)
  = filter (fun nv => keep (fst nv)) l.
Proof using Type.
  intros Hn. induction l as [|[k w] l IH]; cbn [params_set filter fst].
  - now rewrite Hn.
  - destruct (jsstring_eqb k n) eqn:E; cbn [filter fst].
    + apply jsstring_eqb_eq in E. subst k. rewrite Hn.
      unfold params_delete. clear IH.
      induction l as [|[k w'] l IH]; [reflexivity|]. cbn [filter fst].
      destruct (jsstring_eqb k n) eqn:E; cbn [negb filter fst].
      * apply jsstring_eqb_eq in E. subst k. now rewrite Hn.
      * now rewrite IH.
    + now rewrite IH.
Qed.

Lemma occurrences_set_same (n v : jsstring) (l : params) :
  occurrences n (params_set n v l) = 1%nat.
Proof using Type.
  unfold occurrences.
  induction l as [|[k w] l IH]; cbn [params_set filter fst].
  - now rewrite jsstring_eqb_refl.
  - destruct (jsstring_eqb k n) eqn:E; cbn [filter fst]; rewrite E.
    + cbn [length]. f_equal. unfold params_delete. clear.
      induction l as [|[k w] l IH]; [reflexivity|]. cbn [filter fst].
      destruct (jsstring_eqb k n) eqn:E; cbn [negb filter fst];
        [|rewrite E]; exact IH.
    + exact IH.
Qed.

Lemma occurrences_set_other (n m v : jsstring) (l : params) :
  jsstring_eqb n m = false ->
  occurrences m (params_set n v l) = occurrences m l.
Proof using Type.
  intros H. unfold occurrences. f_equal.
  exact (filter_params_set (fun k => jsstring_eqb k m) n v l H).
Qed.

Lemma other_pairs_set (n v : jsstring) (l : params) :
  existsb (jsstring_eqb n) search_names = true ->
  other_pairs (params_set n v l) = other_pairs l.
Proof using Type.
  intros H. unfold other_pairs.
  apply (filter_params_set
           (fun k => negb (existsb (jsstring_eqb k) search_names))).
  now rewrite H.
Qed.

(** The query that [search_url] builds. *)
Lemma search_url_query (st : state) (u : url) :
  base_url (tree_mode st) = Ok u ->
  exists u',
    search_url st = Ok u'
    /\ location u' = location u
    /\ fragment u' = fragment u
    /\ params_get (js "search") (query u') = Some (to_usv (search_term st))
    /\ params_get (js "category") (query u') = Some (to_usv (category st))
    /\ params_get (js "sharing_status") (query u')
       = Some (to_usv (sharing_status st))
    /\ params_get (js "page_size") (query u')
       = Some (number_to_string (page_size st))
    /\ params_get (js "page") (query u')
       = Some (number_to_string (current_page st))
    /\ params_get (js "tree_mode") (query u') = Some (to_usv (tree_mode st))
    /\ (forall n, In n search_names -> occurrences n (query u') = 1%nat)
    /\ other_pairs (query u') = other_pairs (query u).
Proof using Type.
  intros Hu. unfold Search.search_url. rewrite Hu. cbn [bind].
  eexists. split; [reflexivity|].
  unfold set_param. cbn [location fragment query].
  change (to_usv (js "search")) with (js "search").
  change (to_usv (js "category")) with (js "category").
  change (to_usv (js "sharing_status")) with (js "sharing_status").
  change (to_usv (js "page_size")) with (js "page_size").
  change (to_usv (js "page")) with (js "page").
  change (to_usv (js "tree_mode")) with (js "tree_mode").
  rewrite !to_usv_number.
  split; [reflexivity|]. split; [reflexivity|].
  repeat match goal with
         | |- _ /\ _ => split
         | |- params_get ?n (params_set ?n _ _) = _ =>
             apply params_get_set_same
         | |- params_get _ (params_set _ _ _) = _ =>
             rewrite params_get_set_other by reflexivity
         end.
  - intros n Hn. cbn [search_names In] in Hn.
    repeat match type of Hn with
           | _ \/ _ => destruct Hn as [<-|Hn]
           | False => contradiction
           end;
      repeat first [ apply occurrences_set_same
                   | rewrite occurrences_set_other by reflexivity ].
  - rewrite !other_pairs_set by reflexivity. reflexivity.
Qed.

(** X21.  The URL of a search.  When the base URL of the tree mode is a URL,
    [search_url] is that URL with the same location and fragment, in whose
    query each of [search], [category], [sharing_status], [page_size],
    [page] and [tree_mode] occurs exactly once, with the value of the
    state; the pairs under other names stay as they are, in their order. *)
Theorem search_url_parameters (st : state) (u : url) :
  printable (page_size st) ->
  printable (current_page st) ->
  base_url (tree_mode st) = Ok u ->
  exists u',
    search_url st = Ok u'
    /\ location u' = location u
    /\ fragment u' = fragment u
    /\ params_get (js "search") (query u') = Some (to_usv (search_term st))
    /\ params_get (js "category") (query u') = Some (to_usv (category st))
    /\ params_get (js "sharing_status") (query u')
       = Some (to_usv (sharing_status st))
    /\ params_get (js "page_size") (query u')
       = Some (number_to_string (page_size st))
    /\ params_get (js "page") (query u')
       = Some (number_to_string (current_page st))
    /\ params_get (js "tree_mode") (query u') = Some (to_usv (tree_mode st))
    /\ (forall n, In n search_names -> occurrences n (query u') = 1%nat)
    /\ other_pairs (query u') = other_pairs (query u).
Proof using Type. intros _ _. apply search_url_query. Qed.

(** X22.  [reload] goes back to the first page.  Whatever the page was, the
    current page is 1 afterwards and the filters are unchanged.  When the
    base URL of the tree mode is a URL, the tree gets a source whose query
    asks for page 1 with the search term of the state, and the loading
    indicator is on; when it is not, the error is thrown after the page
    was reset, and source and indicator stay as they were.  A second
    [reload] changes nothing more. *)
Theorem reload_first_page (st st' : state) (o : option exn) :
  printable (page_size st) ->
  reload st = (st', o) ->
  current_page st' = Int 1
  /\ page_size st' = page_size st
  /\ search_term st' = search_term st
  /\ category st' = category st
  /\ sharing_status st' = sharing_status st
  /\ tree_mode st' = tree_mode st
  /\ (forall u, base_url (tree_mode st) = Ok u ->
        o = None
        /\ is_loading st' = true
        /\ exists u',
             tree_source st' = Some u'
             /\ location u' = location u
             /\ params_get (js "page") (query u') = Some (js "1")
             /\ params_get (js "search") (query u')
                = Some (to_usv (search_term st))
             /\ params_get (js "page_size") (query u')
                = Some (number_to_string (page_size st)))
  /\ (forall e, base_url (tree_mode st) = Throw e ->
        o = Some e
        /\ is_loading st' = is_loading st
        /\ tree_source st' = tree_source st)
  /\ reload st' = (st', o).
Proof using Type.
  intros _. unfold Search.reload.
  destruct (Search.search_url base_url (with_page st (Int 1)))
    as [u1|e1] eqn:E; intros [= <- <-]; cbn;
    (repeat (split; [reflexivity|])); (split; [|split]).
  - intros u Hu.
    destruct (@search_url_query (with_page st (Int 1)) u Hu)
      as (u' & Hs & Hl & _ & Hsearch & _ & _ & Hsize & Hpage & _).
    rewrite E in Hs. injection Hs as <-.
    split; [reflexivity|]. split; [reflexivity|].
    exists u1. auto.
  - intros e He. unfold Search.search_url in E. cbn in E.
    rewrite He in E. discriminate.
  - unfold Search.search_url in E |- *. cbn in E |- *.
    destruct (base_url (tree_mode st)); [|discriminate].
    cbn in E |- *. injection E as <-. reflexivity.
  - intros u Hu. unfold Search.search_url in E. cbn in E.
    rewrite Hu in E. discriminate.
  - intros e He. unfold Search.search_url in E. cbn in E.
    rewrite He in E. cbn in E. injection E as <-. auto.
  - unfold Search.search_url in E |- *. cbn in E |- *.
    destruct (base_url (tree_mode st)); [discriminate|].
    cbn in E |- *. injection E as <-. reflexivity.
Qed.

(** X23.  [clear_search_term] searches for everything.  When the base URL
    of the tree mode is a URL, the search term is empty afterwards, the
    current page is 1, and the source of the tree asks for the empty
    search term and page 1. *)
Theorem clear_search_term_query (st st' : state) (o : option exn)
  (u : url) :
  base_url (tree_mode st) = Ok u ->
  clear_search_term st = (st', o) ->
  o = None
  /\ search_term st' = []
  /\ current_page st' = Int 1
  /\ is_loading st' = true
  /\ exists u',
       tree_source st' = Some u'
       /\ params_get (js "search") (query u') = Some []
       /\ params_get (js "page") (query u') = Some (js "1")
       /\ params_get (js "category") (query u')
          = Some (to_usv (category st)).
Proof using Type.
  intros Hu. unfold Search.clear_search_term, Search.reload.
  match goal with
  | |- context [Search.search_url base_url ?s] =>
      destruct (@search_url_query s u Hu)
        as (u' & Hs & _ & _ & Hsearch & Hcat & _ & _ & Hpage & _);
      rewrite Hs
  end.
  intros [= <- <-]. cbn.
  repeat (split; [reflexivity|]). exists u'. auto.
Qed.

(** X24.  What [load_page] can do.  It changes nothing but the source of the
    tree and the loading indicator, and when it throws it changes nothing
    at all.  The source changes only to the URL stored for a page number
    between 1 and the length of the page range. *)
Theorem load_page_frame (page_no : jsstring) (st st' : state)
  (o : option exn) :
  load_page page_no st = (st', o) ->
  (st' = st
   \/ exists z range urls u,
        parseInt page_no = Int z
        /\ page_range st = Some range
        /\ page_urls st = Some urls
        /\ (1 <= z <= Z.of_nat (length range))%Z
        /\ new_url (nth_error urls (Z.to_nat (z - 1))) = Ok u
        /\ o = None
        /\ st' = with_source st u)
  /\ (o <> None -> st' = st).
Proof using Type.
  unfold Search.load_page.
  destruct (at_least_one (parseInt page_no)) eqn:E1;
    [|intros [= <- <-]; split; auto].
  destruct (page_range st) as [range|] eqn:Er;
    [|intros [= <- <-]; split; auto].
  destruct (at_most (parseInt page_no) (length range)) eqn:E2;
    [|intros [= <- <-]; split; auto].
  destruct (parseInt page_no) as [| |z] eqn:Ep;
    try (intros [= <- <-]; split; now auto).
  destruct (page_urls st) as [urls|] eqn:Eu;
    [|intros [= <- <-]; split; auto].
  destruct (new_url (nth_error urls (Z.to_nat (z - 1)))) as [u|e] eqn:En;
    intros [= <- <-]; [|split; auto].
  split; [|intros H; now contradiction H].
  right. exists z, range, urls, u. cbn in E1, E2.
  repeat split; auto; lia.
Qed.

(** X25.  [load_page] of a page number in decimal.  With the page range and the
    page URLs of a response in place, a number between 1 and the length of
    the page range whose URL is a URL makes that URL the source of the
    tree and turns the loading indicator on; a number outside leaves
    everything as it is and throws nothing. *)
Theorem load_page_decimal (z : Z) (st : state) (range : list number)
  (urls : list jsstring) :
  safe_integer z ->
  page_range st = Some range ->
  page_urls st = Some urls ->
  ((z < 1 \/ Z.of_nat (length range) < z)%Z ->
   load_page (number_to_string (Int z)) st = (st, None))
  /\ (forall s u,
        (1 <= z <= Z.of_nat (length range))%Z ->
        nth_error urls (Z.to_nat (z - 1)) = Some s ->
        new_url (Some s) = Ok u ->
        load_page (number_to_string (Int z)) st = (with_source st u, None))
  /\ (forall e,
        (1 <= z <= Z.of_nat (length range))%Z ->
        new_url (nth_error urls (Z.to_nat (z - 1))) = Throw e ->
        load_page (number_to_string (Int z)) st = (st, Some e)).
Proof using Type.
  intros Hz Hr Hu. unfold Search.load_page.
  rewrite (parseInt_number_to_string Hz), Hr, Hu.
  cbn [at_least_one at_most]. split; [|split].
  - intros H. destruct (Z.leb_spec 1 z); [|reflexivity].
    destruct (Z.leb_spec z (Z.of_nat (length range))); [lia | reflexivity].
  - intros s u H Hs Hn.
    destruct (Z.leb_spec 1 z); [|lia].
    destruct (Z.leb_spec z (Z.of_nat (length range))); [|lia].
    now rewrite Hs, Hn.
  - intros e H Hn.
    destruct (Z.leb_spec 1 z); [|lia].
    destruct (Z.leb_spec z (Z.of_nat (length range))); [|lia].
    now rewrite Hn.
Qed.

(** X26.  [load_page] before the first response.  While the page range is
    [null], a page number of at least 1 throws a [TypeError] and a page
    number that is not one, or is no number, is only reported as invalid;
    the state stays as it is in both cases. *)
Theorem load_page_null (page_no : jsstring) (st : state) :
  page_range st = None ->
  fst (load_page page_no st) = st
  /\ (snd (load_page page_no st) = None
      \/ snd (load_page page_no st)
         = Some (TypeError (null_message (js "length"))))
  /\ (snd (load_page page_no st) = None
      <-> at_least_one (parseInt page_no) = false)
  /\ (parseInt page_no = NaN -> snd (load_page page_no st) = None).
Proof using Type.
  intros Hr. unfold Search.load_page. rewrite Hr.
  destruct (parseInt page_no) as [|[|]|z]; cbn [at_least_one negb];
    [| | |destruct (1 <=? z)%Z]; cbn;
    (split; [reflexivity|]);
    (split; [first [left; reflexivity | right; reflexivity]|]);
    (split; [split|]); first [discriminate | intros _; reflexivity].
Qed.

End SearchFacts.

(** ** The further properties on concrete data *)

(** A red series with circles and a line. *)
Lemma render_series_shape_witness :
  exists out,
    Sample.render_series Sample.one Sample.one
      (Sample.item "data" (Some (js "ro-"))) = Ok out
    /\ (length (fst out) <= 2)%nat.
Proof.
  assert (H : exists out,
            Sample.render_series Sample.one Sample.one
              (Sample.item "data" (Some (js "ro-"))) = Ok out)
    by (eexists; vm_compute; reflexivity).
  destruct H as [out H]. exists out. split; [exact H|].
  pose proof H as H'. apply render_series_shape in H'.
  exact (proj2 H').
Defined.

Lemma render_plot_symbols_witness :
  exists out,
    Sample.render_plot [Sample.height_descr; Sample.metre_descr]
      (Some (js "m")) = Ok out
    /\ (length (Locals.plots out)
        <= 2 * length (all_series
                         [Sample.height_descr; Sample.metre_descr]))%nat.
Proof.
  assert (H : exists out,
            Sample.render_plot [Sample.height_descr; Sample.metre_descr]
              (Some (js "m")) = Ok out)
    by (eexists; vm_compute; reflexivity).
  destruct H as [out H]. exists out. split; [exact H|].
  pose proof H as H'. apply render_plot_symbols in H'.
  exact (proj2 (proj2 H')).
Defined.


(** Metres cannot be shown in seconds, and nothing cannot be shown. *)
Lemma render_plot_errors_witness :
  Sample.render_plot [Sample.metre_descr] (Some (js "s"))
  = Throw (Error (js "Cannot convert incompatible measures"))
  /\ Sample.render_plot [] (Some (js "s")) = Throw Plot.legend_error.
Proof.
  split.
  - apply (proj2 (proj2 (render_plot_errors Sample.one Sample.nan Sample.mul
                           Sample.pow Sample.convert [Sample.metre_descr]
                           (Some (js "s"))))
             [] Sample.metre_descr []
             (Plot.initial Sample.num (Some (js "s"))) (js "s"));
      [reflexivity | reflexivity | reflexivity | reflexivity | discriminate
      | reflexivity].
  - apply (proj1 (render_plot_errors Sample.one Sample.nan Sample.mul
                    Sample.pow Sample.convert [] (Some (js "s")))).
    reflexivity.
Defined.

Lemma render_plot_succeeds_witness :
  exists out,
    Sample.render_plot [Sample.height_descr; Sample.metre_descr]
      (Some (js "m")) = Ok out.
Proof.
  refine (proj1 (render_plot_succeeds Sample.one Sample.nan Sample.mul
                   Sample.pow Sample.convert
                   (ds := [Sample.height_descr; Sample.metre_descr])
                   (unit0 := Some (js "m")) _ _ _ _)).
  - discriminate.
  - intros d [<-|[<-|[]]]; reflexivity.
  - intros d item [<-|[<-|[]]] [<-|[]]; repeat constructor.
  - intros d u Hd _ [[= <-]|(d' & [<-|[<-|[]]] & Hu)];
      try (vm_compute in Hu; injection Hu as <-);
      destruct Hd as [<-|[<-|[]]]; eexists; vm_compute; reflexivity.
Defined.

Lemma render_plot_prefix_witness :
  exists out out1 more_plots,
    Sample.render_plot ([Sample.height_descr] ++ [Sample.metre_descr])
      (Some (js "m")) = Ok out
    /\ Sample.render_plot [Sample.height_descr] (Some (js "m")) = Ok out1
    /\ Locals.plots out = Locals.plots out1 ++ more_plots.
Proof.
  assert (H : exists out,
            Sample.render_plot ([Sample.height_descr] ++ [Sample.metre_descr])
              (Some (js "m")) = Ok out)
    by (eexists; vm_compute; reflexivity).
  destruct H as [out H]. pose proof H as H'.
  apply render_plot_prefix in H'; [|discriminate].
  destruct H' as (out1 & more_plots & _ & H1 & Hp & _).
  exists out, out1, more_plots. auto.
Defined.

(** A series with two heights and one position. *)
Lemma dataset_bounds_witness :
  let item := {| Series.name := js "data";
                 Series.x := [Sample.q 1];
                 Series.y := [Sample.q 10; Sample.q 20];
                 Series.style := None |} in
  nth_error (Plot.dataset Sample.nan Sample.mul Sample.one Sample.one item) 1
  = Some {| Point.x := Sample.mul Sample.one Sample.nan;
            Point.y := Sample.mul Sample.one (Sample.q 20) |}.
Proof.
  intros item.
  apply (proj2 (proj2 (dataset_bounds Sample.nan Sample.mul Sample.one
                         Sample.one item)));
    [reflexivity | simpl; lia].
Defined.

(** A call of [plot] in millimetres, then a call for another element in
    metres, then the responses of the first call: a task that is pending
    after one that succeeded. *)
Lemma plot_outcome_witness :
  PollingSample.when_settled
    (Polling.after_calls (Some (js "mm")) [Some (js "m")])
    (Some [PollingSample.success; PollingSample.pending;
           PollingSample.failure])
  = Ok (Polling.Retry Sample.num (Some (js "m")), true).
Proof.
  assert (Hpre : Forall
                   (fun data : Polling.Response.t Sample.num =>
                      Polling.waiting data = false
                      /\ Polling.TaskResult.error
                           (Polling.Response.result data) = None)
                   [PollingSample.success])
    by (repeat constructor).
  apply (proj1
           (proj1 (proj2 (proj2 (plot_outcome Sample.one Sample.nan
                                   Sample.mul Sample.pow Sample.convert
                                   (Some (js "mm")) [Some (js "m")]
                                   [PollingSample.success;
                                    PollingSample.pending;
                                    PollingSample.failure])))
              [PollingSample.success] PollingSample.pending
              [PollingSample.failure] eq_refl Hpre));
    reflexivity.
Defined.


(** Two requests were sent and the first has completed. *)
Lemma page_leave_witness :
  In 2%N (snd (Pool.onbeforeunload None
                 (Pool.pool_after
                    [Pool.Send 1; Pool.Send 2; Pool.Complete 1]%N))).
Proof.
  apply (proj1 (proj1 (proj2 (page_leave None
                                [Pool.Send 1; Pool.Send 2;
                                 Pool.Complete 1]%N)) eq_refl) 2%N).
  exists [Pool.Send 1%N], [Pool.Complete 1%N].
  split; [reflexivity|]. simpl. intros [H|[]]. discriminate H.
Defined.

Lemma created_elements_witness :
  length BokehSample.category_elements = length BokehSample.categories.
Proof.
  assert (H : BokehSample.created BokehSample.categories
                BokehSample.data_sources
              = (BokehSample.category_elements, None))
    by (vm_compute; reflexivity).
  apply created_elements in H. exact (proj1 H).
Defined.

(** A data source without the second category. *)
Lemma created_missing_key_witness :
  exists c d,
    In c BokehSample.categories
    /\ In d (BokehSample.data_sources ++ [BokehSample.nameless])
    /\ BokehSample.has (Bokeh.name c) d = false.
Proof.
  assert (H : exists e,
            snd (BokehSample.created BokehSample.categories
                   (BokehSample.data_sources ++ [BokehSample.nameless]))
            = Some e)
    by (eexists; vm_compute; reflexivity).
  destruct H as [e H].
  apply (proj2 (created_missing_key BokehSample.Undefined BokehSample.Null
                  BokehSample.to_boolean BokehSample.to_string
                  BokehSample.same_value_zero BokehSample.inherited
                  BokehSample.categories
                  (BokehSample.data_sources ++ [BokehSample.nameless])))
    in H.
  destruct H as (c & d & Hc & Hd & Hh & _). exists c, d. auto.
Defined.

Lemma created_colors_witness :
  exists ce el,
    nth_error BokehSample.category_elements 1 = Some ce
    /\ In el (Bokeh.elements ce)
    /\ Bokeh.color el = BokehSample.Null.
Proof.
  assert (H : BokehSample.created BokehSample.categories
                BokehSample.data_sources
              = (BokehSample.category_elements, None))
    by (vm_compute; reflexivity).
  destruct (nth_error BokehSample.category_elements 1) as [ce|] eqn:Hce;
    [|vm_compute in Hce; discriminate].
  destruct (Bokeh.elements ce) as [|el els] eqn:Hel.
  - vm_compute in Hce. injection Hce as <-. vm_compute in Hel.
    discriminate.
  - exists ce, el. split; [reflexivity|]. rewrite Hel.
    split; [now left|].
    assert (Hin : In el (Bokeh.elements ce)) by (rewrite Hel; now left).
    apply (proj1 (@created_colors _ _ _ _ _ _ _ _ _ _ H 1%nat ce el Hce
                    Hin)).
    discriminate.
Defined.

Lemma refresh_visibility_witness :
  map (@Bokeh.source BokehSample.value)
    (BokehSample.refreshPlot BokehSample.category_elements
       (BokehSample.Num 1) (BokehSample.mounted BokehSample.data_sources))
  = rev BokehSample.data_sources.
Proof.
  etransitivity;
    [exact (proj1 (refresh_visibility BokehSample.Undefined BokehSample.Bool
                     BokehSample.to_boolean BokehSample.same_value_zero
                     BokehSample.inherited BokehSample.category_elements
                     (BokehSample.Num 1)
                     (BokehSample.mounted BokehSample.data_sources)))|].
  vm_compute. reflexivity.
Defined.

(** The first data source is visible and the first of its subject and of
    its series. *)
Lemma created_then_refresh_witness :
  BokehSample.selected BokehSample.category_elements BokehSample.height
  = true.
Proof.
  assert (Hrefl : forall v, BokehSample.same_value_zero v v = true).
  { intros [| |b|s|z|s|]; simpl; try reflexivity.
    - now destruct b.
    - apply jsstring_eqb_refl.
    - apply Z.eqb_refl.
    - apply jsstring_eqb_refl. }
  assert (H : BokehSample.created BokehSample.categories
                ([] ++ BokehSample.height
                    :: [BokehSample.slope; BokehSample.other_height])
              = (BokehSample.category_elements, None))
    by (vm_compute; reflexivity).
  refine (proj1 (@created_then_refresh _ _ _ BokehSample.Bool _ _ _ _ _
                   [] BokehSample.height
                   [BokehSample.slope; BokehSample.other_height] _
                   (BokehSample.Num 1) Hrefl H eq_refl _)).
  intros c [<-|[<-|[]]]; reflexivity.
Defined.

Lemma search_url_parameters_witness :
  exists u',
    SearchSample.search_url SearchSample.initial = Ok u'
    /\ Search.params_get (js "page") (Search.query u') = Some (js "4")
    /\ occurrences (js "page") (Search.query u') = 1%nat
    /\ Search.params_get (js "format") (Search.query u') = Some (js "json").
Proof.
  assert (Hu : exists u,
            SearchSample.base_url (Search.tree_mode SearchSample.initial)
            = Ok u)
    by (eexists; vm_compute; reflexivity).
  destruct Hu as [u Hu].
  assert (Hs : printable (Search.page_size SearchSample.initial))
    by (vm_compute; discriminate).
  assert (Hp : printable (Search.current_page SearchSample.initial))
    by (vm_compute; discriminate).
  destruct (search_url_parameters SearchSample.base_url
              SearchSample.initial Hs Hp Hu)
    as (u' & Hurl & _ & _ & _ & _ & _ & _ & Hpage & _ & Hocc & _).
  exists u'. split; [exact Hurl|]. split; [exact Hpage|].
  split; [apply Hocc; vm_compute; tauto|].
  vm_compute in Hurl. injection Hurl as <-. reflexivity.
Defined.

Lemma reload_first_page_witness :
  Search.current_page (fst (SearchSample.reload SearchSample.initial))
  = Int 1.
Proof.
  assert (Hs : printable (Search.page_size SearchSample.initial))
    by (vm_compute; discriminate).
  exact (proj1 (reload_first_page SearchSample.base_url
                  SearchSample.initial Hs
                  (surjective_pairing
                     (SearchSample.reload SearchSample.initial)))).
Defined.

Lemma clear_search_term_query_witness :
  Search.search_term
    (fst (SearchSample.clear_search_term SearchSample.initial)) = [].
Proof.
  assert (Hu : exists u,
            SearchSample.base_url (Search.tree_mode SearchSample.initial)
            = Ok u)
    by (eexists; vm_compute; reflexivity).
  destruct Hu as [u Hu].
  exact (proj1 (proj2 (clear_search_term_query SearchSample.base_url
                         SearchSample.initial Hu
                         (surjective_pairing
                            (SearchSample.clear_search_term
                               SearchSample.initial))))).
Defined.

Lemma load_page_frame_witness :
  snd (SearchSample.load_page (js "3") SearchSample.loaded) <> None
  /\ fst (SearchSample.load_page (js "3") SearchSample.loaded)
     = SearchSample.loaded.
Proof.
  assert (He : snd (SearchSample.load_page (js "3") SearchSample.loaded)
               <> None) by (vm_compute; discriminate).
  split; [exact He|].
  exact (proj2 (load_page_frame SearchSample.new_url
                  SearchSample.null_message (js "3") SearchSample.loaded
                  (surjective_pairing
                     (SearchSample.load_page (js "3") SearchSample.loaded)))
           He).
Defined.

Lemma load_page_decimal_witness :
  SearchSample.load_page (number_to_string (Int 2)) SearchSample.loaded
  = (Search.with_source SearchSample.loaded
       {| Search.location := js "https://example.org/manager/api/search/2/";
          Search.query := [];
          Search.fragment := [] |}, None).
Proof.
  assert (Hz : safe_integer 2) by (vm_compute; discriminate).
  apply (proj1 (proj2 (load_page_decimal SearchSample.new_url
                         SearchSample.null_message SearchSample.loaded
                         Hz eq_refl eq_refl))
           (js "https://example.org/manager/api/search/2/"));
    [simpl; lia | reflexivity | reflexivity].
Defined.

Lemma load_page_null_witness :
  fst (SearchSample.load_page (js "1") SearchSample.initial)
  = SearchSample.initial
  /\ snd (SearchSample.load_page (js "x") SearchSample.initial) = None.
Proof.
  split.
  - exact (proj1 (load_page_null SearchSample.new_url
                    SearchSample.null_message (js "1")
                    SearchSample.initial eq_refl)).
  - apply (proj2 (proj2 (proj2 (load_page_null SearchSample.new_url
                                  SearchSample.null_message (js "x")
                                  SearchSample.initial eq_refl)))).
    reflexivity.
Defined.
